(** * The daemon entry point ([src/daemon/main.cpp]) as a state-passing program

    [main] resolves the configuration (command line, then the configuration
    file), either forwards a daemon command to a running instance or sets up
    logging and launches the daemon (interactive, forked, or as a Windows
    service).  The embedding follows the statements of [main] in order.  The
    collaborators that [main] calls but that live elsewhere (the option
    parser, the filesystem, the log singleton, the service manager, the RPC
    command client) are modelled next to it, each with a note on its origin. *)

From Stdlib Require Import ZArith Ascii String List.
From stdpp Require Import base option list gmap strings pretty.

Open Scope string_scope.
Open Scope list_scope.
Open Scope Z_scope.

(** ** Results of fallible pure code: a value or a C++ exception *)

Inductive result (A : Type) : Type :=
| Ok (a : A)
| Error (what : string).
Arguments Ok {A} a.
Arguments Error {A} what.

#[global] Instance result_ret : MRet result := fun A a => Ok a.
#[global] Instance result_bind : MBind result := fun A B f r =>
  match r with
  | Ok a => f a
  | Error e => Error e
  end.

Definition is_ok {A} (r : result A) : bool :=
  match r with Ok _ => true | Error _ => false end.

(** ** Small string helpers *)

Module str.

(** Splits [s] at every occurrence of [sep], keeping empty pieces. *)
Fixpoint split_go (sep : ascii) (cur s : string) : list string :=
  match s with
  | EmptyString => [cur]
  | String c s' =>
      if Ascii.eqb c sep then cur :: split_go sep "" s'
      else split_go sep (cur +:+ String c "") s'
  end.

Definition split (sep : ascii) (s : string) : list string := split_go sep "" s.

Definition digit_of (c : ascii) : option Z :=
  let n := Z.of_nat (nat_of_ascii c) in
  if (48 <=? n) && (n <=? 57) then Some (n - 48) else None.

Fixpoint digits_go (acc : Z) (s : string) : option Z :=
  match s with
  | EmptyString => Some acc
  | String c s' =>
      match digit_of c with
      | Some d => digits_go (10 * acc + d) s'
      | None => None
      end
  end.

(** A non-empty string of decimal digits. *)
Definition decimal (s : string) : option Z :=
  match s with
  | EmptyString => None
  | _ => digits_go 0 s
  end.

Definition to_lower_ascii (c : ascii) : ascii :=
  let n := nat_of_ascii c in
  if (65 <=? n)%nat && (n <=? 90)%nat then ascii_of_nat (n + 32) else c.

Fixpoint to_lower (s : string) : string :=
  match s with
  | EmptyString => EmptyString
  | String c s' => String (to_lower_ascii c) (to_lower s')
  end.

(** [boost::lexical_cast<int>]: an optional sign, decimal digits, and the
    value has to fit a 32-bit [int]. *)
Definition lexical_cast_int (s : string) : option Z :=
  let in_range z :=
    if (- 2147483648 <=? z) && (z <=? 2147483647) then Some z else None in
  match s with
  | String "-" s' => z ← decimal s'; in_range (- z)
  | String "+" s' => z ← decimal s'; in_range z
  | _ => z ← decimal s; in_range z
  end.

End str.

(** ** [boost::filesystem]

    A [bf::path] holds the pathname it was made from and gives it back
    unchanged.  How a pathname falls apart (root name, root directory,
    separators, a trailing separator) depends on the platform and is the
    library's business: [main] only asks, so the library is an interface
    here, with the operations [main] calls. *)

Module bf.

Record path : Type := Path { to_string : string }.

#[global] Instance path_eq_dec : EqDecision path.
Proof. solve_decision. Defined.

Definition of_string (s : string) : path := Path s.

Class library : Type := {
  (** [p.is_relative()] *)
  is_relative : path -> bool;
  (** [p / q] *)
  append : path -> path -> path;
  (** [bf::absolute(p, base)]; [bf::absolute(p)] takes the current
      directory for [base] *)
  absolute : path -> path -> path;
  (** [p.has_parent_path()], [p.parent_path()] and [p.filename()] *)
  has_parent_path : path -> bool;
  parent_path : path -> path;
  filename : path -> path
}.

End bf.

Notation "p // q" := (bf.append p q) (at level 40, left associativity).

(** ** [boost::program_options]

    The part of the library that [main] relies on: option descriptions with
    a typed value semantic and an optional default, the variables map with
    its set of final keys, [store], and the configuration-file parser.  The
    rules are the library's documented ones: an explicitly stored value of a
    non-composing option is final for later [store] calls, defaults fill only
    keys that are still missing, and a configuration file may only name
    registered options. *)

Module po.

(** The content of a [boost::any] held by the map. *)
Inductive any : Type :=
| any_string (s : string)
| any_int (z : Z)
| any_bool (b : bool)
| any_strings (l : list string).

(** The value semantics [command_line::add_arg] creates: [value<T>()] for
    strings, ints and string vectors, [bool_switch()] for flags.  None is
    composing. *)
Inductive value_semantic : Type :=
| sem_string
| sem_int
| sem_bool_switch
| sem_strings.

Record option_description : Type := {
  od_name : string;
  od_semantic : value_semantic;
  od_default : option any
}.

Definition options_description : Type := list option_description.

Record variable_value : Type := {
  vv_value : any;
  vv_defaulted : bool
}.

Record variables_map : Type := {
  vm_values : gmap string variable_value;
  vm_final : gset string
}.

Definition empty_map : variables_map :=
  {| vm_values := ∅; vm_final := ∅ |}.

(** One occurrence of an option in a parsed source. *)
Record basic_option : Type := {
  string_key : string;
  value : list string
}.

(** [options_description::find_nothrow] on a full name.  The library
    rejects a name that two descriptions share as ambiguous; the registries
    here are taken to have none, and the first description is the answer. *)
Definition find (desc : options_description) (name : string)
  : option option_description :=
  List.find (fun d => String.eqb (od_name d) name) desc.

Definition registered (desc : options_description) (name : string) : bool :=
  match find desc name with Some _ => true | None => false end.

(** [validators::get_single_string] *)
Definition get_single_string (tokens : list string) (allow_empty : bool)
  : result string :=
  match tokens with
  | [s] => Ok s
  | [] => if allow_empty then Ok "" else Error "at least one value required"
  | _ => Error "multiple values not allowed"
  end.

(** [validators::check_first_occurrence] *)
Definition check_first_occurrence (cur : option any) : result unit :=
  match cur with
  | None => Ok tt
  | Some _ => Error "multiple occurrences"
  end.

(** [value_semantic::parse]: [cur] is the value this [store] call has
    already given the option, if any. *)
Definition parse (sem : value_semantic) (cur : option any)
    (tokens : list string) : result any :=
  match sem with
  | sem_string =>
      _ ← check_first_occurrence cur;
      s ← get_single_string tokens false;
      mret (any_string s)
  | sem_int =>
      _ ← check_first_occurrence cur;
      s ← get_single_string tokens false;
      match str.lexical_cast_int s with
      | Some z => mret (any_int z)
      | None => Error "invalid option value"
      end
  | sem_bool_switch =>
      _ ← check_first_occurrence cur;
      s ← get_single_string tokens true;
      let s := str.to_lower s in
      if bool_decide (s ∈ [""; "on"; "yes"; "1"; "true"]) then
        mret (any_bool true)
      else if bool_decide (s ∈ ["off"; "no"; "0"; "false"]) then
        mret (any_bool false)
      else Error "invalid bool value"
  | sem_strings =>
      match cur with
      | None => mret (any_strings tokens)
      | Some (any_strings l) => mret (any_strings (l ++ tokens))
      | Some _ => Error "bad any cast"
      end
  end.

(** First loop of [store]: convert and store the given options.  [fin] is
    the final set on entry, [newly] the keys assigned by this call. *)
Fixpoint store_options (desc : options_description) (opts : list basic_option)
    (fin newly : gset string) (m : gmap string variable_value)
  : result (gmap string variable_value * gset string) :=
  match opts with
  | [] => Ok (m, newly)
  | o :: rest =>
      let name := string_key o in
      if String.eqb name "" then store_options desc rest fin newly m
      else if bool_decide (name ∈ fin) then store_options desc rest fin newly m
      else
        match find desc name with
        | None => Error "unrecognised option"
        | Some d =>
            let cur :=
              match m !! name with
              | Some v => if vv_defaulted v then None else Some (vv_value v)
              | None => None
              end in
            a ← parse (od_semantic d) cur (value o);
            store_options desc rest fin ({[name]} ∪ newly)
              (<[name := {| vv_value := a; vv_defaulted := false |}]> m)
        end
  end.

(** Second loop of [store]: defaults for the keys that are still missing. *)
Fixpoint apply_defaults (all : options_description)
    (m : gmap string variable_value) : gmap string variable_value :=
  match all with
  | [] => m
  | d :: rest =>
      let m' :=
        match m !! od_name d, od_default d with
        | None, Some a =>
            <[od_name d := {| vv_value := a; vv_defaulted := true |}]> m
        | _, _ => m
        end in
      apply_defaults rest m'
  end.

(** [po::store(parsed, vm)] where [parsed] was made against [desc]. *)
Definition store (desc : options_description) (opts : list basic_option)
    (vm : variables_map) : result variables_map :=
  '(m, newly) ← store_options desc opts (vm_final vm) ∅ (vm_values vm);
  mret {| vm_values := apply_defaults desc m;
          vm_final := vm_final vm ∪ newly |}.

(** [po::parse_config_file(file, desc)]: the file is a list of
    [key=value] lines; a key that [desc] does not register is an error
    (unregistered options are not allowed by default). *)
Fixpoint parse_config_file (lines : list (string * string))
    (desc : options_description) : result (list basic_option) :=
  match lines with
  | [] => Ok []
  | (k, v) :: rest =>
      if registered desc k then
        opts ← parse_config_file rest desc;
        mret ({| string_key := k; value := [v] |} :: opts)
      else Error "unrecognised option"
  end.

End po.

(** ** The process: its state, what it does, and what surrounds it *)

Inductive logger_type : Type := LOGGER_FILE | LOGGER_CONSOLE.

(** What [main] does that is visible from outside, in the order it happens. *)
Inductive event : Type :=
| EvCerr (msg : string)                         (* std::cerr << msg *)
| EvLogPrintL0 (msg : string)                   (* LOG_PRINT_L0(msg) *)
| EvLogError (msg : string)                     (* LOG_ERROR(msg) *)
| EvPrintHelp (usage : string)
| EvQuerySystemInfo
| EvCreateDirectories (dir : bf.path)
| EvSetLogLevel (level : Z)                     (* get_set_log_detalisation_level(true, level) *)
| EvAddLogger (type : logger_type) (file dir : option string)
| EvCommandServer (ip port : Z)                 (* t_command_server{ip, port} *)
| EvProcessCommandVec (command : list string)
| EvServiceRunner (name : string)               (* t_service_runner::run *)
| EvInstallService (name arguments : string)
| EvStartService (name : string)
| EvUninstallService (name : string)
| EvFork
| EvDaemonRun.                                  (* t_daemon{vm}.run() *)

#[global] Instance logger_type_eq_dec : EqDecision logger_type.
Proof. solve_decision. Defined.
#[global] Instance event_eq_dec : EqDecision event.
Proof. solve_decision. Defined.

(** The three groups of events the dispatch keeps apart. *)
Definition is_forwarding (e : event) : bool :=
  match e with
  | EvCommandServer _ _ | EvProcessCommandVec _ => true
  | _ => false
  end.

Definition is_logging_init (e : event) : bool :=
  match e with
  | EvSetLogLevel _ | EvAddLogger _ _ _ => true
  | _ => false
  end.

Definition is_daemonization (e : event) : bool :=
  match e with
  | EvServiceRunner _ | EvInstallService _ _ | EvStartService _
  | EvUninstallService _ | EvFork | EvDaemonRun => true
  | _ => false
  end.

Definition is_set_log_level (e : event) : bool :=
  match e with
  | EvSetLogLevel _ => true
  | _ => false
  end.

Record state : Type := {
  log_detalisation_level : Z;       (* the log singleton's level *)
  loggers : list (logger_type * option string * option string);
  directories : list bf.path;       (* the directories that exist, resolved *)
  services : gset string            (* the service manager's registry *)
}.

Definition set_level (level : Z) (s : state) : state :=
  {| log_detalisation_level := level; loggers := loggers s;
     directories := directories s; services := services s |}.
Definition set_loggers (l : list (logger_type * option string * option string))
    (s : state) : state :=
  {| log_detalisation_level := log_detalisation_level s; loggers := l;
     directories := directories s; services := services s |}.
Definition set_directories (d : list bf.path) (s : state) : state :=
  {| log_detalisation_level := log_detalisation_level s; loggers := loggers s;
     directories := d; services := services s |}.
Definition set_services (r : gset string) (s : state) : state :=
  {| log_detalisation_level := log_detalisation_level s; loggers := loggers s;
     directories := directories s; services := r |}.

(** [command_line::arg_descriptor<T>]: the name, the description, the type
    and, where the descriptor gives one, the default. *)
Record arg_descriptor : Type := {
  name : string;
  description : string;
  semantic : po.value_semantic;
  default_value : option po.any
}.

(** What [posix::fork()] observes in the process that called it. *)
Inductive fork_result : Type := ForkParent | ForkChild | ForkFailed.

(** The surroundings of one invocation: the command line, the files, and the
    code of the repository that [main] calls but that is not part of
    [main.cpp].  The latter is kept as it is used: its answers. *)
Record world : Type := {
  argv : list string;
  (** what [command_line_parser(argc, argv)] makes of [argv] against all
      options, positional tokens under the key of [arg_command] *)
  parsed_argv : result (list po.basic_option);
  current_path : bf.path;
  (** what the operating system resolves a path to: [.], [..] and links
      followed, separators as the platform writes them *)
  canonical : bf.path -> bf.path;
  (** the directories above a resolved path, the outermost first *)
  ancestors : bf.path -> list bf.path;
  (** the [key=value] lines of the files that exist, by resolved path *)
  files : list (bf.path * list (string * string));
  can_create_directories : bool;
  (** [tools::get_default_data_dir()] *)
  get_default_data_dir : string;
  (** the options [daemonize::t_daemon::init_options] registers *)
  t_daemon_init_options : po.options_description;
  (** [cryptonote::core_rpc_server::arg_rpc_bind_ip] and
      [cryptonote::core_rpc_server::arg_rpc_bind_port] *)
  arg_rpc_bind_ip : arg_descriptor;
  arg_rpc_bind_port : arg_descriptor;
  (** [epee::string_tools::get_ip_int32_from_string] *)
  get_ip_int32_from_string : string -> option Z;
  (** [epee::string_tools::get_xtype_from_string] at [uint16_t] *)
  get_xtype_from_string : string -> option Z;
  (** [t_command_server::process_command_vec] on the server at ip, port *)
  process_command_vec : Z -> Z -> list string -> bool;
  (** [log_singletone::get_default_log_file()] and
      [log_singletone::get_default_log_folder()] *)
  get_default_log_file : string;
  get_default_log_folder : string;
  (** whether the service manager accepts the installation, and the start *)
  install_service_accepted : bool;
  start_service_accepted : bool;
  fork_outcome : fork_result
}.

(** ** The monad of [main]: state, events, early [return], exceptions *)

Inductive outcome (A : Type) : Type :=
| Val (a : A)             (* control reaches the next statement *)
| Ret (code : Z)          (* [return code;], or the process exits with it *)
| Exc (what : string).    (* an exception propagates *)
Arguments Val {A} a.
Arguments Ret {A} code.
Arguments Exc {A} what.

(** A computation maps the state to its outcome, the new state and the
    events it caused. *)
Definition M (A : Type) : Type := state -> outcome A * state * list event.

#[global] Instance M_ret : MRet M := fun A a s => (Val a, s, []).
#[global] Instance M_bind : MBind M := fun A B f m s =>
  match m s with
  | (Val a, s1, evs1) =>
      match f a s1 with
      | (o, s2, evs2) => (o, s2, evs1 ++ evs2)
      end
  | (Ret c, s1, evs1) => (Ret c, s1, evs1)
  | (Exc e, s1, evs1) => (Exc e, s1, evs1)
  end.

Definition return_ {A} (code : Z) : M A := fun s => (Ret code, s, []).
Definition throw {A} (what : string) : M A := fun s => (Exc what, s, []).

Definition lift {A} (r : result A) : M A :=
  match r with
  | Ok a => mret a
  | Error e => throw e
  end.

Definition emit (e : event) : M unit := fun s => (Val tt, s, [e]).

Definition cerr (msg : string) : M unit := emit (EvCerr msg).
Definition LOG_PRINT_L0 (msg : string) : M unit := emit (EvLogPrintL0 msg).
Definition LOG_ERROR (msg : string) : M unit := emit (EvLogError msg).

Definition when (b : bool) (m : M unit) : M unit := if b then m else mret tt.

(** *** The log singleton *)

(** Modelled from the spec: [epee::log_space::get_set_log_detalisation_level]
    is not part of [main.cpp]; it holds the process-wide effective
    verbosity, sets it when asked to, and returns it. *)
Definition get_set_log_detalisation_level (is_need_set : bool) (level : Z) : M Z :=
  fun s =>
    if is_need_set then (Val level, set_level level s, [EvSetLogLevel level])
    else (Val (log_detalisation_level s), s, []).

(** Modelled from the spec: [log_singletone::add_logger] is not part of
    [main.cpp]; it attaches a sink of the given type, for a file sink with
    the file name and the folder. *)
Definition add_logger (type : logger_type) (file dir : option string) : M unit :=
  fun s =>
    (Val tt, set_loggers (loggers s ++ [(type, file, dir)]) s,
     [EvAddLogger type file dir]).

(** *** The filesystem *)

(** What [bf::exists] answers: the operating system resolves the path and
    looks for a directory or a file there. *)
Definition path_exists (w : world) (s : state) (p : bf.path) : bool :=
  bool_decide (canonical w p ∈ directories s) ||
  bool_decide (canonical w p ∈ (files w).*1).

(** [bf::exists(p, ec)]: never throws. *)
Definition fs_exists (w : world) (p : bf.path) : M bool := fun s =>
  (Val (path_exists w s p), s, []).

(** Reading a path that is no readable file is an error of the reader. *)
Definition read_file (w : world) (p : bf.path) : result (list (string * string)) :=
  match List.find (fun f => bool_decide (f.1 = canonical w p)) (files w) with
  | Some f => Ok f.2
  | None => Error "can not read options configuration file"
  end.

(** Modelled from the spec: [tools::create_directories_if_necessary] is not
    part of [main.cpp]; it creates the directory if absent, is idempotent,
    and a failure is no error for [main], which drops the result. *)
Definition create_directories_if_necessary (w : world) (dir : bf.path) : M bool :=
  fun s =>
    let d := canonical w dir in
    if bool_decide (d ∈ directories s) then (Val true, s, [])
    else if can_create_directories w then
      (Val true, set_directories (directories s ++ ancestors w d ++ [d]) s,
       [EvCreateDirectories dir])
    else (Val false, s, []).

(** *** The Windows service manager *)

(** Modelled from the spec: [windows::install_service] is not part of
    [main.cpp]; it registers the name unless the name is registered already
    or the manager refuses. *)
Definition install_service (w : world) (name arguments : string) : M bool :=
  fun s =>
    let ok := install_service_accepted w && bool_decide (name ∉ services s) in
    (Val ok, if ok then set_services ({[name]} ∪ services s) s else s,
     [EvInstallService name arguments]).

(** Modelled from the spec: [windows::start_service] is not part of
    [main.cpp]; it asks the manager to start the service and answers whether
    it did. *)
Definition start_service (w : world) (name : string) : M bool :=
  fun s => (Val (start_service_accepted w), s, [EvStartService name]).

(** Modelled from the spec: [windows::uninstall_service] is not part of
    [main.cpp]; it removes the registration of the name. *)
Definition uninstall_service (name : string) : M bool := fun s =>
  (Val true, set_services (services s ∖ {[name]}) s, [EvUninstallService name]).

(** *** Forking *)

(** Modelled from the spec: [posix::fork] is not part of [main.cpp]; the
    parent exits at once with status 0, the child continues, and a failure
    to fork is an exception. *)
Definition posix_fork (w : world) : M unit := fun s =>
  match fork_outcome w with
  | ForkParent => (Ret 0, s, [EvFork])
  | ForkChild => (Val tt, s, [EvFork])
  | ForkFailed => (Exc "fork failed", s, [EvFork])
  end.

(** ** [common/command_line.h]: argument descriptors and their accessors *)

(** Modelled from the spec: [command_line::add_arg] is not part of
    [main.cpp]; it registers the option under its name with its declared
    type and default.  A flag is a [bool_switch], whose default is false. *)
Definition add_arg (desc : po.options_description) (arg : arg_descriptor)
  : po.options_description :=
  desc ++ [{| po.od_name := name arg;
              po.od_semantic := semantic arg;
              po.od_default :=
                match semantic arg with
                | po.sem_bool_switch => Some (po.any_bool false)
                | _ => default_value arg
                end |}].

(** [add_arg(description, arg, def)]: the default given at registration. *)
Definition add_arg_default (desc : po.options_description) (arg : arg_descriptor)
    (def : po.any) : po.options_description :=
  desc ++ [{| po.od_name := name arg;
              po.od_semantic := semantic arg;
              po.od_default := Some def |}].

(** Modelled from the spec: [command_line::arg_present] is not part of
    [main.cpp]; an option is present when the resolved configuration holds
    something for it: a flag that is set, a non-empty token list, any other
    value. *)
Definition arg_present (vm : po.variables_map) (arg : arg_descriptor) : bool :=
  match po.vm_values vm !! name arg with
  | Some v =>
      match po.vv_value v with
      | po.any_bool b => b
      | po.any_strings l => negb (bool_decide (l = []))
      | _ => true
      end
  | None => false
  end.

(** [command_line::get_arg<T>]: [vm[name].as<T>()], which throws when the
    map has nothing for the name or a value of another type. *)
Definition get_arg_string (vm : po.variables_map) (arg : arg_descriptor)
  : result string :=
  match po.vv_value <$> po.vm_values vm !! name arg with
  | Some (po.any_string s) => Ok s
  | _ => Error "bad any cast"
  end.

Definition get_arg_int (vm : po.variables_map) (arg : arg_descriptor)
  : result Z :=
  match po.vv_value <$> po.vm_values vm !! name arg with
  | Some (po.any_int z) => Ok z
  | _ => Error "bad any cast"
  end.

Definition get_arg_strings (vm : po.variables_map) (arg : arg_descriptor)
  : result (list string) :=
  match po.vv_value <$> po.vm_values vm !! name arg with
  | Some (po.any_strings l) => Ok l
  | _ => Error "bad any cast"
  end.

(** Modelled from the spec: [command_line::arg_data_dir] is declared
    outside [main.cpp]; the option table of the spec names it [--data-dir],
    a path. *)
Definition arg_data_dir : arg_descriptor :=
  {| name := "data-dir"; description := "Specify data directory";
     semantic := po.sem_string; default_value := None |}.

(** Modelled from the spec: the help flag of
    [daemon/command_line_options.h], which is not part of [main.cpp]; the
    spec names it [--help]. *)
Definition arg_help : arg_descriptor :=
  {| name := "help"; description := "Produce help message";
     semantic := po.sem_bool_switch; default_value := None |}.
(** Modelled from the spec: the system-query flags of
    [daemon/command_line_options.h]; the spec leaves them unnamed, they are
    [version] and [os-version] here. *)
Definition arg_version : arg_descriptor :=
  {| name := "version"; description := "Output version information";
     semantic := po.sem_bool_switch; default_value := None |}.
Definition arg_os_version : arg_descriptor :=
  {| name := "os-version"; description := "OS for which this executable was compiled";
     semantic := po.sem_bool_switch; default_value := None |}.

(** Modelled from the spec: [command_line_options::init_help_option]
    registers the help flag. *)
Definition init_help_option (desc : po.options_description) : po.options_description :=
  add_arg desc arg_help.

(** Modelled from the spec: [command_line_options::init_system_query_options]
    registers the system-query flags. *)
Definition init_system_query_options (desc : po.options_description)
  : po.options_description :=
  add_arg (add_arg desc arg_version) arg_os_version.

(** Modelled from the spec: [command_line_options::parse_options] parses
    [argv] against all options, with unmatched tokens as positional command
    tokens, stores the result in the map, and reports a failure (a value of
    the wrong type, an unknown option) instead of throwing. *)
Definition parse_options (w : world) (all_options : po.options_description)
  : M (option po.variables_map) :=
  match opts ← parsed_argv w; po.store all_options opts po.empty_map with
  | Ok vm => mret (Some vm)
  | Error e => cerr e;; mret None
  end.

(** Modelled from the spec: [command_line_options::print_help] prints the
    usage and answers true when help was asked for. *)
Definition print_help (usage : string) (vm : po.variables_map) : M bool :=
  if arg_present vm arg_help then emit (EvPrintHelp usage);; mret true
  else mret false.

(** Modelled from the spec: [command_line_options::query_system_info]
    prints the information and answers true when a system query was asked
    for. *)
Definition query_system_info (vm : po.variables_map) : M bool :=
  if arg_present vm arg_version || arg_present vm arg_os_version
  then emit EvQuerySystemInfo;; mret true
  else mret false.

(** ** [main.cpp] *)

(** The macros the translation unit is compiled with; none of them is
    defined in [main.cpp]. *)
Class Macros : Type := {
  WIN32 : bool;
  LOG_LEVEL_0 : Z;
  LOG_LEVEL_MIN : Z;
  LOG_LEVEL_MAX : Z;
  CRYPTONOTE_NAME : string;
  PROJECT_VERSION_LONG : string
}.

Section Daemon.

Context {macros : Macros} {boost : bf.library}.

Definition WINDOWS_SERVICE_NAME : string := "BitMonero Daemon".

Definition arg_config_file : arg_descriptor :=
  {| name := "config-file";
     description := "Specify configuration file.  This can either be an absolute path or a path relative to the data directory";
     semantic := po.sem_string; default_value := None |}.
Definition arg_log_file : arg_descriptor :=
  {| name := "log-file";
     description := "Specify log file.  This can either be an absolute path or a path relative to the data directory";
     semantic := po.sem_string; default_value := None |}.
Definition arg_log_level : arg_descriptor :=
  {| name := "log-level"; description := "";
     semantic := po.sem_int; default_value := Some (po.any_int LOG_LEVEL_0) |}.
Definition arg_command : arg_descriptor :=
  {| name := "daemon_command"; description := "Hidden";
     semantic := po.sem_strings; default_value := None |}.
Definition arg_detach : arg_descriptor :=
  {| name := "detach"; description := "Run as daemon";
     semantic := po.sem_bool_switch; default_value := None |}.
Definition arg_windows_service : arg_descriptor :=
  {| name := "run-as-service";
     description := "Hidden -- true if running as windows service";
     semantic := po.sem_bool_switch; default_value := None |}.

(** [get_argument_string(argc, argv)], compiled on Windows only: every
    argument after the program name, each preceded by a blank. *)
Definition get_argument_string (args : list string) : string :=
  fold_left (fun result a => result +:+ (" " +:+ a)) (tail args) "".

(** *** Build argument description (lines 76-108) *)

Definition core_settings (w : world) : po.options_description :=
  let d := add_arg_default [] arg_log_file (po.any_string (CRYPTONOTE_NAME +:+ ".log")) in
  let d := add_arg d arg_log_level in
  d ++ t_daemon_init_options w.

Definition visible_options (w : world) : po.options_description :=
  let default_data_dir :=
    bf.absolute (current_path w) (bf.of_string (get_default_data_dir w)) in
  let d := init_help_option [] in
  let d := init_system_query_options d in
  let d := add_arg_default d arg_data_dir (po.any_string (bf.to_string default_data_dir)) in
  let d := add_arg_default d arg_config_file (po.any_string (CRYPTONOTE_NAME +:+ ".conf")) in
  let d := add_arg d arg_detach in
  d ++ core_settings w.

Definition all_options (w : world) : po.options_description :=
  let d := add_arg [] arg_command in
  let d := if WIN32 then add_arg d arg_windows_service else d in
  d ++ visible_options w.

(** [bf::absolute(command_line::get_arg(vm, command_line::arg_data_dir))] *)
Definition data_dir_of (w : world) (vm : po.variables_map) : result bf.path :=
  d ← get_arg_string vm arg_data_dir;
  mret (bf.absolute (current_path w) (bf.of_string d)).

(** *** Try to create requested/defaulted data directory (lines 130-134) *)

Definition main_create_data_dir (w : world) (vm : po.variables_map) : M unit :=
  data_dir ← lift (data_dir_of w vm);
  _ ← create_directories_if_necessary w data_dir;
  mret tt.

(** *** Parse config file if it exists (lines 136-152) *)

(** Lines 138-144: where the configuration file is looked for. *)
Definition config_path_of (w : world) (vm : po.variables_map)
  : result bf.path :=
  data_dir_path ← data_dir_of w vm;
  config_file ← get_arg_string vm arg_config_file;
  let config_path := bf.of_string config_file in
  mret (if bf.is_relative config_path then data_dir_path // config_path
        else config_path).

Definition main_parse_config_file (w : world) (vm : po.variables_map)
  : M po.variables_map :=
  config_path ← lift (config_path_of w vm);
  found ← fs_exists w config_path;
  vm ← (if (found : bool) then
          lift (lines ← read_file w config_path;
                opts ← po.parse_config_file lines (core_settings w);
                po.store (core_settings w) opts vm)
        else mret vm);
  (* po::notify(vm): the options of main.cpp are neither required nor
     notified, so nothing happens here *)
  mret vm.

(** *** If there are positional options, we're running a daemon command
        (lines 154-184) *)

Definition main_daemon_command (w : world) (vm : po.variables_map) : M unit :=
  if arg_present vm arg_command then
    command ← lift (get_arg_strings vm arg_command);
    rpc_ip_str ← lift (get_arg_string vm (arg_rpc_bind_ip w));
    rpc_port_str ← lift (get_arg_string vm (arg_rpc_bind_port w));
    match get_ip_int32_from_string w rpc_ip_str with
    | None => cerr ("Invalid IP: " +:+ rpc_ip_str);; return_ 1
    | Some rpc_ip =>
        match get_xtype_from_string w rpc_port_str with
        | None => cerr ("Invalid port: " +:+ rpc_port_str);; return_ 1
        | Some rpc_port =>
            emit (EvCommandServer rpc_ip rpc_port);;
            emit (EvProcessCommandVec command);;
            if process_command_vec w rpc_ip rpc_port command then return_ 0
            else cerr "Unknown command";; return_ 1
        end
    end
  else mret tt.

(** *** Start with log level 0 (lines 186-187) *)

Definition main_start_log_level : M unit :=
  _ ← get_set_log_detalisation_level true LOG_LEVEL_0; mret tt.

(** *** Set log level (lines 189-201) *)

Definition main_set_log_level (vm : po.variables_map) : M unit :=
  new_log_level ← lift (get_arg_int vm arg_log_level);
  if (new_log_level <? LOG_LEVEL_MIN) || (new_log_level >? LOG_LEVEL_MAX) then
    LOG_PRINT_L0 ("Wrong log level value: " +:+ pretty new_log_level)
  else
    current ← get_set_log_detalisation_level false LOG_LEVEL_0;
    if negb (current =? new_log_level) then
      get_set_log_detalisation_level true new_log_level;;
      LOG_PRINT_L0 ("LOG_LEVEL set to " +:+ pretty new_log_level)
    else mret tt.

(** *** Set log file (lines 206-226) *)

Definition main_set_log_file (w : world) (vm : po.variables_map) : M unit :=
  data_dir ← lift (data_dir_of w vm);
  log_file ← lift (get_arg_string vm arg_log_file);
  let log_file_path := bf.of_string log_file in
  let log_file_path :=
    if bf.is_relative log_file_path then data_dir // log_file_path
    else log_file_path in
  (* Fall back to relative path for log file *)
  parent_exists ←
    (if bf.has_parent_path log_file_path
     then fs_exists w (bf.parent_path log_file_path) else mret false);
  let log_file_path :=
    if negb (bf.has_parent_path log_file_path) || negb parent_exists
    then bf.of_string (get_default_log_file w) else log_file_path in
  let log_dir :=
    if bf.has_parent_path log_file_path
    then bf.to_string (bf.parent_path log_file_path)
    else get_default_log_folder w in
  add_logger LOGGER_FILE (Some (bf.to_string (bf.filename log_file_path)))
             (Some log_dir).

(** *** Launch (lines 250-286) *)

Definition version_line : string :=
  CRYPTONOTE_NAME +:+ " v" +:+ PROJECT_VERSION_LONG.

Definition main_launch (w : world) (detach win_service : bool) : M unit :=
  if win_service then (* running as windows service *)
    if WIN32 then
      LOG_PRINT_L0 version_line;;
      emit (EvServiceRunner WINDOWS_SERVICE_NAME)
    else mret tt
  else if detach then
    if WIN32 then
      (* install windows service *)
      let arguments := get_argument_string (argv w) +:+ " --run-as-service" in
      install ← install_service w WINDOWS_SERVICE_NAME arguments;
      start ← (if install then start_service w WINDOWS_SERVICE_NAME
               else mret false);
      if install && negb start then
        _ ← uninstall_service WINDOWS_SERVICE_NAME; mret tt
      else mret tt
    else
      (* fork *)
      posix_fork w;;
      LOG_PRINT_L0 version_line;;
      emit EvDaemonRun
  else (* interactive *)
    LOG_PRINT_L0 version_line;;
    emit EvDaemonRun.

(** *** The sinks and the launch (lines 203-288) *)

Definition main_sinks_and_launch (w : world) (vm : po.variables_map) : M Z :=
  let detach := arg_present vm arg_detach in
  let win_service := arg_present vm arg_windows_service in
  main_set_log_file w vm;;
  when (negb detach && negb win_service)
       (add_logger LOGGER_CONSOLE None None);;
  main_launch w detach win_service;;
  mret 0.

(** *** What follows configuration resolution (lines 154-288) *)

Definition main_dispatch (w : world) (vm : po.variables_map) : M Z :=
  main_daemon_command w vm;;
  main_start_log_level;;
  main_set_log_level vm;;
  main_sinks_and_launch w vm.

(** *** Configuration resolution (lines 110-152) *)

Definition usage (w : world) : string :=
  "Usage: " +:+ hd "" (argv w) +:+ " [options|settings] [daemon_command...]".

Definition main_resolve (w : world) : M po.variables_map :=
  (* set_module_name_and_folder(argv[0]) feeds the log defaults, which the
     world carries *)
  parsed ← parse_options w (all_options w);
  match parsed with
  | None => return_ 1
  | Some vm =>
      help ← print_help (usage w) vm;
      if (help : bool) then return_ 0 else
      query ← query_system_info vm;
      if (query : bool) then return_ 0 else
      main_create_data_dir w vm;;
      main_parse_config_file w vm
  end.

(** The body of the [try] block. *)
Definition main_try (w : world) : M Z :=
  vm ← main_resolve w;
  main_dispatch w vm.

(** [main]: the exit code, the final state and the events.  An exception that reaches
    the handler is logged and turned into exit code 1. *)
Definition exit_of (r : outcome Z * state * list event)
  : Z * state * list event :=
  match r with
  | (Val code, s', evs) => (code, s', evs)
  | (Ret code, s', evs) => (code, s', evs)
  | (Exc what, s', evs) =>
      (1, s', evs ++ [EvLogError ("Exception in main! " +:+ what)])
  end.

Definition main (w : world) (s : state) : Z * state * list event :=
  exit_of (main_try w s).

End Daemon.

(** ** Vocabulary of the properties

    The predicates and the abbreviations the statements below are written
    with; nothing here is part of the program. *)

Section Vocabulary.

Context {macros : Macros} {boost : bf.library}.

(** The keys a map holds explicitly: present and not defaulted. *)
Definition explicit (m : gmap string po.variable_value) (k : string) : Prop :=
  exists v, m !! k = Some v /\ po.vv_defaulted v = false.

(** The invariant of a variables map: its final keys are explicit. *)
Definition final_explicit (vm : po.variables_map) : Prop :=
  forall k, k ∈ po.vm_final vm -> explicit (po.vm_values vm) k.

Definition has_type (sem : po.value_semantic) (a : po.any) : Prop :=
  match sem, a with
  | po.sem_string, po.any_string _ => True
  | po.sem_int, po.any_int _ => True
  | po.sem_bool_switch, po.any_bool _ => True
  | po.sem_strings, po.any_strings _ => True
  | _, _ => False
  end.

Definition typed_at (sem : po.value_semantic)
    (m : gmap string po.variable_value) (k : string) : Prop :=
  forall v, m !! k = Some v -> has_type sem (po.vv_value v).

(** [emits P m]: every event [m] causes satisfies [P]. *)
Definition emits {A} (P : event -> Prop) (m : M A) : Prop :=
  forall s o s' evs, m s = (o, s', evs) -> Forall P evs.

(** A quiet event: no forwarding, no log set-up, no daemonization. *)
Definition quiet (e : event) : Prop :=
  is_forwarding e = false /\ is_logging_init e = false /\
  is_daemonization e = false.

Definition not_forwarding (e : event) : Prop := is_forwarding e = false.

Definition log_file_option : po.option_description :=
  {| po.od_name := "log-file"; po.od_semantic := po.sem_string;
     po.od_default := Some (po.any_string (CRYPTONOTE_NAME +:+ ".log")) |}.

Definition log_level_option : po.option_description :=
  {| po.od_name := "log-level"; po.od_semantic := po.sem_int;
     po.od_default := Some (po.any_int LOG_LEVEL_0) |}.

Definition data_dir_option (w : world) : po.option_description :=
  {| po.od_name := "data-dir"; po.od_semantic := po.sem_string;
     po.od_default :=
       Some (po.any_string (bf.to_string
         (bf.absolute (current_path w) (bf.of_string (get_default_data_dir w))))) |}.

(** [preserves f m]: [m] ends, however it ends, in a state with the same
    [f] as the state it started in. *)
Definition preserves {A X} (f : state -> X) (m : M A) : Prop :=
  forall s o s' evs, m s = (o, s', evs) -> f s' = f s.

Definition out_of_range (n : Z) : Prop := n < LOG_LEVEL_MIN \/ LOG_LEVEL_MAX < n.

Definition wrong_level_warning (n : Z) : event :=
  EvLogPrintL0 ("Wrong log level value: " +:+ pretty n).

(** The configured path, made absolute against the data directory. *)
Definition candidate_log_path (d : bf.path) (f : string) : bf.path :=
  let p := bf.of_string f in if bf.is_relative p then d // p else p.

Definition parent_usable (w : world) (s : state) (p : bf.path) : bool :=
  bf.has_parent_path p && path_exists w s (bf.parent_path p).

Definition default_log_path (w : world) : bf.path :=
  bf.of_string (get_default_log_file w).

Definition chosen_log_path (w : world) (s : state) (d : bf.path) (f : string)
  : bf.path :=
  let p := candidate_log_path d f in
  if parent_usable w s p then p else default_log_path w.

Definition log_dir_of (w : world) (p : bf.path) : string :=
  if bf.has_parent_path p then bf.to_string (bf.parent_path p)
  else get_default_log_folder w.

Definition file_sink (w : world) (p : bf.path)
  : logger_type * option string * option string :=
  (LOGGER_FILE, Some (bf.to_string (bf.filename p)), Some (log_dir_of w p)).

Definition file_sink_event (w : world) (p : bf.path) : event :=
  EvAddLogger LOGGER_FILE (Some (bf.to_string (bf.filename p)))
              (Some (log_dir_of w p)).

(** The folder the sink for [p] is attached with exists. *)
Definition sink_dir_exists (w : world) (s : state) (p : bf.path) : bool :=
  path_exists w s (bf.of_string (log_dir_of w p)).

Definition console_sink : logger_type * option string * option string :=
  (LOGGER_CONSOLE, None, None).

Definition console_event : event := EvAddLogger LOGGER_CONSOLE None None.

(** Attached: neither detached nor running as a service. *)
Definition attached (vm : po.variables_map) : bool :=
  negb (arg_present vm arg_detach) && negb (arg_present vm arg_windows_service).

Definition is_add_logger (e : event) : bool :=
  match e with
  | EvAddLogger _ _ _ => true
  | _ => false
  end.

(** The state in which the launch starts, from the state after the log
    level was set. *)
Definition with_sinks (w : world) (vm : po.variables_map) (d : bf.path)
    (f : string) (s : state) : state :=
  let s3 := set_loggers (loggers s ++ [file_sink w (chosen_log_path w s d f)]) s in
  if attached vm then set_loggers (loggers s3 ++ [console_sink]) s3 else s3.

Definition sink_events (w : world) (vm : po.variables_map) (d : bf.path)
    (f : string) (s : state) : list event :=
  file_sink_event w (chosen_log_path w s d f) ::
  (if attached vm then [console_event] else []).

Definition service_arguments (w : world) : string :=
  get_argument_string (argv w) +:+ " --run-as-service".

(** The positional tokens of the resolved configuration. *)
Definition command_tokens (vm : po.variables_map) : list string :=
  match get_arg_strings vm arg_command with
  | Ok l => l
  | Error _ => []
  end.

Definition no_launch (e : event) : Prop :=
  is_logging_init e = false /\ is_daemonization e = false.

(** How [main_dispatch] ends when its first statement does not fall
    through. *)
Definition ends_as (o : outcome unit) : outcome Z :=
  match o with
  | Val _ => Val 0
  | Ret c => Ret c
  | Exc e => Exc e
  end.

Definition scalar (sem : po.value_semantic) : Prop := sem ≠ po.sem_strings.

(** What [store] reads as the current value of a key. *)
Definition current (m : gmap string po.variable_value) (k : string)
  : option po.any :=
  match m !! k with
  | Some v => if po.vv_defaulted v then None else Some (po.vv_value v)
  | None => None
  end.

Definition help_option : po.option_description :=
  {| po.od_name := "help"; po.od_semantic := po.sem_bool_switch;
     po.od_default := Some (po.any_bool false) |}.

Definition version_option : po.option_description :=
  {| po.od_name := "version"; po.od_semantic := po.sem_bool_switch;
     po.od_default := Some (po.any_bool false) |}.

Definition os_version_option : po.option_description :=
  {| po.od_name := "os-version"; po.od_semantic := po.sem_bool_switch;
     po.od_default := Some (po.any_bool false) |}.

(** A flag as the command-line parser hands it over: the key, no token. *)
Definition flag (key : string) : po.basic_option :=
  {| po.string_key := key; po.value := [] |}.

Definition in_range (n : Z) : Prop := LOG_LEVEL_MIN <= n <= LOG_LEVEL_MAX.

Definition level_set_message (n : Z) : event :=
  EvLogPrintL0 ("LOG_LEVEL set to " +:+ pretty n).

(** What the log-level block emits for an accepted request [n] when the
    level is [LOG_LEVEL_0]. *)
Definition level_events (n : Z) : list event :=
  if LOG_LEVEL_0 =? n then [] else [EvSetLogLevel n; level_set_message n].

Definition is_service_manager (e : event) : bool :=
  match e with
  | EvServiceRunner _ | EvInstallService _ _ | EvStartService _
  | EvUninstallService _ => true
  | _ => false
  end.

Definition is_error_report (e : event) : bool :=
  match e with
  | EvCerr _ | EvLogError _ => true
  | _ => false
  end.

Definition is_log_error (e : event) : bool :=
  match e with
  | EvLogError _ => true
  | _ => false
  end.

(** The events of detaching on Windows, after the install request. *)
Definition rollback_events (installed started : bool) : list event :=
  if installed then
    EvStartService WINDOWS_SERVICE_NAME ::
    (if started then [] else [EvUninstallService WINDOWS_SERVICE_NAME])
  else [].

(** What [main] does after the fork, by what the fork returned. *)
Definition after_fork (w : world) : Z * list event :=
  match fork_outcome w with
  | ForkParent => (0, [EvFork])
  | ForkChild => (0, [EvFork; EvLogPrintL0 version_line; EvDaemonRun])
  | ForkFailed => (1, [EvFork; EvLogError "Exception in main! fork failed"])
  end.

(** [exits_well m]: when [m] ends the process, the code is 0, or it is 1
    and the last thing [m] did was to write to the error stream. *)
Definition exits_well {A} (m : M A) : Prop :=
  forall s o s' evs c,
    m s = (o, s', evs) -> o = Ret c ->
    c = 0 \/ (c = 1 /\ exists l msg, evs = l ++ [EvCerr msg]).

(** [ends_in_zero m]: the value [m] falls through with is 0. *)
Definition ends_in_zero (m : M Z) : Prop :=
  forall s a s' evs, m s = (Val a, s', evs) -> a = 0.

Definition is_fork (e : event) : bool :=
  match e with
  | EvFork => true
  | _ => false
  end.

Definition is_daemon_run (e : event) : bool :=
  match e with
  | EvDaemonRun => true
  | _ => false
  end.

(** Neither the daemon itself, nor the service manager, nor a forwarded
    command. *)
Definition prepares (e : event) : Prop :=
  is_daemon_run e = false /\ is_service_manager e = false /\
  is_forwarding e = false.

End Vocabulary.

(** ** Scenarios

    Concrete surroundings on which [main] can be run: the macros as epee and
    the build define them, a small filesystem, and decimal parsers for the
    control-channel address. *)

Module scenario.

Definition build (windows : bool) : Macros :=
  {| WIN32 := windows;
     LOG_LEVEL_0 := 0;
     LOG_LEVEL_MIN := -1;
     LOG_LEVEL_MAX := 4;
     CRYPTONOTE_NAME := "bitmonero";
     PROJECT_VERSION_LONG := "0.8.8.6" |}.

Definition posix : Macros := build false.
Definition windows : Macros := build true.

(** *** The path library and the file system of the scenarios

    Pathnames as a POSIX build of the library takes them apart: a leading
    separator is the root directory, the names are what the separators
    delimit, and a trailing separator ends the path in the name ["."]. *)

Definition rooted (p : bf.path) : bool :=
  match bf.to_string p with
  | String "/" _ => true
  | _ => false
  end.

Definition ends_in_separator (s : string) : bool :=
  bool_decide (List.last (str.split "/" s) "-" = "").

Definition names (p : bf.path) : list string :=
  let l := filter (fun e => e ≠ "") (str.split "/" (bf.to_string p)) in
  if bool_decide (l ≠ []) && ends_in_separator (bf.to_string p)
  then l ++ ["."] else l.

Definition join (root : bool) (l : list string) : bf.path :=
  bf.of_string ((if root then "/" else "") +:+ String.concat "/" l).

Definition slash (p q : bf.path) : bf.path :=
  if bool_decide (bf.to_string q = "") then p
  else if bool_decide (bf.to_string p = "") then q
  else bf.of_string
         (bf.to_string p +:+
          (if ends_in_separator (bf.to_string p) then "" else "/") +:+
          bf.to_string q).

Definition paths : bf.library :=
  {| bf.is_relative p := negb (rooted p);
     bf.append := slash;
     bf.absolute base p := if rooted p then p else slash base p;
     bf.has_parent_path p :=
       match names p with
       | [] => false
       | [_] => rooted p
       | _ => true
       end;
     bf.parent_path p := join (rooted p) (removelast (names p));
     bf.filename p :=
       match names p with
       | [] => join (rooted p) []
       | l => bf.of_string (List.last l "")
       end |}.

#[local] Existing Instance paths.

(** The names of a path with [.] dropped and [..] followed; there are no
    links. *)
Fixpoint resolve (seen l : list string) : list string :=
  match l with
  | [] => seen
  | n :: l' =>
      if bool_decide (n = ".") then resolve seen l'
      else if bool_decide (n = "..") then resolve (removelast seen) l'
      else resolve (seen ++ [n]) l'
  end.

Definition normal (p : bf.path) : bf.path :=
  join (rooted p) (resolve [] (names p)).

Definition above (p : bf.path) : list bf.path :=
  map (fun n => join (rooted p) (take n (names p)))
      (seq (if rooted p then 0 else 1) (length (names p) - (if rooted p then 0 else 1)))%nat.

Definition port_of_string (s : string) : option Z :=
  z ← str.decimal s; if z <? 65536 then Some z else None.

Definition octet (s : string) : option Z :=
  z ← str.decimal s; if z <? 256 then Some z else None.

Definition ip_of_string (s : string) : option Z :=
  match str.split "." s with
  | [a; b; c; d] =>
      a ← octet a; b ← octet b; c ← octet c; d ← octet d;
      Some (((a * 256 + b) * 256 + c) * 256 + d)
  | _ => None
  end.

Definition rpc_bind_ip : arg_descriptor :=
  {| name := "rpc-bind-ip"; description := "IP for RPC server";
     semantic := po.sem_string;
     default_value := Some (po.any_string "127.0.0.1") |}.
Definition rpc_bind_port : arg_descriptor :=
  {| name := "rpc-bind-port"; description := "Port for RPC server";
     semantic := po.sem_string;
     default_value := Some (po.any_string "18081") |}.

Definition daemon_options : po.options_description :=
  [ {| po.od_name := "rpc-bind-ip"; po.od_semantic := po.sem_string;
       po.od_default := Some (po.any_string "127.0.0.1") |};
    {| po.od_name := "rpc-bind-port"; po.od_semantic := po.sem_string;
       po.od_default := Some (po.any_string "18081") |} ].

Definition home : bf.path := bf.of_string "/home/user".
Definition data_dir : bf.path := bf.of_string "/home/user/.bitmonero".

(** A machine with a home directory, the data directory and the folder of
    the executable; no configuration file; a log level left from before. *)
Definition boot : state :=
  {| log_detalisation_level := 2;
     loggers := [];
     directories := [bf.of_string "/"; bf.of_string "/home"; home; data_dir;
                     bf.of_string "/usr"; bf.of_string "/usr/bin"];
     services := ∅ |}.

Definition with_args (args : list string) (opts : list po.basic_option)
    (conf : option (list (string * string))) : world :=
  {| argv := "/usr/bin/bitmonerod" :: args;
     parsed_argv := Ok opts;
     current_path := home;
     canonical := normal;
     ancestors := above;
     files := match conf with
              | Some lines => [(data_dir // bf.of_string "bitmonero.conf", lines)]
              | None => []
              end;
     can_create_directories := true;
     get_default_data_dir := "/home/user/.bitmonero";
     t_daemon_init_options := daemon_options;
     arg_rpc_bind_ip := rpc_bind_ip;
     arg_rpc_bind_port := rpc_bind_port;
     get_ip_int32_from_string := ip_of_string;
     get_xtype_from_string := port_of_string;
     process_command_vec := fun _ _ command => bool_decide (command = ["status"]);
     get_default_log_file := "bitmonerod.log";
     get_default_log_folder := "/usr/bin";
     install_service_accepted := true;
     start_service_accepted := true;
     fork_outcome := ForkChild |}.

Definition opt (key : string) (tokens : list string) : po.basic_option :=
  {| po.string_key := key; po.value := tokens |}.

Definition failing_start (w : world) : world :=
  {| argv := argv w;
     parsed_argv := parsed_argv w;
     current_path := current_path w;
     canonical := canonical w;
     ancestors := ancestors w;
     files := files w;
     can_create_directories := can_create_directories w;
     get_default_data_dir := get_default_data_dir w;
     t_daemon_init_options := t_daemon_init_options w;
     arg_rpc_bind_ip := arg_rpc_bind_ip w;
     arg_rpc_bind_port := arg_rpc_bind_port w;
     get_ip_int32_from_string := get_ip_int32_from_string w;
     get_xtype_from_string := get_xtype_from_string w;
     process_command_vec := process_command_vec w;
     get_default_log_file := get_default_log_file w;
     get_default_log_folder := get_default_log_folder w;
     install_service_accepted := install_service_accepted w;
     start_service_accepted := false;
     fork_outcome := fork_outcome w |}.

(** The log file both on the command line and in the configuration file. *)
Definition both_set : world :=
  with_args ["--log-file"; "b.log"] [opt "log-file" ["b.log"]]
            (Some [("log-file", "a.log")]).

(** A log level above the maximum. *)
Definition level_5 : world :=
  with_args ["--log-level"; "5"] [opt "log-level" ["5"]] None.

(** A daemon command for the running instance. *)
Definition status : world :=
  with_args ["status"] [opt "daemon_command" ["status"]] None.

(** The same command with a bind address that is no dotted quad. *)
Definition bad_ip : world :=
  with_args ["status"; "--rpc-bind-ip"; "localhost"]
            [opt "daemon_command" ["status"]; opt "rpc-bind-ip" ["localhost"]]
            None.

(** Detaching, and detaching when the service does not start. *)
Definition detach : world := with_args ["--detach"] [opt "detach" []] None.
Definition detach_start_fails : world := failing_start detach.

(** A configured log file in a folder that does not exist. *)
Definition stray_log_file : world :=
  with_args [] [] (Some [("log-file", "/nonexistent/a.log")]).

(** A configuration file that sets the data directory. *)
Definition data_dir_in_config : world :=
  with_args [] [] (Some [("data-dir", "/tmp")]).

(** A resolved configuration that holds nothing but a requested level. *)
Definition level_request (n : Z) : po.variables_map :=
  {| po.vm_values :=
       {["log-level" := {| po.vv_value := po.any_int n;
                           po.vv_defaulted := false |}]};
     po.vm_final := {["log-level"]} |}.

(** The same machine when the fork answers otherwise. *)
Definition with_fork (o : fork_result) (w : world) : world :=
  {| argv := argv w;
     parsed_argv := parsed_argv w;
     current_path := current_path w;
     canonical := canonical w;
     ancestors := ancestors w;
     files := files w;
     can_create_directories := can_create_directories w;
     get_default_data_dir := get_default_data_dir w;
     t_daemon_init_options := t_daemon_init_options w;
     arg_rpc_bind_ip := arg_rpc_bind_ip w;
     arg_rpc_bind_port := arg_rpc_bind_port w;
     get_ip_int32_from_string := get_ip_int32_from_string w;
     get_xtype_from_string := get_xtype_from_string w;
     process_command_vec := process_command_vec w;
     get_default_log_file := get_default_log_file w;
     get_default_log_folder := get_default_log_folder w;
     install_service_accepted := install_service_accepted w;
     start_service_accepted := start_service_accepted w;
     fork_outcome := o |}.

(** Asking for help next to a log level, with a configuration file that
    holds a key nobody registered. *)
Definition help_and_more : world :=
  with_args ["--help"; "--log-level"; "3"]
            [opt "help" []; opt "log-level" ["3"]]
            (Some [("no-such-key", "1")]).

(** A log level that is no number. *)
Definition level_high : world :=
  with_args ["--log-level"; "high"] [opt "log-level" ["high"]] None.

(** The log file given twice. *)
Definition log_file_twice : world :=
  with_args ["--log-file"; "a.log"; "--log-file"; "b.log"]
            [opt "log-file" ["a.log"]; opt "log-file" ["b.log"]] None.

(** A log level within the range, on the command line and in the
    configuration file. *)
Definition level_3 : world :=
  with_args ["--log-level"; "3"] [opt "log-level" ["3"]] None.
Definition level_3_in_config : world :=
  with_args [] [] (Some [("log-level", "3")]).

(** The relaunch by the service manager. *)
Definition as_service : world :=
  with_args ["--detach"; "--run-as-service"]
            [opt "detach" []; opt "run-as-service" []] None.

(** Detaching in the parent of the fork. *)
Definition detach_parent : world := with_fork ForkParent detach.

(** The same machine with another default log folder. *)
Definition with_log_folder (dir : string) (w : world) : world :=
  {| argv := argv w;
     parsed_argv := parsed_argv w;
     current_path := current_path w;
     canonical := canonical w;
     ancestors := ancestors w;
     files := files w;
     can_create_directories := can_create_directories w;
     get_default_data_dir := get_default_data_dir w;
     t_daemon_init_options := t_daemon_init_options w;
     arg_rpc_bind_ip := arg_rpc_bind_ip w;
     arg_rpc_bind_port := arg_rpc_bind_port w;
     get_ip_int32_from_string := get_ip_int32_from_string w;
     get_xtype_from_string := get_xtype_from_string w;
     process_command_vec := process_command_vec w;
     get_default_log_file := get_default_log_file w;
     get_default_log_folder := dir;
     install_service_accepted := install_service_accepted w;
     start_service_accepted := start_service_accepted w;
     fork_outcome := fork_outcome w |}.

(** The log file on the command line and in the configuration file, which
    also sets the log level. *)
Definition argv_over_file : world :=
  with_args ["--log-file"; "b.log"] [opt "log-file" ["b.log"]]
            (Some [("log-file", "a.log"); ("log-level", "3")]).

(** The data directory on the command line and in the configuration
    file. *)
Definition data_dir_twice : world :=
  with_args ["--data-dir"; "/home/user/.bitmonero"]
            [opt "data-dir" ["/home/user/.bitmonero"]]
            (Some [("data-dir", "/tmp")]).

(** A log file next to the data directory, written with a dot. *)
Definition dot_log_file : world :=
  with_args ["--log-file"; "./a.log"] [opt "log-file" ["./a.log"]] None.

(** A configured log file in a folder that does not exist, on a machine
    whose default log folder has not been created. *)
Definition stray_unchecked : world :=
  with_log_folder "/var/log/bitmonero" stray_log_file.

End scenario.

(** * Properties *)

(** ** The option library: what [store] keeps and what it adds *)

Lemma result_bind_Ok {A B} (r : result A) (f : A -> result B) (b : B) :
  r ≫= f = Ok b -> exists a, r = Ok a /\ f a = Ok b.
Proof. destruct r as [a|e]; simpl; [eauto | discriminate]. Qed.

Lemma string_eqb_false (a b : string) : a ≠ b -> String.eqb a b = false.
Proof. intros Hne. apply String.eqb_neq. exact Hne. Qed.

(** A key that is final on entry keeps what the map holds for it. *)
Lemma store_options_final_unchanged desc opts fin k :
  k ∈ fin ->
  forall newly m m' newly',
  po.store_options desc opts fin newly m = Ok (m', newly') ->
  m' !! k = m !! k.
Proof.
  intros Hk. induction opts as [|o rest IH]; intros newly m m' newly' Hs.
  - simpl in Hs. by inversion Hs.
  - simpl in Hs.
    destruct (String.eqb (po.string_key o) "") eqn:Hempty; [by eapply IH|].
    case_bool_decide as Hfin; [by eapply IH|].
    destruct (po.find desc (po.string_key o)) as [d|]; [|discriminate].
    apply result_bind_Ok in Hs as (a & _ & Hs).
    apply IH in Hs. rewrite Hs. apply lookup_insert_ne.
    intros Heq. subst k. contradiction.
Qed.

(** Defaults never replace what the map holds. *)
Lemma apply_defaults_lookup_Some all k v :
  forall m : gmap string po.variable_value,
  m !! k = Some v -> po.apply_defaults all m !! k = Some v.
Proof.
  induction all as [|d rest IH]; intros m Hm; [exact Hm|].
  simpl. apply IH.
  destruct (m !! po.od_name d) eqn:Hd; [exact Hm|].
  destruct (po.od_default d); [|exact Hm].
  rewrite lookup_insert_ne; [exact Hm|]. intros Heq. subst k. congruence.
Qed.

Lemma store_options_newly_mono desc opts fin :
  forall newly m m' newly',
  po.store_options desc opts fin newly m = Ok (m', newly') ->
  newly ⊆ newly'.
Proof.
  induction opts as [|o rest IH]; intros newly m m' newly' Hs.
  - simpl in Hs. by inversion Hs.
  - simpl in Hs.
    destruct (String.eqb (po.string_key o) ""); [by eapply IH|].
    case_bool_decide; [by eapply IH|].
    destruct (po.find desc (po.string_key o)); [|discriminate].
    apply result_bind_Ok in Hs as (a & _ & Hs).
    apply IH in Hs. set_solver.
Qed.

(** Every named option that is not final on entry is assigned by the call,
    and what the call assigns is explicit in the resulting map. *)
Lemma store_options_assigns desc opts fin :
  forall newly m m' newly',
  po.store_options desc opts fin newly m = Ok (m', newly') ->
  (forall k, k ∈ newly -> explicit m k) ->
  (forall k, k ∈ newly' -> explicit m' k) /\
  (forall k, k ∈ po.string_key <$> opts -> k ≠ "" -> k ∉ fin -> k ∈ newly').
Proof.
  induction opts as [|o rest IH]; intros newly m m' newly' Hs Hinv.
  - simpl in Hs. inversion Hs; subst. split; [exact Hinv|].
    intros k Hk. by apply elem_of_nil in Hk.
  - simpl in Hs.
    destruct (String.eqb (po.string_key o) "") eqn:Hempty.
    { apply String.eqb_eq in Hempty.
      destruct (IH _ _ _ _ Hs Hinv) as [H1 H2]. split; [exact H1|].
      intros k Hk Hne Hnf. rewrite fmap_cons in Hk.
      apply elem_of_cons in Hk as [->|Hk]; [congruence|by apply H2]. }
    case_bool_decide as Hfin.
    { destruct (IH _ _ _ _ Hs Hinv) as [H1 H2]. split; [exact H1|].
      intros k Hk Hne Hnf. rewrite fmap_cons in Hk.
      apply elem_of_cons in Hk as [->|Hk]; [contradiction|by apply H2]. }
    destruct (po.find desc (po.string_key o)) as [d|]; [|discriminate].
    apply result_bind_Ok in Hs as (a & _ & Hs).
    pose proof (store_options_newly_mono _ _ _ _ _ _ _ Hs) as Hsub.
    destruct (IH _ _ _ _ Hs) as [H1 H2].
    { intros k Hk. destruct (decide (k = po.string_key o)) as [->|Hne].
      - eexists. rewrite lookup_insert_eq. split; reflexivity.
      - apply elem_of_union in Hk as [Hk|Hk]; [set_solver|].
        destruct (Hinv k Hk) as (v & Hv & Hd).
        exists v. by rewrite lookup_insert_ne. }
    split; [exact H1|].
    intros k Hk Hne Hnf. rewrite fmap_cons in Hk.
    apply elem_of_cons in Hk as [->|Hk]; [|by apply H2].
    apply Hsub, elem_of_union_l, elem_of_singleton. reflexivity.
Qed.

Lemma empty_map_final_explicit : final_explicit po.empty_map.
Proof. intros k Hk. simpl in Hk. set_solver. Qed.

Lemma store_inv desc opts vm vm' :
  po.store desc opts vm = Ok vm' ->
  exists m newly,
    po.store_options desc opts (po.vm_final vm) ∅ (po.vm_values vm) = Ok (m, newly) /\
    vm' = {| po.vm_values := po.apply_defaults desc m;
             po.vm_final := po.vm_final vm ∪ newly |}.
Proof.
  unfold po.store. intros Hs.
  apply result_bind_Ok in Hs as ([m newly] & Hso & Hs).
  inversion Hs; subst. eauto.
Qed.

(** [store] keeps every value that was final before the call. *)
Lemma store_keeps_final desc opts vm vm' k :
  final_explicit vm ->
  po.store desc opts vm = Ok vm' ->
  k ∈ po.vm_final vm ->
  po.vm_values vm' !! k = po.vm_values vm !! k.
Proof.
  intros Hinv Hs Hk.
  apply store_inv in Hs as (m & newly & Hso & ->). simpl.
  destruct (Hinv k Hk) as (v & Hv & _). rewrite Hv.
  apply apply_defaults_lookup_Some.
  by rewrite (store_options_final_unchanged _ _ _ _ Hk _ _ _ _ Hso).
Qed.

(** After [store], the named options of the source are final, and the
    invariant holds again. *)
Lemma store_makes_final desc opts vm vm' :
  final_explicit vm ->
  po.store desc opts vm = Ok vm' ->
  final_explicit vm' /\
  (forall k, k ∈ po.string_key <$> opts -> k ≠ "" -> k ∈ po.vm_final vm').
Proof.
  intros Hinv Hs.
  assert (Hkeep : forall k, k ∈ po.vm_final vm ->
            po.vm_values vm' !! k = po.vm_values vm !! k)
    by (intros k Hk; by eapply store_keeps_final).
  apply store_inv in Hs as (m & newly & Hso & ->). simpl in *.
  destruct (store_options_assigns _ _ _ _ _ _ _ Hso) as [H1 H2]; [set_solver|].
  split.
  - intros k Hk. simpl in Hk.
    destruct (decide (k ∈ po.vm_final vm)) as [Hf|Hnf].
    + destruct (Hinv k Hf) as (v & Hv & Hd). exists v.
      split; [|exact Hd]. simpl. specialize (Hkeep k Hf). congruence.
    + apply elem_of_union in Hk as [Hk|Hk]; [contradiction|].
      destruct (H1 k Hk) as (v & Hv & Hd). exists v. split; [|exact Hd].
      simpl. by apply apply_defaults_lookup_Some.
  - intros k Hk Hne.
    destruct (decide (k ∈ po.vm_final vm)) as [Hf|Hnf];
      [by apply elem_of_union_l|].
    apply elem_of_union_r. by apply H2.
Qed.

(** *** Types of the stored values *)

Lemma parse_has_type sem cur tokens a :
  po.parse sem cur tokens = Ok a -> has_type sem a.
Proof.
  destruct sem; simpl; intros Hp.
  - apply result_bind_Ok in Hp as (_ & _ & Hp).
    apply result_bind_Ok in Hp as (s & _ & Hp). by inversion Hp.
  - apply result_bind_Ok in Hp as (_ & _ & Hp).
    apply result_bind_Ok in Hp as (s & _ & Hp).
    destruct (str.lexical_cast_int s); by inversion Hp.
  - apply result_bind_Ok in Hp as (_ & _ & Hp).
    apply result_bind_Ok in Hp as (s & _ & Hp).
    repeat case_bool_decide; by inversion Hp.
  - destruct cur as [[]|]; by inversion Hp.
Qed.

Lemma store_options_typed desc opts fin k d :
  po.find desc k = Some d ->
  forall newly m m' newly',
  po.store_options desc opts fin newly m = Ok (m', newly') ->
  typed_at (po.od_semantic d) m k -> typed_at (po.od_semantic d) m' k.
Proof.
  intros Hd. induction opts as [|o rest IH]; intros newly m m' newly' Hs Ht.
  - simpl in Hs. by inversion Hs; subst.
  - simpl in Hs.
    destruct (String.eqb (po.string_key o) ""); [by eapply IH|].
    case_bool_decide; [by eapply IH|].
    destruct (po.find desc (po.string_key o)) as [d'|] eqn:Hd'; [|discriminate].
    apply result_bind_Ok in Hs as (a & Ha & Hs).
    eapply IH; [exact Hs|].
    intros v Hv. destruct (decide (po.string_key o = k)) as [Heq|Hne].
    + subst k. rewrite lookup_insert_eq in Hv. inversion Hv; subst; simpl.
      rewrite Hd in Hd'. inversion Hd'; subst. by eapply parse_has_type.
    + rewrite lookup_insert_ne in Hv by exact Hne. by apply Ht.
Qed.

Lemma store_options_unregistered desc opts fin k :
  po.find desc k = None ->
  forall newly m m' newly',
  po.store_options desc opts fin newly m = Ok (m', newly') ->
  m' !! k = m !! k.
Proof.
  intros Hd. induction opts as [|o rest IH]; intros newly m m' newly' Hs.
  - simpl in Hs. by inversion Hs.
  - simpl in Hs.
    destruct (String.eqb (po.string_key o) ""); [by eapply IH|].
    case_bool_decide; [by eapply IH|].
    destruct (po.find desc (po.string_key o)) as [d'|] eqn:Hd'; [|discriminate].
    apply result_bind_Ok in Hs as (a & Ha & Hs).
    apply IH in Hs. rewrite Hs. apply lookup_insert_ne.
    intros Heq. subst k. congruence.
Qed.

(** The first description of a name decides its default. *)
Lemma apply_defaults_first all k d a :
  po.find all k = Some d -> po.od_default d = Some a ->
  forall m : gmap string po.variable_value,
  po.apply_defaults all m !! k =
    match m !! k with
    | Some v => Some v
    | None => Some {| po.vv_value := a; po.vv_defaulted := true |}
    end.
Proof.
  induction all as [|d0 rest IH]; intros Hf Ha m; [discriminate|].
  unfold po.find in Hf. simpl in Hf. simpl.
  destruct (String.eqb (po.od_name d0) k) eqn:Heq.
  - apply String.eqb_eq in Heq. inversion Hf; subst d0. subst k.
    rewrite Ha. destruct (m !! po.od_name d) eqn:Hm.
    + by apply apply_defaults_lookup_Some.
    + apply apply_defaults_lookup_Some. apply lookup_insert_eq.
  - apply String.eqb_neq in Heq. rewrite (IH Hf Ha).
    destruct (m !! po.od_name d0); [reflexivity|].
    destruct (po.od_default d0); [|reflexivity].
    by rewrite lookup_insert_ne.
Qed.

Lemma apply_defaults_unregistered all k :
  po.find all k = None ->
  forall m : gmap string po.variable_value,
  po.apply_defaults all m !! k = m !! k.
Proof.
  induction all as [|d0 rest IH]; intros Hf m; [reflexivity|].
  unfold po.find in Hf. simpl in Hf. simpl.
  destruct (String.eqb (po.od_name d0) k) eqn:Heq; [discriminate|].
  apply String.eqb_neq in Heq. rewrite (IH Hf).
  destruct (m !! po.od_name d0); [reflexivity|].
  destruct (po.od_default d0); [|reflexivity].
  by rewrite lookup_insert_ne.
Qed.

(** A registered option with a well-typed default has a well-typed value
    after [store], whatever the source held. *)
Lemma store_typed desc opts vm vm' k d a :
  po.find desc k = Some d -> po.od_default d = Some a ->
  has_type (po.od_semantic d) a ->
  po.store desc opts vm = Ok vm' ->
  typed_at (po.od_semantic d) (po.vm_values vm) k ->
  exists v, po.vm_values vm' !! k = Some v /\
            has_type (po.od_semantic d) (po.vv_value v).
Proof.
  intros Hd Ha Hta Hs Ht.
  apply store_inv in Hs as (m & newly & Hso & ->). simpl.
  pose proof (store_options_typed _ _ _ _ _ Hd _ _ _ _ Hso Ht) as Ht'.
  rewrite (apply_defaults_first _ _ _ _ Hd Ha).
  destruct (m !! k) as [v|] eqn:Hm; eauto.
Qed.

(** An option the description does not register is left as it was. *)
Lemma store_unregistered desc opts vm vm' k :
  po.find desc k = None ->
  po.store desc opts vm = Ok vm' ->
  po.vm_values vm' !! k = po.vm_values vm !! k.
Proof.
  intros Hd Hs.
  apply store_inv in Hs as (m & newly & Hso & ->). simpl.
  rewrite (apply_defaults_unregistered _ _ Hd).
  by eapply store_options_unregistered.
Qed.

(** A configuration file that parses names registered options only. *)
Lemma parse_config_file_registered lines desc opts :
  po.parse_config_file lines desc = Ok opts ->
  forall k v, (k, v) ∈ lines -> po.registered desc k = true.
Proof.
  revert opts. induction lines as [|[k0 v0] rest IH]; intros opts Hp k v Hin.
  - by apply elem_of_nil in Hin.
  - simpl in Hp. destruct (po.registered desc k0) eqn:Hr; [|discriminate].
    apply result_bind_Ok in Hp as (opts' & Hp' & _).
    apply elem_of_cons in Hin as [Heq|Hin]; [by inversion Heq; subst|].
    by eapply IH.
Qed.

Lemma parse_config_file_unregistered lines desc k v :
  (k, v) ∈ lines -> po.registered desc k = false ->
  po.parse_config_file lines desc = Error "unrecognised option".
Proof.
  intros Hin Hr. induction lines as [|[k0 v0] rest IH].
  - by apply elem_of_nil in Hin.
  - simpl. destruct (po.registered desc k0) eqn:Hr0; [|reflexivity].
    apply elem_of_cons in Hin as [Heq|Hin]; [inversion Heq; congruence|].
    by rewrite (IH Hin).
Qed.

(** ** The monad: running a sequence, and what a computation may emit *)

Lemma bind_run {A B} (m : M A) (f : A -> M B) s :
  (m ≫= f) s =
    match m s with
    | (Val a, s1, evs1) =>
        match f a s1 with
        | (o, s2, evs2) => (o, s2, evs1 ++ evs2)
        end
    | (Ret c, s1, evs1) => (Ret c, s1, evs1)
    | (Exc e, s1, evs1) => (Exc e, s1, evs1)
    end.
Proof. reflexivity. Qed.

Lemma bind_Val {A B} (m : M A) (f : A -> M B) s a s1 evs1 :
  m s = (Val a, s1, evs1) ->
  (m ≫= f) s = (let '(o, s2, evs2) := f a s1 in (o, s2, evs1 ++ evs2)).
Proof. intros Hm. rewrite bind_run, Hm. reflexivity. Qed.

Lemma bind_Val_inv {A B} (m : M A) (f : A -> M B) s b s' evs :
  (m ≫= f) s = (Val b, s', evs) ->
  exists a s1 evs1 evs2,
    m s = (Val a, s1, evs1) /\ f a s1 = (Val b, s', evs2) /\
    evs = evs1 ++ evs2.
Proof.
  rewrite bind_run. destruct (m s) as [[[a|c|e] s1] evs1]; try discriminate.
  destruct (f a s1) as [[o s2] evs2] eqn:Hf. intros Heq. inversion Heq; subst.
  by exists a, s1, evs1, evs2.
Qed.

Lemma lift_Val_inv {A} (r : result A) s a s' evs :
  lift r s = (Val a, s', evs) -> r = Ok a /\ s' = s /\ evs = [].
Proof. destruct r; simpl; intros Heq; by inversion Heq. Qed.

Lemma lift_Ok {A} (r : result A) a s : r = Ok a -> lift r s = (Val a, s, []).
Proof. by intros ->. Qed.

Section Emits.

Context {A B : Type} (P : event -> Prop).

Lemma emits_ret (a : A) : emits P (mret a).
Proof. intros s o s' evs Heq. inversion Heq. constructor. Qed.

Lemma emits_return (c : Z) : emits P (return_ (A:=A) c).
Proof. intros s o s' evs Heq. inversion Heq. constructor. Qed.

Lemma emits_throw (e : string) : emits P (throw (A:=A) e).
Proof. intros s o s' evs Heq. inversion Heq. constructor. Qed.

Lemma emits_lift (r : result A) : emits P (lift r).
Proof. destruct r; [apply emits_ret | apply emits_throw]. Qed.

Lemma emits_bind (m : M A) (f : A -> M B) :
  emits P m -> (forall a, emits P (f a)) -> emits P (m ≫= f).
Proof.
  intros Hm Hf s o s' evs. rewrite bind_run.
  destruct (m s) as [[[a|c|e] s1] evs1] eqn:Hms.
  - destruct (f a s1) as [[o2 s2] evs2] eqn:Hfs. intros Heq.
    inversion Heq; subst. apply Forall_app. split; [by eapply Hm|by eapply Hf].
  - intros Heq. inversion Heq; subst. by eapply Hm.
  - intros Heq. inversion Heq; subst. by eapply Hm.
Qed.

End Emits.

Lemma emits_emit (P : event -> Prop) e : P e -> emits P (emit e).
Proof. intros He s o s' evs Heq. inversion Heq. by repeat constructor. Qed.

Lemma emits_get_set_level (P : event -> Prop) b level :
  P (EvSetLogLevel level) -> emits P (get_set_log_detalisation_level b level).
Proof.
  intros He s o s' evs. unfold get_set_log_detalisation_level.
  destruct b; intros Heq; inversion Heq; by repeat constructor.
Qed.

Lemma emits_add_logger (P : event -> Prop) t file dir :
  P (EvAddLogger t file dir) -> emits P (add_logger t file dir).
Proof. intros He s o s' evs Heq. inversion Heq. by repeat constructor. Qed.

Lemma emits_fs_exists (P : event -> Prop) w p : emits P (fs_exists w p).
Proof. intros s o s' evs Heq. inversion Heq. constructor. Qed.

Lemma emits_create_directories (P : event -> Prop) w dir :
  P (EvCreateDirectories dir) -> emits P (create_directories_if_necessary w dir).
Proof.
  intros He s o s' evs. unfold create_directories_if_necessary.
  case_bool_decide; [|destruct (can_create_directories w)];
    intros Heq; inversion Heq; by repeat constructor.
Qed.

Lemma emits_install_service (P : event -> Prop) w name args :
  P (EvInstallService name args) -> emits P (install_service w name args).
Proof. intros He s o s' evs Heq. inversion Heq. by repeat constructor. Qed.

Lemma emits_start_service (P : event -> Prop) w name :
  P (EvStartService name) -> emits P (start_service w name).
Proof. intros He s o s' evs Heq. inversion Heq. by repeat constructor. Qed.

Lemma emits_uninstall_service (P : event -> Prop) name :
  P (EvUninstallService name) -> emits P (uninstall_service name).
Proof. intros He s o s' evs Heq. inversion Heq. by repeat constructor. Qed.

Lemma emits_posix_fork (P : event -> Prop) w : P EvFork -> emits P (posix_fork w).
Proof.
  intros He s o s' evs. unfold posix_fork.
  destruct (fork_outcome w); intros Heq; inversion Heq; by repeat constructor.
Qed.

(** Walks through a block of [main], one statement at a time. *)
Ltac emits_step :=
  first
    [ apply emits_bind; [|intros ?]
    | apply emits_ret
    | apply emits_return
    | apply emits_throw
    | apply emits_lift
    | apply emits_fs_exists
    | apply emits_emit; simpl
    | apply emits_get_set_level; simpl
    | apply emits_add_logger; simpl
    | apply emits_create_directories; simpl
    | apply emits_install_service; simpl
    | apply emits_start_service; simpl
    | apply emits_uninstall_service; simpl
    | apply emits_posix_fork; simpl
    | match goal with
      | |- emits _ (if ?b then _ else _) => destruct b
      | |- emits _ (match ?x with _ => _ end) => destruct x
      end ].

Ltac emits_block := repeat emits_step; try done.

(** ** What the parts of [main] emit *)

Section Blocks.

Context {macros : Macros} {boost : bf.library}.

(** Resolving the configuration forwards nothing, touches no log setting
    and launches nothing. *)
Lemma main_resolve_quiet w : emits quiet (main_resolve w).
Proof.
  unfold main_resolve, parse_options, print_help, query_system_info,
    main_create_data_dir, main_parse_config_file,
    cerr, quiet.
  emits_block.
Qed.

Lemma main_daemon_command_emits w vm :
  emits (fun e => is_logging_init e = false /\ is_daemonization e = false)
        (main_daemon_command w vm).
Proof.
  unfold main_daemon_command, cerr. emits_block.
Qed.

Lemma main_logging_and_launch_emits w vm :
  emits not_forwarding
    (main_start_log_level;; main_set_log_level vm;; main_sinks_and_launch w vm).
Proof.
  unfold main_start_log_level, main_set_log_level, main_sinks_and_launch,
    main_set_log_file, main_launch, when, LOG_PRINT_L0, not_forwarding.
  cbv zeta. emits_block.
Qed.

End Blocks.

(** ** Configuration resolution *)

Section Resolution.

Context {macros : Macros} {boost : bf.library}.

(** *** What the option registries hold *)

Lemma find_cons desc d k :
  po.find (d :: desc) k =
    if String.eqb (po.od_name d) k then Some d else po.find desc k.
Proof. reflexivity. Qed.

Lemma core_settings_eq w :
  core_settings w = log_file_option :: log_level_option :: t_daemon_init_options w.
Proof. reflexivity. Qed.

Lemma find_all_log_file w : po.find (all_options w) "log-file" = Some log_file_option.
Proof. unfold all_options. destruct WIN32; reflexivity. Qed.

Lemma find_all_log_level w : po.find (all_options w) "log-level" = Some log_level_option.
Proof. unfold all_options. destruct WIN32; reflexivity. Qed.

Lemma find_all_data_dir w : po.find (all_options w) "data-dir" = Some (data_dir_option w).
Proof. unfold all_options. destruct WIN32; reflexivity. Qed.

Lemma find_core_log_file w : po.find (core_settings w) "log-file" = Some log_file_option.
Proof. reflexivity. Qed.

Lemma find_core_log_level w : po.find (core_settings w) "log-level" = Some log_level_option.
Proof. reflexivity. Qed.

Lemma find_core_other w k :
  k ≠ "log-file" -> k ≠ "log-level" ->
  po.find (core_settings w) k = po.find (t_daemon_init_options w) k.
Proof.
  intros H1 H2. rewrite core_settings_eq, !find_cons.
  change (po.od_name log_file_option) with "log-file".
  change (po.od_name log_level_option) with "log-level".
  rewrite (string_eqb_false "log-file" k) by congruence.
  by rewrite (string_eqb_false "log-level" k) by congruence.
Qed.

Lemma registered_core_other w k :
  k ≠ "log-file" -> k ≠ "log-level" ->
  po.registered (core_settings w) k = po.registered (t_daemon_init_options w) k.
Proof. intros H1 H2. unfold po.registered. by rewrite find_core_other. Qed.

(** *** Inversion of the resolution steps *)

Lemma parse_options_inv w s vm s' evs :
  parse_options w (all_options w) s = (Val (Some vm), s', evs) ->
  exists opts, parsed_argv w = Ok opts /\
    po.store (all_options w) opts po.empty_map = Ok vm /\ s' = s /\ evs = [].
Proof.
  unfold parse_options. destruct (parsed_argv w) as [opts|e]; simpl.
  - destruct (po.store (all_options w) opts po.empty_map) as [vm0|e] eqn:Hs.
    + intros Heq. inversion Heq; subst. eauto.
    + intros Heq. inversion Heq.
  - intros Heq. inversion Heq.
Qed.

Lemma main_create_data_dir_inv w vm s o s' evs :
  main_create_data_dir w vm s = (o, s', evs) ->
  log_detalisation_level s' = log_detalisation_level s /\
  loggers s' = loggers s /\ services s' = services s.
Proof.
  unfold main_create_data_dir. rewrite bind_run.
  destruct (data_dir_of w vm) as [d|e]; simpl.
  - rewrite bind_run. unfold create_directories_if_necessary.
    case_bool_decide; [|destruct (can_create_directories w)];
      simpl; intros Heq; by inversion Heq.
  - intros Heq. by inversion Heq.
Qed.

Lemma main_parse_config_file_inv w vm0 s vm s' evs :
  main_parse_config_file w vm0 s = (Val vm, s', evs) ->
  s' = s /\ evs = [] /\
  exists p, config_path_of w vm0 = Ok p /\
    if path_exists w s p then
      exists lines copts,
        read_file w p = Ok lines /\
        po.parse_config_file lines (core_settings w) = Ok copts /\
        po.store (core_settings w) copts vm0 = Ok vm
    else vm = vm0.
Proof.
  unfold main_parse_config_file. rewrite bind_run.
  destruct (config_path_of w vm0) as [p|e]; simpl; [|discriminate].
  rewrite bind_run. unfold fs_exists.
  destruct (path_exists w s p) eqn:Hex.
  - destruct (read_file w p) as [lines|e] eqn:Hrd; simpl; [|discriminate].
    destruct (po.parse_config_file lines (core_settings w)) as [copts|e] eqn:Hpc;
      simpl; [|discriminate].
    destruct (po.store (core_settings w) copts vm0) as [vm1|e] eqn:Hst;
      simpl; [|discriminate].
    intros Heq. inversion Heq; subst. repeat split; try done.
    exists p. rewrite Hex. split; [done|]. by exists lines, copts.
  - intros Heq. inversion Heq; subst. repeat split; try done.
    exists p. by rewrite Hex.
Qed.

Lemma main_resolve_inv w s vm s1 evs1 :
  main_resolve w s = (Val vm, s1, evs1) ->
  exists opts vm0 s0,
    parsed_argv w = Ok opts /\
    po.store (all_options w) opts po.empty_map = Ok vm0 /\
    arg_present vm0 arg_help = false /\
    arg_present vm0 arg_version || arg_present vm0 arg_os_version = false /\
    main_create_data_dir w vm0 s = (Val tt, s0, evs1) /\
    main_parse_config_file w vm0 s0 = (Val vm, s1, []).
Proof.
  unfold main_resolve. intros Hr.
  apply bind_Val_inv in Hr as (parsed & s2 & e1 & e2 & Hp & Hr & ->).
  destruct parsed as [vm0|]; [|discriminate].
  apply parse_options_inv in Hp as (opts & Hargv & Hst & -> & ->).
  apply bind_Val_inv in Hr as (help & s3 & e3 & e4 & Hh & Hr & ->).
  unfold print_help in Hh.
  destruct (arg_present vm0 arg_help) eqn:Hhelp.
  { inversion Hh; subst. discriminate. }
  inversion Hh; subst. simpl in Hr.
  apply bind_Val_inv in Hr as (query & s4 & e5 & e6 & Hq & Hr & ->).
  unfold query_system_info in Hq.
  destruct (arg_present vm0 arg_version || arg_present vm0 arg_os_version) eqn:Hquery.
  { inversion Hq; subst. discriminate. }
  inversion Hq; subst. simpl in Hr.
  apply bind_Val_inv in Hr as ([] & s5 & e7 & e8 & Hc & Hr & ->).
  pose proof (main_parse_config_file_inv _ _ _ _ _ _ Hr) as (Hs & He & _).
  subst s1 e8. exists opts, vm0, s5. simpl. rewrite app_nil_r. done.
Qed.

End Resolution.

(** ** Precedence of the command line *)

Section Precedence.

Context {macros : Macros} {boost : bf.library}.

(** What [store] leaves of the command line is what the accessors read. *)
Lemma get_arg_string_typed vm arg v :
  po.vm_values vm !! name arg = Some v ->
  has_type po.sem_string (po.vv_value v) ->
  exists x, get_arg_string vm arg = Ok x.
Proof.
  intros Hv Ht. unfold get_arg_string. rewrite Hv. simpl.
  destruct (po.vv_value v); try contradiction. eauto.
Qed.

Lemma get_arg_int_typed vm arg v :
  po.vm_values vm !! name arg = Some v ->
  has_type po.sem_int (po.vv_value v) ->
  exists x, get_arg_int vm arg = Ok x.
Proof.
  intros Hv Ht. unfold get_arg_int. rewrite Hv. simpl.
  destruct (po.vv_value v); try contradiction. eauto.
Qed.

Lemma typed_at_empty sem k : typed_at sem (po.vm_values po.empty_map) k.
Proof. intros v Hv. simpl in Hv. by rewrite lookup_empty in Hv. Qed.

Lemma typed_at_lookup sem (m : gmap string po.variable_value) k v :
  m !! k = Some v -> has_type sem (po.vv_value v) -> typed_at sem m k.
Proof. intros Hv Ht v' Hv'. congruence. Qed.

(** After resolution the log file, the log level and the data directory
    can be read.  The data directory needs the daemon's own options not to
    claim its name. *)
Lemma resolved_args w s vm s1 evs1 :
  main_resolve w s = (Val vm, s1, evs1) ->
  (exists f, get_arg_string vm arg_log_file = Ok f) /\
  (exists n, get_arg_int vm arg_log_level = Ok n) /\
  (po.registered (t_daemon_init_options w) "data-dir" = false ->
   exists d, data_dir_of w vm = Ok d).
Proof.
  intros Hr.
  apply main_resolve_inv in Hr as (opts & vm0 & s0 & _ & Hst & _ & _ & _ & Hcf).
  destruct (store_typed _ _ _ _ _ _ _ (find_all_log_file w) eq_refl I Hst
              (typed_at_empty _ _)) as (vf & Hvf & Htf).
  destruct (store_typed _ _ _ _ _ _ _ (find_all_log_level w) eq_refl I Hst
              (typed_at_empty _ _)) as (vl & Hvl & Htl).
  destruct (store_typed _ _ _ _ _ _ _ (find_all_data_dir w) eq_refl I Hst
              (typed_at_empty _ _)) as (vd & Hvd & Htd).
  apply main_parse_config_file_inv in Hcf as (_ & _ & p & _ & Hcf).
  destruct (path_exists w s0 p).
  - destruct Hcf as (lines & copts & _ & _ & Hst2).
    destruct (store_typed _ _ _ _ _ _ _ (find_core_log_file w) eq_refl I Hst2
                (typed_at_lookup _ _ _ _ Hvf Htf)) as (vf' & Hvf' & Htf').
    destruct (store_typed _ _ _ _ _ _ _ (find_core_log_level w) eq_refl I Hst2
                (typed_at_lookup _ _ _ _ Hvl Htl)) as (vl' & Hvl' & Htl').
    split; [by eapply get_arg_string_typed|].
    split; [by eapply get_arg_int_typed|].
    intros Hsane.
    assert (Hnone : po.find (core_settings w) "data-dir" = None).
    { rewrite find_core_other by discriminate.
      unfold po.registered in Hsane.
      by destruct (po.find (t_daemon_init_options w) "data-dir"). }
    pose proof (store_unregistered _ _ _ _ _ Hnone Hst2) as Hsame.
    rewrite Hvd in Hsame.
    destruct (get_arg_string_typed vm arg_data_dir vd Hsame Htd) as (d & Hd).
    unfold data_dir_of. rewrite Hd. simpl. eauto.
  - subst vm.
    split; [by eapply get_arg_string_typed|].
    split; [by eapply get_arg_int_typed|].
    intros _.
    destruct (get_arg_string_typed vm0 arg_data_dir vd Hvd Htd) as (d & Hd).
    unfold data_dir_of. rewrite Hd. simpl. eauto.
Qed.

(** *** A configuration file with a key outside the core settings *)

Lemma read_file_exists w s p lines :
  read_file w p = Ok lines -> path_exists w s p = true.
Proof.
  unfold read_file, path_exists.
  destruct (List.find _ (files w)) as [f|] eqn:Hf; [|discriminate].
  intros _. apply find_some in Hf as [Hin Heq].
  apply bool_decide_eq_true in Heq. rewrite <- Heq.
  apply orb_true_intro. right. apply bool_decide_eq_true.
  apply list_elem_of_fmap. exists f. split; [done|]. by apply list_elem_of_In.
Qed.

Lemma main_resolve_run w s opts vm0 :
  parsed_argv w = Ok opts ->
  po.store (all_options w) opts po.empty_map = Ok vm0 ->
  arg_present vm0 arg_help = false ->
  arg_present vm0 arg_version || arg_present vm0 arg_os_version = false ->
  main_resolve w s =
    (main_create_data_dir w vm0;; main_parse_config_file w vm0) s.
Proof.
  intros Hargv Hst Hhelp Hquery.
  unfold main_resolve, parse_options, print_help, query_system_info.
  rewrite Hargv. simpl. rewrite Hst.
  rewrite bind_run. simpl. rewrite Hhelp.
  rewrite bind_run. simpl. rewrite Hquery.
  rewrite bind_run. simpl.
  by destruct ((main_create_data_dir w vm0;; main_parse_config_file w vm0) s)
    as [[o s2] e2].
Qed.

Lemma main_create_data_dir_Val w vm s d :
  data_dir_of w vm = Ok d ->
  exists s0 evs0, main_create_data_dir w vm s = (Val tt, s0, evs0).
Proof.
  intros Hd. unfold main_create_data_dir. rewrite bind_run, Hd. simpl.
  rewrite bind_run. unfold create_directories_if_necessary.
  case_bool_decide; [|destruct (can_create_directories w)]; simpl; eauto.
Qed.

Lemma main_resolve_Exc w s what s' evs :
  main_resolve w s = (Exc what, s', evs) ->
  main w s = (1, s', evs ++ [EvLogError ("Exception in main! " +:+ what)]).
Proof.
  intros Hr. unfold main, main_try. rewrite bind_run, Hr. reflexivity.
Qed.

(** C10. The configuration file is parsed against the core settings only:
    the log file, the log level and the daemon's own options.  When the
    file that [main] looks for exists and names a key outside them, the
    parser throws, the handler of [main] logs the exception, and the process
    exits with 1 having forwarded nothing, set up no logging and launched
    nothing. *)
Theorem unregistered_config_key_exits_1 w s opts vm0 p lines k v :
  parsed_argv w = Ok opts ->
  po.store (all_options w) opts po.empty_map = Ok vm0 ->
  arg_present vm0 arg_help = false ->
  arg_present vm0 arg_version || arg_present vm0 arg_os_version = false ->
  config_path_of w vm0 = Ok p ->
  read_file w p = Ok lines ->
  (k, v) ∈ lines ->
  po.registered (core_settings w) k = false ->
  po.od_name <$> core_settings w =
    "log-file" :: "log-level" :: (po.od_name <$> t_daemon_init_options w) /\
  po.parse_config_file lines (core_settings w) = Error "unrecognised option" /\
  exists s' evs,
    main w s = (1, s', evs ++ [EvLogError "Exception in main! unrecognised option"]) /\
    Forall quiet evs /\
    log_detalisation_level s' = log_detalisation_level s /\
    loggers s' = loggers s /\ services s' = services s.
Proof.
  intros Hargv Hst Hhelp Hquery Hp Hrd Hin Hreg.
  pose proof (parse_config_file_unregistered _ _ _ _ Hin Hreg) as Hpc.
  split; [reflexivity|]. split; [exact Hpc|].
  assert (exists d, data_dir_of w vm0 = Ok d) as (d & Hd).
  { unfold config_path_of in Hp. apply result_bind_Ok in Hp as (d & Hd & _).
    eauto. }
  destruct (main_create_data_dir_Val w vm0 s d Hd) as (s0 & evs0 & Hc).
  assert (Hr : main_resolve w s = (Exc "unrecognised option", s0, evs0)).
  { rewrite (main_resolve_run _ _ _ _ Hargv Hst Hhelp Hquery).
    rewrite bind_run, Hc. unfold main_parse_config_file.
    rewrite bind_run, Hp. simpl. rewrite bind_run. unfold fs_exists.
    rewrite (read_file_exists _ _ _ _ Hrd), Hrd. simpl. rewrite Hpc. simpl.
    by rewrite app_nil_r. }
  exists s0, evs0. split; [by apply main_resolve_Exc|].
  split; [by eapply main_resolve_quiet|].
  by eapply main_create_data_dir_inv.
Qed.

End Precedence.

(** ** What a computation leaves untouched *)

Section Preserves.

Context {A B X : Type} (f : state -> X).

Lemma preserves_ret (a : A) : preserves f (mret a).
Proof. intros s o s' evs Heq. by inversion Heq. Qed.

Lemma preserves_return (c : Z) : preserves f (return_ (A:=A) c).
Proof. intros s o s' evs Heq. by inversion Heq. Qed.

Lemma preserves_throw (e : string) : preserves f (throw (A:=A) e).
Proof. intros s o s' evs Heq. by inversion Heq. Qed.

Lemma preserves_lift (r : result A) : preserves f (lift r).
Proof. destruct r; [apply preserves_ret | apply preserves_throw]. Qed.

Lemma preserves_bind (m : M A) (k : A -> M B) :
  preserves f m -> (forall a, preserves f (k a)) -> preserves f (m ≫= k).
Proof.
  intros Hm Hk s o s' evs. rewrite bind_run.
  destruct (m s) as [[[a|c|e] s1] evs1] eqn:Hms.
  - destruct (k a s1) as [[o2 s2] evs2] eqn:Hks. intros Heq.
    inversion Heq; subst. rewrite (Hk _ _ _ _ _ Hks). by eapply Hm.
  - intros Heq. inversion Heq; subst. by eapply Hm.
  - intros Heq. inversion Heq; subst. by eapply Hm.
Qed.

End Preserves.

Lemma preserves_emit {X} (f : state -> X) e : preserves f (emit e).
Proof. intros s o s' evs Heq. by inversion Heq. Qed.

Lemma preserves_fs_exists {X} (f : state -> X) w p : preserves f (fs_exists w p).
Proof. intros s o s' evs Heq. by inversion Heq. Qed.

Lemma preserves_posix_fork {X} (f : state -> X) w : preserves f (posix_fork w).
Proof.
  intros s o s' evs. unfold posix_fork.
  destruct (fork_outcome w); intros Heq; by inversion Heq.
Qed.

Lemma preserves_start_service {X} (f : state -> X) w name :
  preserves f (start_service w name).
Proof. intros s o s' evs Heq. by inversion Heq. Qed.

(** The service manager touches neither the log level nor the sinks. *)
Lemma install_service_level w name args :
  preserves log_detalisation_level (install_service w name args).
Proof.
  intros s o s' evs. unfold install_service.
  destruct (install_service_accepted w && _); intros Heq; by inversion Heq.
Qed.

Lemma install_service_loggers w name args :
  preserves loggers (install_service w name args).
Proof.
  intros s o s' evs. unfold install_service.
  destruct (install_service_accepted w && _); intros Heq; by inversion Heq.
Qed.

Lemma uninstall_service_level name :
  preserves log_detalisation_level (uninstall_service name).
Proof. intros s o s' evs Heq. by inversion Heq. Qed.

Lemma uninstall_service_loggers name : preserves loggers (uninstall_service name).
Proof. intros s o s' evs Heq. by inversion Heq. Qed.

Lemma add_logger_level t file dir :
  preserves log_detalisation_level (add_logger t file dir).
Proof. intros s o s' evs Heq. by inversion Heq. Qed.

Lemma get_set_level_loggers b level :
  preserves loggers (get_set_log_detalisation_level b level).
Proof.
  intros s o s' evs. unfold get_set_log_detalisation_level.
  destruct b; intros Heq; by inversion Heq.
Qed.

Ltac preserves_step :=
  first
    [ apply preserves_bind; [|intros ?]
    | apply preserves_ret
    | apply preserves_return
    | apply preserves_throw
    | apply preserves_lift
    | apply preserves_emit
    | apply preserves_fs_exists
    | apply preserves_posix_fork
    | apply preserves_start_service
    | apply install_service_level
    | apply install_service_loggers
    | apply uninstall_service_level
    | apply uninstall_service_loggers
    | apply add_logger_level
    | apply get_set_level_loggers
    | match goal with
      | |- preserves _ (if ?b then _ else _) => destruct b
      | |- preserves _ (match ?x with _ => _ end) => destruct x
      end ].

Ltac preserves_block := repeat preserves_step.

(** ** After resolution *)

Section Dispatch.

Context {macros : Macros} {boost : bf.library}.

Lemma main_launch_level w detach win_service :
  preserves log_detalisation_level (main_launch w detach win_service).
Proof. unfold main_launch, LOG_PRINT_L0. preserves_block. Qed.

Lemma main_launch_loggers w detach win_service :
  preserves loggers (main_launch w detach win_service).
Proof. unfold main_launch, LOG_PRINT_L0. preserves_block. Qed.

Lemma main_launch_no_level_event w detach win_service :
  emits (fun e => is_set_log_level e = false /\ is_logging_init e = false)
        (main_launch w detach win_service).
Proof. unfold main_launch, LOG_PRINT_L0. emits_block. Qed.

Lemma main_set_log_file_level w vm :
  preserves log_detalisation_level (main_set_log_file w vm).
Proof. unfold main_set_log_file. preserves_block. Qed.

Lemma main_set_log_file_no_level_event w vm :
  emits (fun e => is_set_log_level e = false) (main_set_log_file w vm).
Proof. unfold main_set_log_file. emits_block. Qed.

Lemma main_sinks_and_launch_level w vm :
  preserves log_detalisation_level (main_sinks_and_launch w vm).
Proof.
  unfold main_sinks_and_launch, when. cbv zeta.
  apply preserves_bind; [apply main_set_log_file_level|intros _].
  apply preserves_bind; [preserves_block|intros _].
  apply preserves_bind; [apply main_launch_level|intros _].
  apply preserves_ret.
Qed.

Lemma main_sinks_and_launch_no_level_event w vm :
  emits (fun e => is_set_log_level e = false) (main_sinks_and_launch w vm).
Proof.
  unfold main_sinks_and_launch, when. cbv zeta.
  apply emits_bind; [apply main_set_log_file_no_level_event|intros _].
  apply emits_bind; [emits_block|intros _].
  apply emits_bind; [|intros _; apply emits_ret].
  intros s o s' evs Hl. apply main_launch_no_level_event in Hl.
  eapply Forall_impl; [exact Hl|]. by intros e [He _].
Qed.

(** [main] once the configuration is resolved. *)
Lemma main_after_resolve w s vm s1 evs1 :
  main_resolve w s = (Val vm, s1, evs1) ->
  main w s =
    (let '(code, s', evs) := exit_of (main_dispatch w vm s1) in
     (code, s', evs1 ++ evs)).
Proof.
  intros Hr. unfold main, main_try. rewrite bind_run, Hr.
  destruct (main_dispatch w vm s1) as [[[c|c|e] s2] evs2]; simpl; try done.
  by rewrite app_assoc.
Qed.

Lemma main_resolve_not_Val w s :
  (forall vm s1 evs1, main_resolve w s ≠ (Val vm, s1, evs1)) ->
  exists code s' evs, main w s = (code, s', evs) /\ Forall quiet evs.
Proof.
  intros Hn. unfold main, main_try. rewrite bind_run.
  pose proof (main_resolve_quiet w s) as Hq.
  destruct (main_resolve w s) as [[[vm|c|e] s1] evs1].
  - by destruct (Hn vm s1 evs1).
  - exists c, s1, evs1. split; [done|]. by eapply Hq.
  - eexists 1, s1, _. split; [done|]. apply Forall_app. split; [by eapply Hq|].
    by repeat constructor.
Qed.

(** Without a daemon command, [main] goes on to the log settings. *)
Lemma main_dispatch_no_command w vm s :
  arg_present vm arg_command = false ->
  main_dispatch w vm s =
    (main_start_log_level;; main_set_log_level vm;; main_sinks_and_launch w vm) s.
Proof.
  intros Hc. unfold main_dispatch, main_daemon_command. rewrite Hc.
  rewrite bind_run. simpl.
  match goal with
  | |- (let (p, evs2) := ?x in _) = _ => by destruct x as [[o s2] e2]
  end.
Qed.

End Dispatch.

(** ** The log level *)

Section LogLevel.

Context {macros : Macros} {boost : bf.library}.

Lemma out_of_range_test n :
  out_of_range n ->
  (n <? LOG_LEVEL_MIN) || (n >? LOG_LEVEL_MAX) = true.
Proof.
  intros [Hlo|Hhi]; apply orb_true_intro.
  - left. by apply Z.ltb_lt.
  - right. rewrite Z.gtb_ltb. by apply Z.ltb_lt.
Qed.

Lemma main_start_log_level_run s :
  main_start_log_level s =
    (Val tt, set_level LOG_LEVEL_0 s, [EvSetLogLevel LOG_LEVEL_0]).
Proof. reflexivity. Qed.

Lemma main_set_log_level_out_of_range vm s n :
  get_arg_int vm arg_log_level = Ok n ->
  out_of_range n ->
  main_set_log_level vm s = (Val tt, s, [wrong_level_warning n]).
Proof.
  intros Hn Hout. unfold main_set_log_level. rewrite bind_run, Hn. simpl.
  by rewrite (out_of_range_test n Hout).
Qed.

(** C2. A requested log level outside [[LOG_LEVEL_MIN, LOG_LEVEL_MAX]] is
    answered with a warning and nothing else: the state, and with it the
    effective level, is the one the request found.  In [main] that level is
    the [LOG_LEVEL_0] set just before, neither the request nor a bound. *)
Theorem out_of_range_log_level_is_rejected vm s n :
  get_arg_int vm arg_log_level = Ok n ->
  out_of_range n ->
  main_set_log_level vm s = (Val tt, s, [wrong_level_warning n]) /\
  (main_start_log_level;; main_set_log_level vm) s =
    (Val tt, set_level LOG_LEVEL_0 s,
     [EvSetLogLevel LOG_LEVEL_0; wrong_level_warning n]).
Proof.
  intros Hn Hout.
  split; [by apply main_set_log_level_out_of_range|].
  rewrite bind_run, main_start_log_level_run.
  by rewrite (main_set_log_level_out_of_range _ _ _ Hn Hout).
Qed.

Lemma main_set_log_level_Val vm s n :
  get_arg_int vm arg_log_level = Ok n ->
  exists s' evs, main_set_log_level vm s = (Val tt, s', evs).
Proof.
  intros Hn. unfold main_set_log_level. rewrite bind_run, Hn. simpl.
  destruct ((n <? LOG_LEVEL_MIN) || (n >? LOG_LEVEL_MAX)); [by eauto|].
  rewrite bind_run. simpl.
  destruct (negb (log_detalisation_level s =? n)); simpl; eauto.
Qed.

(** C9. Every invocation that launches the daemon sets the effective level
    to [LOG_LEVEL_0] right after resolution, before it reads the requested
    level.  When the request is out of range nothing sets the level again:
    the level [main] ends with is [LOG_LEVEL_0], whatever the level was
    before and whatever was requested. *)
Theorem launch_starts_at_log_level_0 w s vm s1 evs1 :
  main_resolve w s = (Val vm, s1, evs1) ->
  arg_present vm arg_command = false ->
  exists n evs2,
    get_arg_int vm arg_log_level = Ok n /\
    (main w s).2 = evs1 ++ EvSetLogLevel LOG_LEVEL_0 :: evs2 /\
    (out_of_range n ->
       log_detalisation_level (main w s).1.2 = LOG_LEVEL_0 /\
       exists evs3, evs2 = wrong_level_warning n :: evs3 /\
                    Forall (fun e => is_set_log_level e = false) evs3).
Proof.
  intros Hr Hc.
  destruct (resolved_args _ _ _ _ _ Hr) as (_ & (n & Hn) & _).
  rewrite (main_after_resolve _ _ _ _ _ Hr).
  rewrite (main_dispatch_no_command _ _ _ Hc).
  rewrite bind_run, main_start_log_level_run.
  destruct (main_set_log_level_Val vm (set_level LOG_LEVEL_0 s1) n Hn)
    as (s2 & e2 & Hset).
  rewrite bind_run, Hset.
  pose proof (main_sinks_and_launch_level w vm s2) as Hlevel.
  pose proof (main_sinks_and_launch_no_level_event w vm s2) as Hquiet.
  destruct (main_sinks_and_launch w vm s2) as [[o s3] e3].
  specialize (Hlevel _ _ _ eq_refl). specialize (Hquiet _ _ _ eq_refl).
  assert (Hout : out_of_range n -> s2 = set_level LOG_LEVEL_0 s1 /\
                                   e2 = [wrong_level_warning n]).
  { intros Hout.
    rewrite (main_set_log_level_out_of_range _ _ _ Hn Hout) in Hset.
    by inversion Hset. }
  exists n. destruct o as [c|c|e]; simpl.
  - exists (e2 ++ e3). split; [done|]. split; [done|].
    intros Ho. destruct (Hout Ho) as [-> ->]. rewrite Hlevel. split; [done|].
    by exists e3.
  - exists (e2 ++ e3). split; [done|]. split; [done|].
    intros Ho. destruct (Hout Ho) as [-> ->]. rewrite Hlevel. split; [done|].
    by exists e3.
  - exists (e2 ++ e3 ++ [EvLogError ("Exception in main! " +:+ e)]).
    split; [done|]. split; [by rewrite <- !app_assoc|].
    intros Ho. destruct (Hout Ho) as [-> ->]. rewrite Hlevel. split; [done|].
    eexists. split; [reflexivity|]. apply Forall_app. split; [done|].
    by repeat constructor.
Qed.

End LogLevel.

(** ** The log sinks *)

Section Logging.

Context {macros : Macros} {boost : bf.library}.

(** *** The log file (lines 206-226) *)

Lemma main_set_log_file_run w vm s d f :
  data_dir_of w vm = Ok d ->
  get_arg_string vm arg_log_file = Ok f ->
  main_set_log_file w vm s =
    (Val tt,
     set_loggers (loggers s ++ [file_sink w (chosen_log_path w s d f)]) s,
     [file_sink_event w (chosen_log_path w s d f)]).
Proof.
  intros Hd Hf. unfold main_set_log_file.
  rewrite bind_run, Hd. simpl. rewrite bind_run, Hf. simpl.
  unfold chosen_log_path, parent_usable, candidate_log_path.
  set (p := if bf.is_relative (bf.of_string f) then d // bf.of_string f
            else bf.of_string f).
  rewrite bind_run. destruct (bf.has_parent_path p) eqn:Hpar; simpl.
  - unfold fs_exists.
    destruct (path_exists w s (bf.parent_path p)); reflexivity.
  - reflexivity.
Qed.

Lemma of_string_to_string (p : bf.path) : bf.of_string (bf.to_string p) = p.
Proof. by destruct p. Qed.

Lemma kept_sink_dir_exists w s p :
  bf.has_parent_path p = true ->
  path_exists w s (bf.parent_path p) = true ->
  sink_dir_exists w s p = true.
Proof.
  intros Hpar Hex. unfold sink_dir_exists, log_dir_of.
  by rewrite Hpar, of_string_to_string.
Qed.

(** C7. The configured log file can always be read once the configuration
    is resolved (the daemon's own options leaving the name [data-dir] to
    [main]).  A relative path is taken against the data directory, which is
    the value of [data-dir] made absolute against the current directory; if
    the result has no parent or [bf::exists] denies the parent, the default
    log file (and, when that is a bare name, the default folder) takes its
    place, unchecked.  The block then attaches exactly one file sink and
    neither returns nor throws; the folder of that sink exists whenever the
    configured path is kept. *)
Theorem log_file_falls_back_to_default w s vm s1 evs1 :
  main_resolve w s = (Val vm, s1, evs1) ->
  po.registered (t_daemon_init_options w) "data-dir" = false ->
  exists dd f,
    get_arg_string vm arg_data_dir = Ok dd /\
    get_arg_string vm arg_log_file = Ok f /\
    forall s2,
      let d := bf.absolute (current_path w) (bf.of_string dd) in
      let p := candidate_log_path d f in
      let q := chosen_log_path w s2 d f in
      (bf.is_relative (bf.of_string f) = true -> p = d // bf.of_string f) /\
      (bf.is_relative (bf.of_string f) = false -> p = bf.of_string f) /\
      (bf.has_parent_path p = false \/
       path_exists w s2 (bf.parent_path p) = false ->
       q = bf.of_string (get_default_log_file w)) /\
      (bf.has_parent_path p = true ->
       path_exists w s2 (bf.parent_path p) = true ->
       q = p /\ sink_dir_exists w s2 q = true) /\
      main_set_log_file w vm s2 =
        (Val tt, set_loggers (loggers s2 ++ [file_sink w q]) s2,
         [file_sink_event w q]).
Proof.
  intros Hr Hsane.
  destruct (resolved_args _ _ _ _ _ Hr) as ((f & Hf) & _ & Hd).
  destruct (Hd Hsane) as (d & Hd').
  unfold data_dir_of in Hd'.
  destruct (get_arg_string vm arg_data_dir) as [dd|e] eqn:Hdd; [|discriminate].
  simpl in Hd'. inversion Hd'; subst d. clear Hd'.
  exists dd, f. split; [done|]. split; [done|].
  intros s2 d p q. subst p q. unfold chosen_log_path, parent_usable.
  split; [|split; [|split; [|split]]].
  - unfold candidate_log_path. simpl. by intros ->.
  - unfold candidate_log_path. simpl. by intros ->.
  - intros [-> | ->]; [done|]. by rewrite andb_false_r.
  - intros Hpar Hex. rewrite Hpar, Hex. simpl.
    split; [done|]. by apply kept_sink_dir_exists.
  - apply main_set_log_file_run; [|done].
    unfold data_dir_of. by rewrite Hdd.
Qed.

(** *** The launch path as a whole *)

Lemma get_set_level_services b level :
  preserves services (get_set_log_detalisation_level b level).
Proof.
  intros s o s' evs. unfold get_set_log_detalisation_level.
  destruct b; intros Heq; by inversion Heq.
Qed.

Lemma main_set_log_level_loggers vm : preserves loggers (main_set_log_level vm).
Proof. unfold main_set_log_level, LOG_PRINT_L0. preserves_block. Qed.

Lemma main_set_log_level_services vm : preserves services (main_set_log_level vm).
Proof.
  unfold main_set_log_level, LOG_PRINT_L0.
  repeat first [apply get_set_level_services | preserves_step].
Qed.

Lemma main_set_log_level_no_sink vm :
  emits (fun e => is_add_logger e = false) (main_set_log_level vm).
Proof. unfold main_set_log_level, LOG_PRINT_L0. emits_block. Qed.

Lemma main_set_log_level_no_daemonization vm :
  emits (fun e => is_daemonization e = false) (main_set_log_level vm).
Proof. unfold main_set_log_level, LOG_PRINT_L0. emits_block. Qed.

Lemma main_launch_no_sink w detach win_service :
  emits (fun e => is_add_logger e = false) (main_launch w detach win_service).
Proof. unfold main_launch, LOG_PRINT_L0. emits_block. Qed.

Lemma quiet_no_sink e : quiet e -> is_add_logger e = false.
Proof. intros (_ & Hl & _). by destruct e. Qed.

Lemma console_run vm s :
  when (attached vm) (add_logger LOGGER_CONSOLE None None) s =
    (Val tt,
     if attached vm then set_loggers (loggers s ++ [console_sink]) s else s,
     if attached vm then [console_event] else []).
Proof. unfold when. destruct (attached vm); reflexivity. Qed.

Lemma main_launch_path w s vm s1 evs1 :
  main_resolve w s = (Val vm, s1, evs1) ->
  arg_present vm arg_command = false ->
  po.registered (t_daemon_init_options w) "data-dir" = false ->
  exists n d f s2 e2,
    get_arg_int vm arg_log_level = Ok n /\
    data_dir_of w vm = Ok d /\
    get_arg_string vm arg_log_file = Ok f /\
    main_set_log_level vm (set_level LOG_LEVEL_0 s1) = (Val tt, s2, e2) /\
    main w s =
      (let '(code, s', e') :=
         exit_of ((main_launch w (arg_present vm arg_detach)
                     (arg_present vm arg_windows_service);; mret 0)
                  (with_sinks w vm d f s2)) in
       (code, s',
        evs1 ++ EvSetLogLevel LOG_LEVEL_0 :: e2 ++ sink_events w vm d f s2 ++ e')).
Proof.
  intros Hr Hc Hsane.
  destruct (resolved_args _ _ _ _ _ Hr) as ((f & Hf) & (n & Hn) & Hd).
  destruct (Hd Hsane) as (d & Hd').
  destruct (main_set_log_level_Val vm (set_level LOG_LEVEL_0 s1) n Hn)
    as (s2 & e2 & Hset).
  exists n, d, f, s2, e2. repeat split; try done.
  rewrite (main_after_resolve _ _ _ _ _ Hr).
  rewrite (main_dispatch_no_command _ _ _ Hc).
  rewrite bind_run, main_start_log_level_run. cbv beta iota.
  rewrite bind_run, Hset. cbv beta iota. unfold main_sinks_and_launch. cbv zeta.
  rewrite bind_run, (main_set_log_file_run _ _ _ _ _ Hd' Hf). cbv beta iota.
  fold (attached vm). rewrite bind_run, console_run. cbv beta iota.
  unfold with_sinks, sink_events. cbv zeta.
  match goal with
  | |- context [(main_launch ?a ?b ?c ≫= ?k) ?st] =>
      destruct ((main_launch a b c ≫= k) st) as [[[c0|c0|e0] s5] e5]
  end; simpl; try done.
  do 3 f_equal. rewrite <- app_assoc. simpl. by rewrite <- app_assoc.
Qed.

End Logging.

(** ** Launching the daemon *)

Section Launch.

Context {macros : Macros} {boost : bf.library}.

(** Resolution changes the directories only. *)
Lemma main_resolve_state w s vm s1 evs1 :
  main_resolve w s = (Val vm, s1, evs1) ->
  log_detalisation_level s1 = log_detalisation_level s /\
  loggers s1 = loggers s /\ services s1 = services s.
Proof.
  intros Hr.
  apply main_resolve_inv in Hr as (opts & vm0 & s0 & _ & _ & _ & _ & Hc & Hp).
  apply main_parse_config_file_inv in Hp as (-> & _).
  by eapply main_create_data_dir_inv.
Qed.

Lemma with_sinks_loggers w vm d f s :
  loggers (with_sinks w vm d f s) =
    loggers s ++ file_sink w (chosen_log_path w s d f) ::
    (if attached vm then [console_sink] else []).
Proof.
  unfold with_sinks. destruct (attached vm); simpl; [|reflexivity].
  by rewrite <- app_assoc.
Qed.

Lemma with_sinks_services w vm d f s :
  services (with_sinks w vm d f s) = services s.
Proof. unfold with_sinks. by destruct (attached vm). Qed.

Lemma exit_of_state (m : M Z) s :
  (exit_of (m s)).1.2 = (m s).1.2.
Proof. by destruct (m s) as [[[c|c|e] s'] evs]. Qed.

Lemma exit_of_emits (P : event -> Prop) (m : M Z) s :
  emits P m -> (forall msg, P (EvLogError msg)) ->
  Forall P (exit_of (m s)).2.
Proof.
  intros Hm Herr. specialize (Hm s).
  destruct (m s) as [[[c|c|e] s'] evs]; simpl; try by eapply Hm.
  apply Forall_app. split; [by eapply Hm|]. by repeat constructor.
Qed.

Lemma attached_iff vm :
  attached vm = true <->
  arg_present vm arg_detach = false /\ arg_present vm arg_windows_service = false.
Proof.
  unfold attached.
  destruct (arg_present vm arg_detach), (arg_present vm arg_windows_service);
    simpl; intuition congruence.
Qed.

(** C8. On every path that launches the daemon [main] attaches the file
    sink, and it attaches the console sink exactly when neither the detach
    flag nor the run-as-service flag is present.  These are the only sinks
    it attaches: nothing before and nothing after adds one.  (The daemon's
    own options are taken to leave the name [data-dir] to [main].) *)
Theorem file_sink_always_console_sink_iff_attached w s vm s1 evs1 :
  main_resolve w s = (Val vm, s1, evs1) ->
  arg_present vm arg_command = false ->
  po.registered (t_daemon_init_options w) "data-dir" = false ->
  exists q before after,
    loggers (main w s).1.2 =
      loggers s ++ file_sink w q :: (if attached vm then [console_sink] else []) /\
    (main w s).2 =
      before ++ file_sink_event w q ::
      (if attached vm then [console_event] else []) ++ after /\
    Forall (fun e => is_add_logger e = false) before /\
    Forall (fun e => is_add_logger e = false) after /\
    (attached vm = true <->
     arg_present vm arg_detach = false /\
     arg_present vm arg_windows_service = false).
Proof.
  intros Hr Hc Hsane.
  destruct (main_launch_path _ _ _ _ _ Hr Hc Hsane)
    as (n & d & f & s2 & e2 & Hn & Hd & Hf & Hset & Hmain).
  destruct (main_resolve_state _ _ _ _ _ Hr) as (_ & Hlog1 & _).
  pose proof (main_set_log_level_loggers vm _ _ _ _ Hset) as Hlog2.
  simpl in Hlog2.
  set (launch := main_launch w (arg_present vm arg_detach)
                   (arg_present vm arg_windows_service);; mret 0) in *.
  assert (Hpres : preserves loggers launch).
  { apply preserves_bind; [apply main_launch_loggers|intros _; apply preserves_ret]. }
  assert (Hemit : emits (fun e => is_add_logger e = false) launch).
  { apply emits_bind; [apply main_launch_no_sink|intros _; apply emits_ret]. }
  pose proof (exit_of_state launch (with_sinks w vm d f s2)) as Hst.
  pose proof (exit_of_emits _ launch (with_sinks w vm d f s2) Hemit
                ltac:(done)) as Hev.
  specialize (Hpres (with_sinks w vm d f s2)).
  destruct (launch (with_sinks w vm d f s2)) as [[o s5] e5] eqn:Hl.
  specialize (Hpres _ _ _ eq_refl).
  destruct (exit_of (o, s5, e5)) as [[code s'] e'] eqn:Hexit.
  simpl in Hst, Hev. subst s'.
  exists (chosen_log_path w s2 d f), (evs1 ++ EvSetLogLevel LOG_LEVEL_0 :: e2), e'.
  rewrite Hmain. simpl.
  split; [by rewrite Hpres, with_sinks_loggers, Hlog2, Hlog1|].
  split; [unfold sink_events; by rewrite <- app_assoc|].
  split; [|split; [exact Hev|apply attached_iff]].
  apply Forall_app. split.
  - eapply Forall_impl; [by eapply main_resolve_quiet|]. apply quiet_no_sink.
  - constructor; [done|]. by eapply main_set_log_level_no_sink.
Qed.

(** *** Detaching as a Windows service *)

Lemma main_launch_rollback w s :
  WIN32 = true ->
  install_service_accepted w = true ->
  WINDOWS_SERVICE_NAME ∉ services s ->
  start_service_accepted w = false ->
  exists s',
    main_launch w true false s =
      (Val tt, s',
       [EvInstallService WINDOWS_SERVICE_NAME (service_arguments w);
        EvStartService WINDOWS_SERVICE_NAME;
        EvUninstallService WINDOWS_SERVICE_NAME]) /\
    WINDOWS_SERVICE_NAME ∉ services s'.
Proof.
  intros Hwin Hacc Hfree Hstart. unfold main_launch. rewrite Hwin.
  rewrite bind_run. unfold install_service. rewrite Hacc.
  rewrite (bool_decide_eq_true_2 _ Hfree). simpl.
  rewrite bind_run. unfold start_service. rewrite Hstart. simpl.
  eexists. split; [reflexivity|]. simpl.
  intros Hin. apply elem_of_difference in Hin as [_ Hin].
  apply Hin. by apply elem_of_singleton.
Qed.

(** C3, as the code has it.  When detaching on Windows installs the service
    and the start fails, [main] uninstalls the service, which is then no
    longer registered, and returns 0. *)
Theorem failed_start_uninstalls_and_exits_0 w s vm s1 evs1 :
  WIN32 = true ->
  main_resolve w s = (Val vm, s1, evs1) ->
  arg_present vm arg_command = false ->
  po.registered (t_daemon_init_options w) "data-dir" = false ->
  arg_present vm arg_windows_service = false ->
  arg_present vm arg_detach = true ->
  install_service_accepted w = true ->
  WINDOWS_SERVICE_NAME ∉ services s ->
  start_service_accepted w = false ->
  exists before,
    (main w s).1.1 = 0 /\
    (main w s).2 =
      before ++
      [EvInstallService WINDOWS_SERVICE_NAME (service_arguments w);
       EvStartService WINDOWS_SERVICE_NAME;
       EvUninstallService WINDOWS_SERVICE_NAME] /\
    Forall (fun e => is_daemonization e = false) before /\
    WINDOWS_SERVICE_NAME ∉ services (main w s).1.2.
Proof.
  intros Hwin Hr Hc Hsane Hsvc Hdet Hacc Hfree Hstart.
  destruct (main_launch_path _ _ _ _ _ Hr Hc Hsane)
    as (n & d & f & s2 & e2 & Hn & Hd & Hf & Hset & Hmain).
  destruct (main_resolve_state _ _ _ _ _ Hr) as (_ & _ & Hsv1).
  pose proof (main_set_log_level_services vm _ _ _ _ Hset) as Hsv2.
  simpl in Hsv2.
  assert (Hfree' : WINDOWS_SERVICE_NAME ∉ services (with_sinks w vm d f s2)).
  { by rewrite with_sinks_services, Hsv2, Hsv1. }
  destruct (main_launch_rollback w _ Hwin Hacc Hfree' Hstart) as (s' & Hl & Hgone).
  rewrite Hmain, Hsvc, Hdet. rewrite bind_run, Hl. simpl.
  exists (evs1 ++ EvSetLogLevel LOG_LEVEL_0 :: e2 ++ sink_events w vm d f s2).
  repeat split; try done.
  - rewrite <- !app_assoc. simpl. by rewrite <- !app_assoc.
  - apply Forall_app. split.
    + eapply Forall_impl; [by eapply main_resolve_quiet|]. by intros e (_ & _ & He).
    + constructor; [done|]. apply Forall_app. split.
      * eapply Forall_impl; [by eapply (main_set_log_level_no_daemonization vm)|].
        done.
      * unfold sink_events. destruct (attached vm); by repeat constructor.
Qed.

End Launch.

(** ** Forwarding a command *)

Section Forwarding.

Context {macros : Macros} {boost : bf.library}.

Lemma arg_present_command vm command :
  get_arg_strings vm arg_command = Ok command ->
  arg_present vm arg_command = negb (bool_decide (command = [])).
Proof.
  unfold get_arg_strings, arg_present.
  destruct (po.vm_values vm !! name arg_command) as [v|]; simpl; [|discriminate].
  destruct (po.vv_value v); try discriminate. intros Heq. by inversion Heq.
Qed.

Lemma command_tokens_present vm :
  command_tokens vm ≠ [] ->
  arg_present vm arg_command = true /\
  get_arg_strings vm arg_command = Ok (command_tokens vm).
Proof.
  unfold command_tokens.
  destruct (get_arg_strings vm arg_command) as [l|e] eqn:Hg; [|done].
  intros Hne. split; [|done].
  rewrite (arg_present_command _ _ Hg). by rewrite bool_decide_eq_false_2.
Qed.

Lemma command_tokens_absent vm :
  command_tokens vm = [] ->
  arg_present vm arg_command = false \/
  exists e, get_arg_strings vm arg_command = Error e.
Proof.
  unfold command_tokens.
  destruct (get_arg_strings vm arg_command) as [l|e] eqn:Hg; [|by eauto].
  intros ->. left. by rewrite (arg_present_command _ _ Hg).
Qed.

(** With a command present the branch never falls through, leaves the
    state alone and touches neither the log settings nor the daemon. *)
Lemma main_daemon_command_present w vm s :
  arg_present vm arg_command = true ->
  exists o evs,
    main_daemon_command w vm s = (o, s, evs) /\ o ≠ Val tt /\
    Forall no_launch evs /\
    main_dispatch w vm s = (ends_as o, s, evs).
Proof.
  intros Hp.
  assert (Hsame : forall o evs,
    main_daemon_command w vm s = (o, s, evs) -> o ≠ Val tt ->
    main_dispatch w vm s = (ends_as o, s, evs)).
  { intros o evs Hm Hne. unfold main_dispatch. rewrite bind_run, Hm.
    destruct o as [[]|c|e]; done. }
  pose proof (main_daemon_command_emits w vm s) as Hev.
  assert (exists o evs, main_daemon_command w vm s = (o, s, evs) /\ o ≠ Val tt)
    as (o & evs & Hm & Hne).
  { unfold main_daemon_command. rewrite Hp.
    rewrite bind_run.
    destruct (get_arg_strings vm arg_command) as [command|e]; simpl;
      [|by eauto].
    rewrite bind_run.
    destruct (get_arg_string vm (arg_rpc_bind_ip w)) as [ip_str|e]; simpl;
      [|by eauto].
    rewrite bind_run.
    destruct (get_arg_string vm (arg_rpc_bind_port w)) as [port_str|e]; simpl;
      [|by eauto].
    destruct (get_ip_int32_from_string w ip_str) as [ip|]; [|by eauto].
    destruct (get_xtype_from_string w port_str) as [port|]; [|by eauto].
    rewrite bind_run. simpl. rewrite bind_run. simpl.
    destruct (process_command_vec w ip port command); by eauto. }
  exists o, evs. split; [done|]. split; [done|].
  split; [by eapply Hev|by apply Hsame].
Qed.

Lemma main_forwarding_run w s vm s1 evs1 command ip_str port_str :
  main_resolve w s = (Val vm, s1, evs1) ->
  get_arg_strings vm arg_command = Ok command -> command ≠ [] ->
  get_arg_string vm (arg_rpc_bind_ip w) = Ok ip_str ->
  get_arg_string vm (arg_rpc_bind_port w) = Ok port_str ->
  main w s =
    match get_ip_int32_from_string w ip_str with
    | None => (1, s1, evs1 ++ [EvCerr ("Invalid IP: " +:+ ip_str)])
    | Some ip =>
        match get_xtype_from_string w port_str with
        | None => (1, s1, evs1 ++ [EvCerr ("Invalid port: " +:+ port_str)])
        | Some port =>
            if process_command_vec w ip port command
            then (0, s1, evs1 ++ [EvCommandServer ip port;
                                  EvProcessCommandVec command])
            else (1, s1, evs1 ++ [EvCommandServer ip port;
                                  EvProcessCommandVec command;
                                  EvCerr "Unknown command"])
        end
    end.
Proof.
  intros Hr Hcmd Hne Hip Hport.
  rewrite (main_after_resolve _ _ _ _ _ Hr).
  unfold main_dispatch, main_daemon_command.
  rewrite (arg_present_command _ _ Hcmd), bool_decide_eq_false_2 by done.
  simpl. rewrite bind_run, bind_run, Hcmd. simpl.
  rewrite bind_run, Hip. simpl. rewrite bind_run, Hport. simpl.
  destruct (get_ip_int32_from_string w ip_str) as [ip|]; [|done].
  destruct (get_xtype_from_string w port_str) as [port|]; [|done].
  rewrite bind_run. simpl. rewrite bind_run. simpl.
  by destruct (process_command_vec w ip port command).
Qed.

(** C5. With a well-formed address, the answer of [process_command_vec]
    decides the exit code: true gives 0; false gives the message "Unknown
    command" on the error stream and 1. *)
Theorem forwarded_command_result_is_exit_code
    w s vm s1 evs1 command ip_str port_str ip port :
  main_resolve w s = (Val vm, s1, evs1) ->
  get_arg_strings vm arg_command = Ok command -> command ≠ [] ->
  get_arg_string vm (arg_rpc_bind_ip w) = Ok ip_str ->
  get_arg_string vm (arg_rpc_bind_port w) = Ok port_str ->
  get_ip_int32_from_string w ip_str = Some ip ->
  get_xtype_from_string w port_str = Some port ->
  main w s =
    if process_command_vec w ip port command
    then (0, s1, evs1 ++ [EvCommandServer ip port; EvProcessCommandVec command])
    else (1, s1, evs1 ++ [EvCommandServer ip port; EvProcessCommandVec command;
                          EvCerr "Unknown command"]).
Proof.
  intros Hr Hcmd Hne Hip Hport Hpi Hpp.
  rewrite (main_forwarding_run _ _ _ _ _ _ _ _ Hr Hcmd Hne Hip Hport).
  by rewrite Hpi, Hpp.
Qed.

(** C6. When the bind IP or the bind port does not parse, [main] prints
    the error to the error stream and returns 1; the command server is not
    constructed and nothing is sent. *)
Theorem invalid_address_exits_before_connecting
    w s vm s1 evs1 command ip_str port_str :
  main_resolve w s = (Val vm, s1, evs1) ->
  get_arg_strings vm arg_command = Ok command -> command ≠ [] ->
  get_arg_string vm (arg_rpc_bind_ip w) = Ok ip_str ->
  get_arg_string vm (arg_rpc_bind_port w) = Ok port_str ->
  get_ip_int32_from_string w ip_str = None \/
  get_xtype_from_string w port_str = None ->
  exists msg,
    main w s = (1, s1, evs1 ++ [EvCerr msg]) /\
    Forall not_forwarding (main w s).2 /\
    (get_ip_int32_from_string w ip_str = None ->
     msg = "Invalid IP: " +:+ ip_str) /\
    (get_ip_int32_from_string w ip_str ≠ None ->
     msg = "Invalid port: " +:+ port_str).
Proof.
  intros Hr Hcmd Hne Hip Hport Hbad.
  pose proof (main_resolve_quiet w _ _ _ _ Hr) as Hq.
  assert (Hnf : forall msg, Forall not_forwarding (evs1 ++ [EvCerr msg])).
  { intros msg. apply Forall_app. split; [|by repeat constructor].
    eapply Forall_impl; [exact Hq|]. by intros e (He & _). }
  rewrite (main_forwarding_run _ _ _ _ _ _ _ _ Hr Hcmd Hne Hip Hport).
  destruct (get_ip_int32_from_string w ip_str) as [ip|].
  - destruct Hbad as [Hbad|Hbad]; [discriminate|]. rewrite Hbad.
    eexists. split; [reflexivity|]. split; [apply Hnf|]. split; done.
  - eexists. split; [reflexivity|]. split; [apply Hnf|]. split; done.
Qed.

(** C4. Forwarding a command and launching the daemon exclude each other.
    No run of [main] has both forwarding events and logging set-up or
    daemonization events.  With positional tokens, [main] ends where the
    forwarding branch ends, in the state resolution left; without them,
    nothing is forwarded. *)
Theorem forwarding_excludes_launch w s :
  (Forall not_forwarding (main w s).2 \/ Forall no_launch (main w s).2) /\
  forall vm s1 evs1,
    main_resolve w s = (Val vm, s1, evs1) ->
    (command_tokens vm ≠ [] ->
       (main w s).1.2 = s1 /\
       Forall no_launch (main w s).2 /\
       exists o evs2,
         main_daemon_command w vm s1 = (o, s1, evs2) /\ o ≠ Val tt /\
         main_dispatch w vm s1 = (ends_as o, s1, evs2)) /\
    (command_tokens vm = [] -> Forall not_forwarding (main w s).2).
Proof.
  assert (Hpresent : forall vm s1 evs1,
    main_resolve w s = (Val vm, s1, evs1) ->
    arg_present vm arg_command = true ->
    (main w s).1.2 = s1 /\ Forall no_launch (main w s).2 /\
    exists o evs2,
      main_daemon_command w vm s1 = (o, s1, evs2) /\ o ≠ Val tt /\
      main_dispatch w vm s1 = (ends_as o, s1, evs2)).
  { intros vm s1 evs1 Hr Hp.
    destruct (main_daemon_command_present w vm s1 Hp)
      as (o & evs2 & Hm & Hne & Hev & Hd).
    pose proof (main_resolve_quiet w _ _ _ _ Hr) as Hq.
    assert (Hq' : Forall no_launch evs1).
    { eapply Forall_impl; [exact Hq|]. by intros e (_ & ? & ?). }
    rewrite (main_after_resolve _ _ _ _ _ Hr), Hd.
    split; [by destruct o|]. split; [|by eauto].
    destruct o as [[]|c|e]; simpl; apply Forall_app; split; try done.
    apply Forall_app. split; [done|]. by repeat constructor. }
  assert (Habsent : forall vm s1 evs1,
    main_resolve w s = (Val vm, s1, evs1) ->
    arg_present vm arg_command = false ->
    Forall not_forwarding (main w s).2).
  { intros vm s1 evs1 Hr Hp.
    pose proof (main_resolve_quiet w _ _ _ _ Hr) as Hq.
    rewrite (main_after_resolve _ _ _ _ _ Hr).
    rewrite (main_dispatch_no_command _ _ _ Hp).
    pose proof (exit_of_emits not_forwarding _ s1
                  (main_logging_and_launch_emits w vm) ltac:(done)) as Hev.
    destruct (exit_of _) as [[code s'] e']. simpl in *.
    apply Forall_app. split; [|done].
    eapply Forall_impl; [exact Hq|]. by intros e (He & _). }
  split.
  - destruct (main_resolve w s) as [[[vm|c|e] s1] evs1] eqn:Hr.
    + destruct (arg_present vm arg_command) eqn:Hp.
      * right. by destruct (Hpresent _ _ _ eq_refl Hp) as (_ & Hev & _).
      * left. by apply (Habsent _ _ _ eq_refl Hp).
    + destruct (main_resolve_not_Val w s) as (code & s' & evs & Hm & Hq).
      { intros vm s2 evs2. by rewrite Hr. }
      rewrite Hm. left. simpl.
      eapply Forall_impl; [exact Hq|]. by intros e0 (He & _).
    + destruct (main_resolve_not_Val w s) as (code & s' & evs & Hm & Hq).
      { intros vm s2 evs2. by rewrite Hr. }
      rewrite Hm. left. simpl.
      eapply Forall_impl; [exact Hq|]. by intros e0 (He & _).
  - intros vm s1 evs1 Hr. split.
    + intros Hne. apply command_tokens_present in Hne as [Hp _].
      by eapply Hpresent.
    + intros Hnil. apply command_tokens_absent in Hnil as [Hp|(e & He)].
      * by eapply Habsent.
      * destruct (arg_present vm arg_command) eqn:Hp; [|by eapply Habsent].
        pose proof (main_resolve_quiet w _ _ _ _ Hr) as Hq.
        rewrite (main_after_resolve _ _ _ _ _ Hr).
        unfold main_dispatch, main_daemon_command.
        rewrite Hp, bind_run, bind_run, He. simpl.
        apply Forall_app. split; [|by repeat constructor].
        eapply Forall_impl; [exact Hq|]. by intros e0 (He0 & _).
Qed.

End Forwarding.

(** ** The argument string handed to the service manager *)

Lemma string_app_cons (x : ascii) (a b : string) :
  String x a +:+ b = String x (a +:+ b).
Proof. reflexivity. Qed.

Lemma string_app_assoc (a b c : string) : (a +:+ b) +:+ c = a +:+ (b +:+ c).
Proof.
  induction a as [|x a IH]; [reflexivity|]. by rewrite !string_app_cons, IH.
Qed.

Lemma string_app_nil_r (a : string) : a +:+ "" = a.
Proof.
  induction a as [|x a IH]; [reflexivity|]. by rewrite string_app_cons, IH.
Qed.

Lemma string_length_app (a b : string) :
  String.length (a +:+ b) = (String.length a + String.length b)%nat.
Proof.
  induction a as [|x a IH]; [reflexivity|].
  rewrite string_app_cons. simpl. by rewrite IH.
Qed.

Lemma concat_empty_sep_cons (x : string) (xs : list string) :
  String.concat "" (x :: xs) = x +:+ String.concat "" xs.
Proof. destruct xs; simpl; [by rewrite string_app_nil_r|reflexivity]. Qed.

(** The loop of [get_argument_string] from any accumulated prefix. *)
Lemma argument_loop_from (l : list string) (acc : string) :
  fold_left (fun result a => result +:+ (" " +:+ a)) l acc =
    acc +:+ String.concat "" (map (fun a => " " +:+ a) l).
Proof.
  revert acc. induction l as [|a l IH]; intros acc.
  - simpl. by rewrite string_app_nil_r.
  - cbn [fold_left map]. rewrite IH, concat_empty_sep_cons.
    by rewrite string_app_assoc.
Qed.

Lemma get_argument_string_concat_loop (args : list string) :
  get_argument_string args =
    String.concat "" (map (fun a => " " +:+ a) (tail args)).
Proof. unfold get_argument_string. by rewrite argument_loop_from. Qed.

(** X1. The argument string is the concatenation, in order, of every
    argument after the program name, each with one blank in front; the
    program name itself does not appear. *)
Theorem get_argument_string_concat (args : list string) :
  get_argument_string args =
    String.concat "" (map (fun a => " " +:+ a) (tail args)).
Proof. apply get_argument_string_concat_loop. Qed.

(** X2. The argument string of a longer command line is the argument string
    of its front followed by what the rest adds; so, whenever there is a
    program name, the string the service is installed with is the argument
    string of the command line extended by [--run-as-service]. *)
Theorem get_argument_string_app (program : string) (xs ys : list string) :
  get_argument_string (program :: xs ++ ys) =
    get_argument_string (program :: xs) +:+ get_argument_string (program :: ys) /\
  forall w, argv w = program :: xs ->
    service_arguments w = get_argument_string (argv w ++ ["--run-as-service"]).
Proof.
  assert (Happ : forall zs,
    get_argument_string (program :: xs ++ zs) =
      get_argument_string (program :: xs) +:+ get_argument_string (program :: zs)).
  { intros zs. unfold get_argument_string. cbn [tail].
    rewrite fold_left_app, argument_loop_from.
    f_equal. by rewrite argument_loop_from. }
  split; [apply Happ|].
  intros w Hw. unfold service_arguments. rewrite Hw.
  change ((program :: xs) ++ ["--run-as-service"])
    with (program :: xs ++ ["--run-as-service"]).
  by rewrite Happ.
Qed.

Lemma sum_list_with_app_length (l : list string) :
  String.length (String.concat "" (map (fun a => " " +:+ a) l)) =
    sum_list_with (fun a => S (String.length a)) l.
Proof.
  induction l as [|a l IH]; [reflexivity|].
  cbn [map sum_list_with]. rewrite concat_empty_sep_cons, string_length_app.
  by rewrite IH.
Qed.

(** X3. The argument string has one character more than each argument it
    carries, and it is empty exactly when there is no argument after the
    program name. *)
Theorem get_argument_string_length (args : list string) :
  String.length (get_argument_string args) =
    sum_list_with (fun a => S (String.length a)) (tail args) /\
  (get_argument_string args = "" <-> tail args = []).
Proof.
  assert (Hlen : String.length (get_argument_string args) =
            sum_list_with (fun a => S (String.length a)) (tail args)).
  { rewrite get_argument_string_concat_loop. apply sum_list_with_app_length. }
  split; [exact Hlen|]. split.
  - intros Hempty. rewrite Hempty in Hlen.
    destruct (tail args) as [|a l]; [reflexivity|discriminate].
  - unfold get_argument_string. by intros ->.
Qed.

(** ** More on [store]: what a source contributes *)

Lemma current_explicit m k : explicit m k -> exists a, current m k = Some a.
Proof.
  intros (v & Hv & Hd). unfold current. rewrite Hv, Hd. eauto.
Qed.

Lemma current_not_explicit m k : ¬ explicit m k -> current m k = None.
Proof.
  intros Hn. unfold current. destruct (m !! k) as [v|] eqn:Hv; [|done].
  destruct (po.vv_defaulted v) eqn:Hd; [done|].
  destruct Hn. by exists v.
Qed.

Lemma parse_scalar_again sem a tokens :
  scalar sem -> exists e, po.parse sem (Some a) tokens = Error e.
Proof. intros Hs. destruct sem; simpl; eauto. by destruct Hs. Qed.

Lemma store_options_cons desc o rest fin newly m :
  po.store_options desc (o :: rest) fin newly m =
    if String.eqb (po.string_key o) "" then po.store_options desc rest fin newly m
    else if bool_decide (po.string_key o ∈ fin)
    then po.store_options desc rest fin newly m
    else
      match po.find desc (po.string_key o) with
      | None => Error "unrecognised option"
      | Some d =>
          a ← po.parse (po.od_semantic d) (current m (po.string_key o)) (po.value o);
          po.store_options desc rest fin ({[po.string_key o]} ∪ newly)
            (<[po.string_key o := {| po.vv_value := a; po.vv_defaulted := false |}]> m)
      end.
Proof. reflexivity. Qed.

(** A key the source does not name is left as it is by the first loop. *)
Lemma store_options_absent desc opts fin k :
  k ∉ po.string_key <$> opts ->
  forall newly m m' newly',
  po.store_options desc opts fin newly m = Ok (m', newly') ->
  m' !! k = m !! k.
Proof.
  induction opts as [|o rest IH]; intros Hk newly m m' newly' Hs.
  - simpl in Hs. by inversion Hs.
  - rewrite fmap_cons in Hk. apply not_elem_of_cons in Hk as [Hne Hk].
    rewrite store_options_cons in Hs.
    destruct (String.eqb (po.string_key o) ""); [by eapply IH|].
    case_bool_decide; [by eapply IH|].
    destruct (po.find desc (po.string_key o)); [|discriminate].
    apply result_bind_Ok in Hs as (a & _ & Hs).
    rewrite (IH Hk _ _ _ _ Hs). by apply lookup_insert_ne.
Qed.

(** The keys a call assigns are keys of the source. *)
Lemma store_options_newly_from desc opts fin :
  forall newly m m' newly',
  po.store_options desc opts fin newly m = Ok (m', newly') ->
  forall k, k ∈ newly' -> k ∈ newly \/ k ∈ po.string_key <$> opts.
Proof.
  induction opts as [|o rest IH]; intros newly m m' newly' Hs k Hk.
  - simpl in Hs. inversion Hs; subst. by left.
  - rewrite store_options_cons in Hs. rewrite fmap_cons.
    destruct (String.eqb (po.string_key o) "").
    { destruct (IH _ _ _ _ Hs k Hk); [by left|right; by apply elem_of_cons; right]. }
    case_bool_decide.
    { destruct (IH _ _ _ _ Hs k Hk); [by left|right; by apply elem_of_cons; right]. }
    destruct (po.find desc (po.string_key o)); [|discriminate].
    apply result_bind_Ok in Hs as (a & _ & Hs).
    destruct (IH _ _ _ _ Hs k Hk) as [Hin|Hin].
    + apply elem_of_union in Hin as [Hin|Hin]; [|by left].
      apply elem_of_singleton in Hin. subst k. right. apply elem_of_cons. by left.
    + right. apply elem_of_cons. by right.
Qed.

(** Once a scalar option has its value, the rest of the source cannot name
    it again: the call would throw. *)
Lemma store_options_scalar_once desc rest fin k d :
  po.find desc k = Some d -> scalar (po.od_semantic d) ->
  k ∉ fin -> k ≠ "" ->
  forall newly m m' newly',
  explicit m k ->
  po.store_options desc rest fin newly m = Ok (m', newly') ->
  (k ∉ po.string_key <$> rest) /\ m' !! k = m !! k.
Proof.
  intros Hd Hsc Hfin Hne.
  induction rest as [|o rest IH]; intros newly m m' newly' Hex Hs.
  - simpl in Hs. inversion Hs; subst. split; [|done]. apply not_elem_of_nil.
  - rewrite store_options_cons in Hs.
    destruct (decide (po.string_key o = k)) as [Heq|Hneq].
    + rewrite Heq in Hs. rewrite (string_eqb_false k "") in Hs by done.
      rewrite bool_decide_eq_false_2 in Hs by done. rewrite Hd in Hs.
      destruct (current_explicit _ _ Hex) as (a & Ha). rewrite Ha in Hs.
      destruct (parse_scalar_again _ a (po.value o) Hsc) as (e & He).
      rewrite He in Hs. discriminate.
    + assert (Hstep : forall newly0 m0,
        m0 !! k = m !! k ->
        po.store_options desc rest fin newly0 m0 = Ok (m', newly') ->
        (k ∉ po.string_key <$> (o :: rest)) /\ m' !! k = m !! k).
      { intros newly0 m0 Hm0 Hs0.
        destruct (IH newly0 m0 m' newly') as [Hnot Hsame]; [|done|].
        - destruct Hex as (v & Hv & Hdv). exists v. by rewrite Hm0.
        - split; [|congruence]. rewrite fmap_cons.
          apply not_elem_of_cons. by split. }
      destruct (String.eqb (po.string_key o) ""); [by eapply Hstep|].
      case_bool_decide; [by eapply Hstep|].
      destruct (po.find desc (po.string_key o)); [|discriminate].
      apply result_bind_Ok in Hs as (a & _ & Hs).
      eapply Hstep; [|exact Hs]. by apply lookup_insert_ne.
Qed.

(** The value [store] gives a scalar option that the source names: the
    library's parse of that one occurrence. *)
Lemma store_options_scalar desc opts fin k d o :
  po.find desc k = Some d -> scalar (po.od_semantic d) ->
  k ∉ fin -> k ≠ "" ->
  o ∈ opts -> po.string_key o = k ->
  forall newly m m' newly',
  ¬ explicit m k ->
  po.store_options desc opts fin newly m = Ok (m', newly') ->
  exists a,
    po.parse (po.od_semantic d) None (po.value o) = Ok a /\
    m' !! k = Some {| po.vv_value := a; po.vv_defaulted := false |}.
Proof.
  intros Hd Hsc Hfin Hne Hin Hkey.
  induction opts as [|o0 rest IH]; intros newly m m' newly' Hnex Hs.
  - by apply elem_of_nil in Hin.
  - rewrite store_options_cons in Hs.
    destruct (decide (po.string_key o0 = k)) as [Heq|Hneq].
    + rewrite Heq in Hs. rewrite (string_eqb_false k "") in Hs by done.
      rewrite bool_decide_eq_false_2 in Hs by done. rewrite Hd in Hs.
      rewrite (current_not_explicit _ _ Hnex) in Hs.
      apply result_bind_Ok in Hs as (a & Ha & Hs).
      assert (Hex : explicit
                (<[k := {| po.vv_value := a; po.vv_defaulted := false |}]> m) k).
      { eexists. rewrite lookup_insert_eq. split; reflexivity. }
      destruct (store_options_scalar_once _ _ _ _ _ Hd Hsc Hfin Hne _ _ _ _
                  Hex Hs) as [Hnot Hsame].
      apply elem_of_cons in Hin as [->|Hin].
      * exists a. split; [done|]. by rewrite Hsame, lookup_insert_eq.
      * destruct Hnot. apply list_elem_of_fmap. by exists o.
    + apply elem_of_cons in Hin as [->|Hin]; [done|].
      assert (Hstep : forall newly0 m0,
        m0 !! k = m !! k ->
        po.store_options desc rest fin newly0 m0 = Ok (m', newly') ->
        exists a,
          po.parse (po.od_semantic d) None (po.value o) = Ok a /\
          m' !! k = Some {| po.vv_value := a; po.vv_defaulted := false |}).
      { intros newly0 m0 Hm0 Hs0. eapply (IH Hin); [|exact Hs0].
        intros (v & Hv & Hdv). apply Hnex. exists v. by rewrite <- Hm0. }
      destruct (String.eqb (po.string_key o0) ""); [by eapply Hstep|].
      case_bool_decide; [by eapply Hstep|].
      destruct (po.find desc (po.string_key o0)); [|discriminate].
      apply result_bind_Ok in Hs as (a & _ & Hs).
      eapply Hstep; [|exact Hs]. by apply lookup_insert_ne.
Qed.

(** A value the option's type cannot take makes the first loop throw. *)
Lemma store_options_bad_value desc opts fin k d o :
  po.find desc k = Some d -> k ∉ fin -> k ≠ "" ->
  o ∈ opts -> po.string_key o = k ->
  (forall cur, exists e, po.parse (po.od_semantic d) cur (po.value o) = Error e) ->
  forall newly m, exists e, po.store_options desc opts fin newly m = Error e.
Proof.
  intros Hd Hfin Hne Hin Hkey Hbad.
  induction opts as [|o0 rest IH]; intros newly m.
  - by apply elem_of_nil in Hin.
  - rewrite store_options_cons.
    apply elem_of_cons in Hin as [->|Hin].
    + rewrite Hkey. rewrite (string_eqb_false k "") by done.
      rewrite bool_decide_eq_false_2 by done. rewrite Hd.
      destruct (Hbad (current m k)) as (e & He). rewrite He. simpl. eauto.
    + destruct (String.eqb (po.string_key o0) ""); [by apply IH|].
      case_bool_decide; [by apply IH|].
      destruct (po.find desc (po.string_key o0)); [|by eauto].
      destruct (po.parse _ _ _) as [a|e]; simpl; [by apply IH|by eauto].
Qed.

(** What is explicit after the first loop was explicit before or was
    assigned by it. *)
Lemma store_options_explicit_from desc opts fin :
  forall newly m m' newly',
  po.store_options desc opts fin newly m = Ok (m', newly') ->
  forall k, explicit m' k -> explicit m k \/ k ∈ po.string_key <$> opts.
Proof.
  induction opts as [|o rest IH]; intros newly m m' newly' Hs k Hk.
  - simpl in Hs. inversion Hs; subst. by left.
  - rewrite store_options_cons in Hs. rewrite fmap_cons.
    destruct (String.eqb (po.string_key o) "").
    { destruct (IH _ _ _ _ Hs k Hk); [by left|right; by apply elem_of_cons; right]. }
    case_bool_decide.
    { destruct (IH _ _ _ _ Hs k Hk); [by left|right; by apply elem_of_cons; right]. }
    destruct (po.find desc (po.string_key o)); [|discriminate].
    apply result_bind_Ok in Hs as (a & _ & Hs).
    destruct (IH _ _ _ _ Hs k Hk) as [Hex|Hin].
    + destruct (decide (po.string_key o = k)) as [Heq|Hneq].
      * right. apply elem_of_cons. by left.
      * left. destruct Hex as (v & Hv & Hdv). exists v.
        by rewrite lookup_insert_ne in Hv.
    + right. apply elem_of_cons. by right.
Qed.

Lemma apply_defaults_explicit all k :
  forall m : gmap string po.variable_value,
  explicit (po.apply_defaults all m) k -> explicit m k.
Proof.
  induction all as [|d rest IH]; intros m Hex; [exact Hex|].
  simpl in Hex. apply IH in Hex.
  destruct (m !! po.od_name d) eqn:Hm; [exact Hex|].
  destruct (po.od_default d); [|exact Hex].
  destruct Hex as (v & Hv & Hdv).
  destruct (decide (po.od_name d = k)) as [Heq|Hneq].
  - subst k. rewrite lookup_insert_eq in Hv. inversion Hv; subst. discriminate.
  - exists v. by rewrite lookup_insert_ne in Hv.
Qed.

(** After the command line is stored, exactly the options it names are
    final and explicit. *)
Lemma argv_store_shape desc opts vm0 k :
  po.store desc opts po.empty_map = Ok vm0 ->
  k ∉ po.string_key <$> opts ->
  (k ∉ po.vm_final vm0) /\ ¬ explicit (po.vm_values vm0) k.
Proof.
  intros Hst Hk. apply store_inv in Hst as (m & newly & Hso & ->). simpl in *.
  split.
  - intros Hin. apply elem_of_union in Hin as [Hin|Hin];
      [by apply not_elem_of_empty in Hin|].
    destruct (store_options_newly_from _ _ _ _ _ _ _ Hso k Hin) as [Hin'|Hin'];
      [by apply not_elem_of_empty in Hin'|done].
  - intros Hex. apply apply_defaults_explicit in Hex.
    destruct (store_options_explicit_from _ _ _ _ _ _ _ Hso k Hex) as [Hex'|Hin];
      [|done].
    destruct Hex' as (v & Hv & _). by rewrite lookup_empty in Hv.
Qed.

(** A registered scalar option that a successful [store] finds in its
    source, not final before, holds the parse of that occurrence. *)
Lemma store_scalar desc opts vm vm' k d o :
  po.find desc k = Some d -> scalar (po.od_semantic d) ->
  k ∉ po.vm_final vm -> ¬ explicit (po.vm_values vm) k -> k ≠ "" ->
  o ∈ opts -> po.string_key o = k ->
  po.store desc opts vm = Ok vm' ->
  exists a,
    po.parse (po.od_semantic d) None (po.value o) = Ok a /\
    po.vm_values vm' !! k = Some {| po.vv_value := a; po.vv_defaulted := false |}.
Proof.
  intros Hd Hsc Hfin Hnex Hne Hin Hkey Hst.
  apply store_inv in Hst as (m & newly & Hso & ->). simpl.
  destruct (store_options_scalar _ _ _ _ _ _ Hd Hsc Hfin Hne Hin Hkey _ _ _ _
              Hnex Hso) as (a & Ha & Hm).
  exists a. split; [done|]. by apply apply_defaults_lookup_Some.
Qed.

(** A registered option with a default that the source does not name and
    the map does not hold gets the default. *)
Lemma store_default desc opts vm vm' k d a :
  po.find desc k = Some d -> po.od_default d = Some a ->
  k ∉ po.string_key <$> opts ->
  po.store desc opts vm = Ok vm' ->
  po.vm_values vm' !! k =
    match po.vm_values vm !! k with
    | Some v => Some v
    | None => Some {| po.vv_value := a; po.vv_defaulted := true |}
    end.
Proof.
  intros Hd Ha Hk Hst.
  apply store_inv in Hst as (m & newly & Hso & ->). simpl.
  rewrite (apply_defaults_first _ _ _ _ Hd Ha).
  by rewrite (store_options_absent _ _ _ _ Hk _ _ _ _ Hso).
Qed.

Lemma parse_config_file_keys lines desc opts :
  po.parse_config_file lines desc = Ok opts ->
  opts = (fun kv => {| po.string_key := kv.1; po.value := [kv.2] |}) <$> lines.
Proof.
  revert opts. induction lines as [|[k v] rest IH]; intros opts Hp.
  - simpl in Hp. by inversion Hp.
  - simpl in Hp. destruct (po.registered desc k); [|discriminate].
    apply result_bind_Ok in Hp as (opts' & Hp' & Hp).
    inversion Hp; subst. rewrite fmap_cons. simpl. f_equal. by apply IH.
Qed.

(** ** The command line, before anything else happens *)

Section CommandLine.

Context {macros : Macros} {boost : bf.library}.

Lemma find_all_help w : po.find (all_options w) "help" = Some help_option.
Proof. unfold all_options. destruct WIN32; reflexivity. Qed.

Lemma find_all_version w : po.find (all_options w) "version" = Some version_option.
Proof. unfold all_options. destruct WIN32; reflexivity. Qed.

Lemma find_all_os_version w :
  po.find (all_options w) "os-version" = Some os_version_option.
Proof. unfold all_options. destruct WIN32; reflexivity. Qed.

Lemma empty_not_explicit k : ¬ explicit (po.vm_values po.empty_map) k.
Proof. intros (v & Hv & _). simpl in Hv. by rewrite lookup_empty in Hv. Qed.

(** A flag on the command line is present afterwards. *)
Lemma flag_present w opts vm0 (arg : arg_descriptor) d :
  po.find (all_options w) (name arg) = Some d ->
  po.od_semantic d = po.sem_bool_switch ->
  name arg ≠ "" ->
  po.store (all_options w) opts po.empty_map = Ok vm0 ->
  flag (name arg) ∈ opts ->
  arg_present vm0 arg = true.
Proof.
  intros Hd Hsem Hne Hst Hin.
  destruct (store_scalar _ _ _ _ _ _ _ Hd ltac:(by rewrite Hsem)
              (not_elem_of_empty _) (empty_not_explicit _) Hne Hin eq_refl Hst)
    as (a & Ha & Hv).
  rewrite Hsem in Ha. simpl in Ha. inversion Ha; subst a.
  unfold arg_present. by rewrite Hv.
Qed.

(** A flag the command line does not name is absent afterwards. *)
Lemma flag_absent w opts vm0 (arg : arg_descriptor) d :
  po.find (all_options w) (name arg) = Some d ->
  po.od_default d = Some (po.any_bool false) ->
  po.store (all_options w) opts po.empty_map = Ok vm0 ->
  name arg ∉ po.string_key <$> opts ->
  arg_present vm0 arg = false.
Proof.
  intros Hd Hdef Hst Hk.
  pose proof (store_default _ _ _ _ _ _ _ Hd Hdef Hk Hst) as Hv.
  simpl in Hv. rewrite lookup_empty in Hv.
  unfold arg_present. by rewrite Hv.
Qed.

Lemma main_parse_failure w s e :
  (opts ← parsed_argv w; po.store (all_options w) opts po.empty_map) = Error e ->
  main w s = (1, s, [EvCerr e]).
Proof.
  intros He. unfold main, main_try, main_resolve, parse_options.
  rewrite He. reflexivity.
Qed.

Lemma main_help w s opts vm0 :
  parsed_argv w = Ok opts ->
  po.store (all_options w) opts po.empty_map = Ok vm0 ->
  arg_present vm0 arg_help = true ->
  main w s = (0, s, [EvPrintHelp (usage w)]).
Proof.
  intros Hargv Hst Hhelp. unfold main, main_try, main_resolve, parse_options,
    print_help.
  rewrite Hargv. simpl. rewrite Hst.
  rewrite bind_run, bind_run. simpl. rewrite bind_run, Hhelp. reflexivity.
Qed.

Lemma main_query w s opts vm0 :
  parsed_argv w = Ok opts ->
  po.store (all_options w) opts po.empty_map = Ok vm0 ->
  arg_present vm0 arg_help = false ->
  arg_present vm0 arg_version || arg_present vm0 arg_os_version = true ->
  main w s = (0, s, [EvQuerySystemInfo]).
Proof.
  intros Hargv Hst Hhelp Hquery. unfold main, main_try, main_resolve,
    parse_options, print_help, query_system_info.
  rewrite Hargv. simpl. rewrite Hst.
  rewrite bind_run, bind_run. simpl. rewrite bind_run, Hhelp. simpl.
  rewrite bind_run, Hquery. reflexivity.
Qed.

(** X4. With [--help] on an accepted command line, [main] prints the usage
    and returns 0, and that is all it does: no directory is created, no
    configuration file is read (so a broken one does no harm), no command is
    forwarded and nothing is launched, whatever else the command line
    holds. *)
Theorem help_ends_main_at_once w s opts vm0 :
  parsed_argv w = Ok opts ->
  po.store (all_options w) opts po.empty_map = Ok vm0 ->
  flag "help" ∈ opts ->
  main w s = (0, s, [EvPrintHelp (usage w)]).
Proof.
  intros Hargv Hst Hin. eapply main_help; [done..|].
  eapply (flag_present w opts vm0 arg_help); [apply find_all_help|done..].
Qed.

(** A system-query flag on an accepted command line without [--help]
    makes [main] print the information and return 0, again before any
    directory, configuration file, command or launch. *)
Lemma system_query_ends_main_at_once w s opts vm0 :
  parsed_argv w = Ok opts ->
  po.store (all_options w) opts po.empty_map = Ok vm0 ->
  "help" ∉ po.string_key <$> opts ->
  flag "version" ∈ opts \/ flag "os-version" ∈ opts ->
  main w s = (0, s, [EvQuerySystemInfo]).
Proof.
  intros Hargv Hst Hnohelp Hq. eapply main_query; [done..| |].
  - eapply (flag_absent w opts vm0 arg_help); [apply find_all_help|done..].
  - apply orb_true_intro. destruct Hq as [Hin|Hin]; [left|right].
    + eapply (flag_present w opts vm0 arg_version);
        [apply find_all_version|done..].
    + eapply (flag_present w opts vm0 arg_os_version);
        [apply find_all_os_version|done..].
Qed.

Lemma parse_int_bad cur x :
  str.lexical_cast_int x = None ->
  exists e, po.parse po.sem_int cur [x] = Error e.
Proof.
  intros Hx. simpl. destruct cur; simpl; [by eauto|]. rewrite Hx. by eauto.
Qed.

(** X5. A log level on the command line that is no 32-bit decimal integer
    makes [main] print one error and return 1; the state is untouched. *)
Theorem non_integer_log_level_is_refused w s opts x :
  parsed_argv w = Ok opts ->
  {| po.string_key := "log-level"; po.value := [x] |} ∈ opts ->
  str.lexical_cast_int x = None ->
  exists e, main w s = (1, s, [EvCerr e]).
Proof.
  intros Hargv Hin Hx.
  destruct (store_options_bad_value _ _ ∅ _ _ _ (find_all_log_level w)
              (not_elem_of_empty _) ltac:(done) Hin eq_refl
              (fun cur => parse_int_bad cur x Hx) ∅ ∅) as (e & He).
  exists e. apply main_parse_failure. rewrite Hargv. simpl.
  unfold po.store. simpl. by rewrite He.
Qed.

Lemma store_options_app desc l1 l2 fin :
  forall newly m,
  po.store_options desc (l1 ++ l2) fin newly m =
    (r ← po.store_options desc l1 fin newly m;
     po.store_options desc l2 fin r.2 r.1).
Proof.
  induction l1 as [|o l1 IH]; intros newly m; [reflexivity|].
  rewrite <- app_comm_cons, !store_options_cons.
  destruct (String.eqb (po.string_key o) ""); [apply IH|].
  case_bool_decide; [apply IH|].
  destruct (po.find desc (po.string_key o)); [|reflexivity].
  destruct (po.parse _ _ _); simpl; [apply IH|reflexivity].
Qed.

Lemma store_options_twice desc l1 o1 l2 o2 l3 fin k d :
  po.find desc k = Some d -> scalar (po.od_semantic d) ->
  k ∉ fin -> k ≠ "" ->
  po.string_key o1 = k -> po.string_key o2 = k ->
  forall newly m,
  exists e,
    po.store_options desc (l1 ++ o1 :: l2 ++ o2 :: l3) fin newly m = Error e.
Proof.
  intros Hd Hsc Hfin Hne Hk1 Hk2 newly m.
  destruct (po.store_options desc _ fin newly m) as [[m' newly']|e] eqn:Hs;
    [|by eauto].
  exfalso. rewrite store_options_app in Hs.
  apply result_bind_Ok in Hs as ([m1 n1] & _ & Hs). cbn [fst snd] in Hs.
  rewrite store_options_cons, Hk1 in Hs.
  rewrite (string_eqb_false k "") in Hs by done.
  rewrite bool_decide_eq_false_2 in Hs by done. rewrite Hd in Hs.
  apply result_bind_Ok in Hs as (a & _ & Hs).
  assert (Hex : explicit
            (<[k := {| po.vv_value := a; po.vv_defaulted := false |}]> m1) k).
  { eexists. rewrite lookup_insert_eq. split; reflexivity. }
  destruct (store_options_scalar_once _ _ _ _ _ Hd Hsc Hfin Hne _ _ _ _ Hex Hs)
    as [Hnot _].
  apply Hnot. rewrite fmap_app, fmap_cons, Hk2.
  apply elem_of_app. right. apply elem_of_cons. by left.
Qed.

(** X6. An option of a single value (a path, the level, a flag) that the
    command line gives twice is refused: [main] prints one error and
    returns 1, whatever the two values are. *)
Theorem option_given_twice_is_refused w s l1 o1 l2 o2 l3 k d :
  parsed_argv w = Ok (l1 ++ o1 :: l2 ++ o2 :: l3) ->
  po.find (all_options w) k = Some d -> scalar (po.od_semantic d) ->
  k ≠ "" ->
  po.string_key o1 = k -> po.string_key o2 = k ->
  exists e, main w s = (1, s, [EvCerr e]).
Proof.
  intros Hargv Hd Hsc Hne Hk1 Hk2.
  destruct (store_options_twice _ l1 o1 l2 o2 l3 ∅ _ _ Hd Hsc
              (not_elem_of_empty _) Hne Hk1 Hk2 ∅ ∅) as (e & He).
  exists e. apply main_parse_failure. rewrite Hargv. simpl.
  unfold po.store. simpl. by rewrite He.
Qed.

Lemma read_file_in w p lines :
  read_file w p = Ok lines -> exists f, f ∈ files w /\ f.2 = lines.
Proof.
  unfold read_file.
  destruct (List.find _ (files w)) as [f|] eqn:Hf; [|discriminate].
  intros Heq. inversion Heq; subst. apply find_some in Hf as [Hin _].
  exists f. split; [by apply list_elem_of_In|done].
Qed.

(** X7. An option that neither the command line nor any configuration file
    names holds its registered default in the resolved configuration, marked
    as defaulted: the data directory, the configuration file, the log file,
    the log level ([LOG_LEVEL_0]) and the daemon's own options alike. *)
Theorem unset_option_has_default w s vm s1 evs1 opts k d a :
  main_resolve w s = (Val vm, s1, evs1) ->
  parsed_argv w = Ok opts ->
  po.find (all_options w) k = Some d -> po.od_default d = Some a ->
  k ∉ po.string_key <$> opts ->
  Forall (fun f => k ∉ f.2.*1) (files w) ->
  po.vm_values vm !! k = Some {| po.vv_value := a; po.vv_defaulted := true |}.
Proof.
  intros Hr Hargv Hd Ha Hk Hfiles.
  apply main_resolve_inv in Hr
    as (opts' & vm0 & s0 & Hargv' & Hst & _ & _ & _ & Hcf).
  rewrite Hargv in Hargv'. inversion Hargv'; subst opts'.
  pose proof (store_default _ _ _ _ _ _ _ Hd Ha Hk Hst) as Hv0.
  simpl in Hv0. rewrite lookup_empty in Hv0.
  apply main_parse_config_file_inv in Hcf as (_ & _ & p & _ & Hcf).
  destruct (path_exists w s0 p); [|by subst vm].
  destruct Hcf as (lines & copts & Hrd & Hpc & Hst2).
  apply read_file_in in Hrd as (f & Hf & <-).
  rewrite Forall_forall in Hfiles. specialize (Hfiles f Hf).
  apply parse_config_file_keys in Hpc. subst copts.
  apply store_inv in Hst2 as (m & newly & Hso & ->). cbn [po.vm_values].
  apply apply_defaults_lookup_Some.
  assert (Hnot : k ∉ po.string_key <$>
            ((fun kv : string * string =>
                {| po.string_key := kv.1; po.value := [kv.2] |}) <$> f.2)).
  { by rewrite <- list_fmap_compose. }
  by rewrite (store_options_absent _ _ _ _ Hnot _ _ _ _ Hso).
Qed.

(** X8. What the configuration file says about a single-valued core
    setting that the command line leaves alone is what the resolved
    configuration holds, as an explicit value: the library's parse of the
    file's line. *)
Theorem config_file_fills_what_argv_leaves
    w s vm s1 evs1 opts vm0 p lines k x d :
  main_resolve w s = (Val vm, s1, evs1) ->
  parsed_argv w = Ok opts ->
  po.store (all_options w) opts po.empty_map = Ok vm0 ->
  config_path_of w vm0 = Ok p ->
  read_file w p = Ok lines ->
  (k, x) ∈ lines ->
  k ∉ po.string_key <$> opts -> k ≠ "" ->
  po.find (core_settings w) k = Some d -> scalar (po.od_semantic d) ->
  exists a,
    po.parse (po.od_semantic d) None [x] = Ok a /\
    po.vm_values vm !! k = Some {| po.vv_value := a; po.vv_defaulted := false |}.
Proof.
  intros Hr Hargv Hst Hp Hrd Hin Hk Hne Hd Hsc.
  apply main_resolve_inv in Hr
    as (opts' & vm0' & s0 & Hargv' & Hst' & _ & _ & _ & Hcf).
  rewrite Hargv in Hargv'. inversion Hargv'; subst opts'.
  rewrite Hst in Hst'. inversion Hst'; subst vm0'.
  apply main_parse_config_file_inv in Hcf as (_ & _ & p' & Hp' & Hcf).
  rewrite Hp in Hp'. inversion Hp'; subst p'.
  rewrite (read_file_exists _ s0 _ _ Hrd) in Hcf.
  destruct Hcf as (lines' & copts & Hrd' & Hpc & Hst2).
  rewrite Hrd in Hrd'. inversion Hrd'; subst lines'.
  apply parse_config_file_keys in Hpc.
  destruct (argv_store_shape _ _ _ k Hst Hk) as [Hnf Hnex].
  eapply (store_scalar _ copts vm0 vm k d
            {| po.string_key := k; po.value := [x] |}); try done.
  subst copts. apply list_elem_of_fmap. by exists (k, x).
Qed.

Lemma store_options_unknown desc opts fin k :
  po.find desc k = None -> k ∉ fin -> k ≠ "" ->
  k ∈ po.string_key <$> opts ->
  forall newly m, exists e, po.store_options desc opts fin newly m = Error e.
Proof.
  intros Hd Hfin Hne Hin.
  induction opts as [|o rest IH]; intros newly m.
  - by apply elem_of_nil in Hin.
  - rewrite store_options_cons. rewrite fmap_cons in Hin.
    apply elem_of_cons in Hin as [Heq|Hin].
    + rewrite <- Heq. rewrite (string_eqb_false k "") by done.
      rewrite bool_decide_eq_false_2 by done. rewrite Hd. by eauto.
    + destruct (String.eqb (po.string_key o) ""); [by apply IH|].
      case_bool_decide; [by apply IH|].
      destruct (po.find desc (po.string_key o)); [|by eauto].
      destruct (po.parse _ _ _) as [a|e]; simpl; [by apply IH|by eauto].
Qed.

Lemma find_all_posix w k :
  WIN32 = false ->
  k ≠ "daemon_command" -> k ≠ "help" -> k ≠ "version" -> k ≠ "os-version" ->
  k ≠ "data-dir" -> k ≠ "config-file" -> k ≠ "detach" ->
  k ≠ "log-file" -> k ≠ "log-level" ->
  po.find (all_options w) k = po.find (t_daemon_init_options w) k.
Proof.
  intros Hwin H1 H2 H3 H4 H5 H6 H7 H8 H9.
  unfold all_options. rewrite Hwin.
  unfold visible_options, core_settings, init_help_option,
    init_system_query_options, add_arg, add_arg_default.
  cbn [app]. rewrite !find_cons. cbn [po.od_name name arg_command arg_help
    arg_version arg_os_version arg_data_dir arg_config_file arg_detach
    arg_log_file arg_log_level].
  by rewrite !string_eqb_false by congruence.
Qed.

(** X9. A build without [WIN32] does not register [run-as-service].
    Unless the daemon's own options claim the name, the flag is never
    present in a resolved configuration there, and a command line that
    carries it is refused with one error and exit code 1. *)
Theorem posix_knows_no_run_as_service w s :
  WIN32 = false ->
  po.find (t_daemon_init_options w) "run-as-service" = None ->
  (forall vm s1 evs1,
     main_resolve w s = (Val vm, s1, evs1) ->
     arg_present vm arg_windows_service = false) /\
  (forall opts,
     parsed_argv w = Ok opts ->
     "run-as-service" ∈ po.string_key <$> opts ->
     exists e, main w s = (1, s, [EvCerr e])).
Proof.
  intros Hwin Hdaemon.
  assert (Hall : po.find (all_options w) "run-as-service" = None).
  { by rewrite find_all_posix. }
  assert (Hcore : po.find (core_settings w) "run-as-service" = None).
  { by rewrite find_core_other. }
  split.
  - intros vm s1 evs1 Hr.
    apply main_resolve_inv in Hr
      as (opts & vm0 & s0 & _ & Hst & _ & _ & _ & Hcf).
    pose proof (store_unregistered _ _ _ _ _ Hall Hst) as Hv0.
    simpl in Hv0. rewrite lookup_empty in Hv0.
    apply main_parse_config_file_inv in Hcf as (_ & _ & p & _ & Hcf).
    assert (Hv : po.vm_values vm !! "run-as-service" = None).
    { destruct (path_exists w s0 p); [|by subst vm].
      destruct Hcf as (lines & copts & _ & _ & Hst2).
      by rewrite (store_unregistered _ _ _ _ _ Hcore Hst2). }
    unfold arg_present. cbn [name arg_windows_service]. by rewrite Hv.
  - intros opts Hargv Hin.
    destruct (store_options_unknown _ opts ∅ _ Hall (not_elem_of_empty _)
                ltac:(done) Hin ∅ ∅) as (e & He).
    exists e. apply main_parse_failure. rewrite Hargv. simpl.
    unfold po.store. simpl. by rewrite He.
Qed.

End CommandLine.

(** ** The launch, case by case *)

Section LaunchCases.

Context {macros : Macros} {boost : bf.library}.

Lemma in_range_test n :
  in_range n -> (n <? LOG_LEVEL_MIN) || (n >? LOG_LEVEL_MAX) = false.
Proof.
  intros [Hlo Hhi]. apply orb_false_intro.
  - by apply Z.ltb_ge.
  - rewrite Z.gtb_ltb. by apply Z.ltb_ge.
Qed.

Lemma main_set_log_level_in_range vm s n :
  get_arg_int vm arg_log_level = Ok n ->
  in_range n ->
  main_set_log_level vm s =
    if log_detalisation_level s =? n then (Val tt, s, [])
    else (Val tt, set_level n s, [EvSetLogLevel n; level_set_message n]).
Proof.
  intros Hn Hin. unfold main_set_log_level. rewrite bind_run, Hn. simpl.
  rewrite (in_range_test n Hin). rewrite bind_run. simpl.
  by destruct (log_detalisation_level s =? n).
Qed.

(** The launch path without any assumption on the daemon's options. *)
Lemma main_launch_path_any w s vm s1 evs1 :
  main_resolve w s = (Val vm, s1, evs1) ->
  arg_present vm arg_command = false ->
  exists n s2 e2,
    get_arg_int vm arg_log_level = Ok n /\
    main_set_log_level vm (set_level LOG_LEVEL_0 s1) = (Val tt, s2, e2) /\
    main w s =
      (let '(code, s', e') := exit_of (main_sinks_and_launch w vm s2) in
       (code, s', evs1 ++ EvSetLogLevel LOG_LEVEL_0 :: e2 ++ e')).
Proof.
  intros Hr Hc.
  destruct (resolved_args _ _ _ _ _ Hr) as (_ & (n & Hn) & _).
  destruct (main_set_log_level_Val vm (set_level LOG_LEVEL_0 s1) n Hn)
    as (s2 & e2 & Hset).
  exists n, s2, e2. split; [done|]. split; [done|].
  rewrite (main_after_resolve _ _ _ _ _ Hr).
  rewrite (main_dispatch_no_command _ _ _ Hc).
  rewrite bind_run, main_start_log_level_run. cbv beta iota.
  rewrite bind_run, Hset. cbv beta iota.
  destruct (main_sinks_and_launch w vm s2) as [[[c|c|e] s3] e3]; simpl; try done.
  do 3 f_equal. by rewrite <- app_assoc.
Qed.

(** X10. A requested log level within [[LOG_LEVEL_MIN, LOG_LEVEL_MAX]] is
    the level [main] ends with on every launch path.  A request other than
    [LOG_LEVEL_0] is set and announced right after the reset to
    [LOG_LEVEL_0]; a request of [LOG_LEVEL_0] itself causes neither a second
    setting nor a message. *)
Theorem in_range_log_level_is_applied w s vm s1 evs1 n :
  main_resolve w s = (Val vm, s1, evs1) ->
  arg_present vm arg_command = false ->
  get_arg_int vm arg_log_level = Ok n ->
  in_range n ->
  log_detalisation_level (main w s).1.2 = n /\
  exists rest,
    (main w s).2 = evs1 ++ EvSetLogLevel LOG_LEVEL_0 :: level_events n ++ rest /\
    Forall (fun e => is_set_log_level e = false) rest.
Proof.
  intros Hr Hc Hn Hin.
  destruct (main_launch_path_any _ _ _ _ _ Hr Hc)
    as (n' & s2 & e2 & Hn' & Hset & Hmain).
  rewrite Hn in Hn'. inversion Hn'; subst n'.
  rewrite (main_set_log_level_in_range _ _ _ Hn Hin) in Hset.
  cbn [log_detalisation_level set_level] in Hset.
  pose proof (main_sinks_and_launch_level w vm s2) as Hlevel.
  pose proof (exit_of_emits (fun e => is_set_log_level e = false) _ s2
                (main_sinks_and_launch_no_level_event w vm) ltac:(done)) as Hev.
  pose proof (exit_of_state (main_sinks_and_launch w vm) s2) as Hst.
  rewrite Hmain.
  destruct (main_sinks_and_launch w vm s2) as [[o s3] e3].
  specialize (Hlevel _ _ _ eq_refl).
  destruct (exit_of (o, s3, e3)) as [[code s'] e']. simpl in *. subst s'.
  unfold level_events.
  destruct (LOG_LEVEL_0 =? n) eqn:Heq; inversion Hset; subst s2 e2.
  - apply Z.eqb_eq in Heq. split; [by rewrite Hlevel|]. by exists e'.
  - split; [by rewrite Hlevel|]. by exists e'.
Qed.

End LaunchCases.

Section DetachAndService.

Context {macros : Macros} {boost : bf.library}.

Lemma sink_events_no_daemonization w vm d f s :
  Forall (fun e => is_daemonization e = false) (sink_events w vm d f s).
Proof. unfold sink_events. destruct (attached vm); by repeat constructor. Qed.

(** What precedes the launch on a launch path does not belong to it. *)
Lemma before_launch_no_daemonization w s vm s1 evs1 d f s2 e2 :
  main_resolve w s = (Val vm, s1, evs1) ->
  main_set_log_level vm (set_level LOG_LEVEL_0 s1) = (Val tt, s2, e2) ->
  Forall (fun e => is_daemonization e = false)
    (evs1 ++ EvSetLogLevel LOG_LEVEL_0 :: e2 ++ sink_events w vm d f s2).
Proof.
  intros Hr Hset. apply Forall_app. split.
  - eapply Forall_impl; [by eapply main_resolve_quiet|]. by intros e (_ & _ & He).
  - constructor; [done|]. apply Forall_app. split.
    + by eapply (main_set_log_level_no_daemonization vm).
    + apply sink_events_no_daemonization.
Qed.

Lemma launch_path_services w s vm s1 evs1 d f s2 e2 :
  main_resolve w s = (Val vm, s1, evs1) ->
  main_set_log_level vm (set_level LOG_LEVEL_0 s1) = (Val tt, s2, e2) ->
  services (with_sinks w vm d f s2) = services s.
Proof.
  intros Hr Hset.
  destruct (main_resolve_state _ _ _ _ _ Hr) as (_ & _ & Hsv1).
  pose proof (main_set_log_level_services vm _ _ _ _ Hset) as Hsv2.
  simpl in Hsv2. by rewrite with_sinks_services, Hsv2, Hsv1.
Qed.

Lemma main_launch_windows_detach w s :
  WIN32 = true ->
  let installed :=
    install_service_accepted w &&
    bool_decide (WINDOWS_SERVICE_NAME ∉ services s) in
  exists s',
    main_launch w true false s =
      (Val tt, s',
       EvInstallService WINDOWS_SERVICE_NAME (service_arguments w) ::
       rollback_events installed (start_service_accepted w)) /\
    services s' =
      if installed && start_service_accepted w
      then {[WINDOWS_SERVICE_NAME]} ∪ services s else services s.
Proof.
  intros Hwin installed. unfold main_launch. rewrite Hwin.
  rewrite bind_run. unfold install_service. fold installed.
  destruct installed eqn:Hinst; simpl.
  - rewrite bind_run. unfold start_service. simpl.
    destruct (start_service_accepted w); simpl.
    + eexists. split; reflexivity.
    + eexists. split; [reflexivity|]. simpl.
      subst installed. apply andb_prop in Hinst as [_ Hfree].
      apply bool_decide_eq_true in Hfree.
      apply set_eq. intros x. rewrite elem_of_difference, elem_of_union,
        elem_of_singleton. split; [by intros [[->|?] ?]|].
      intros Hx. split; [by right|]. by intros ->.
  - eexists. split; reflexivity.
Qed.

(** X11. Detaching on Windows never runs the daemon in the installing
    process and always returns 0.  It asks for the installation once, asks
    for the start only if that succeeded and for the removal only if the
    start then failed; the registry ends with the service added exactly when
    both succeeded, and is otherwise as it was.  (The daemon's own options
    are taken to leave the name [data-dir] to [main].) *)
Theorem windows_detach_registers_all_or_nothing w s vm s1 evs1 :
  WIN32 = true ->
  main_resolve w s = (Val vm, s1, evs1) ->
  arg_present vm arg_command = false ->
  po.registered (t_daemon_init_options w) "data-dir" = false ->
  arg_present vm arg_windows_service = false ->
  arg_present vm arg_detach = true ->
  let installed :=
    install_service_accepted w &&
    bool_decide (WINDOWS_SERVICE_NAME ∉ services s) in
  (main w s).1.1 = 0 /\
  services (main w s).1.2 =
    (if installed && start_service_accepted w
     then {[WINDOWS_SERVICE_NAME]} ∪ services s else services s) /\
  exists before,
    (main w s).2 =
      before ++
      EvInstallService WINDOWS_SERVICE_NAME (service_arguments w) ::
      rollback_events installed (start_service_accepted w) /\
    Forall (fun e => is_daemonization e = false) before.
Proof.
  intros Hwin Hr Hc Hsane Hsvc Hdet installed.
  destruct (main_launch_path _ _ _ _ _ Hr Hc Hsane)
    as (n & d & f & s2 & e2 & Hn & Hd & Hf & Hset & Hmain).
  pose proof (launch_path_services w s vm s1 evs1 d f s2 e2 Hr Hset) as Hsv.
  destruct (main_launch_windows_detach w (with_sinks w vm d f s2) Hwin)
    as (s' & Hl & Hs').
  rewrite Hsv in Hl, Hs'. fold installed in Hl, Hs'.
  rewrite Hmain, Hsvc, Hdet. rewrite bind_run, Hl. simpl.
  split; [done|]. split; [done|].
  exists (evs1 ++ EvSetLogLevel LOG_LEVEL_0 :: e2 ++ sink_events w vm d f s2).
  split; [|by eapply before_launch_no_daemonization].
  rewrite app_nil_r. rewrite <- !app_assoc. simpl. by rewrite <- !app_assoc.
Qed.

(** X12. With [run-as-service] present on Windows, [main] logs the version
    line, hands the daemon to the service runner and returns 0.  It does so
    whether or not [detach] is present as well: nothing is installed,
    started or removed, and the registry is left as it was.  (The daemon's
    own options are taken to leave the name [data-dir] to [main].) *)
Theorem windows_service_relaunch_runs_under_the_runner w s vm s1 evs1 :
  WIN32 = true ->
  main_resolve w s = (Val vm, s1, evs1) ->
  arg_present vm arg_command = false ->
  po.registered (t_daemon_init_options w) "data-dir" = false ->
  arg_present vm arg_windows_service = true ->
  (main w s).1.1 = 0 /\
  services (main w s).1.2 = services s /\
  exists before,
    (main w s).2 =
      before ++
      [EvLogPrintL0 version_line; EvServiceRunner WINDOWS_SERVICE_NAME] /\
    Forall (fun e => is_daemonization e = false) before.
Proof.
  intros Hwin Hr Hc Hsane Hsvc.
  destruct (main_launch_path _ _ _ _ _ Hr Hc Hsane)
    as (n & d & f & s2 & e2 & Hn & Hd & Hf & Hset & Hmain).
  pose proof (launch_path_services w s vm s1 evs1 d f s2 e2 Hr Hset) as Hsv.
  rewrite Hmain, Hsvc. unfold main_launch. rewrite Hwin.
  rewrite !bind_run. simpl.
  split; [done|]. split; [done|].
  exists (evs1 ++ EvSetLogLevel LOG_LEVEL_0 :: e2 ++ sink_events w vm d f s2).
  split; [|by eapply before_launch_no_daemonization].
  rewrite <- !app_assoc. simpl. by rewrite <- !app_assoc.
Qed.

(** X13. Detaching without [WIN32] forks once.  The parent returns 0
    without logging the version or running the daemon; the child logs the
    version line, runs the daemon and returns 0; a failed fork reaches the
    handler of [main], which logs it and returns 1 without running the
    daemon.  (The daemon's own options are taken to leave the name
    [data-dir] to [main].) *)
Theorem posix_detach_forks_once w s vm s1 evs1 :
  WIN32 = false ->
  main_resolve w s = (Val vm, s1, evs1) ->
  arg_present vm arg_command = false ->
  po.registered (t_daemon_init_options w) "data-dir" = false ->
  arg_present vm arg_windows_service = false ->
  arg_present vm arg_detach = true ->
  (main w s).1.1 = (after_fork w).1 /\
  exists before,
    (main w s).2 = before ++ (after_fork w).2 /\
    Forall (fun e => is_daemonization e = false) before.
Proof.
  intros Hwin Hr Hc Hsane Hsvc Hdet.
  destruct (main_launch_path _ _ _ _ _ Hr Hc Hsane)
    as (n & d & f & s2 & e2 & Hn & Hd & Hf & Hset & Hmain).
  rewrite Hmain, Hsvc, Hdet. unfold main_launch. rewrite Hwin.
  unfold after_fork, posix_fork.
  rewrite !bind_run.
  destruct (fork_outcome w); simpl.
  - split; [done|].
    exists (evs1 ++ EvSetLogLevel LOG_LEVEL_0 :: e2 ++ sink_events w vm d f s2).
    split; [|by eapply before_launch_no_daemonization].
    rewrite <- !app_assoc. simpl. by rewrite <- !app_assoc.
  - split; [done|].
    exists (evs1 ++ EvSetLogLevel LOG_LEVEL_0 :: e2 ++ sink_events w vm d f s2).
    split; [|by eapply before_launch_no_daemonization].
    rewrite <- !app_assoc. simpl. by rewrite <- !app_assoc.
  - split; [done|].
    exists (evs1 ++ EvSetLogLevel LOG_LEVEL_0 :: e2 ++ sink_events w vm d f s2).
    split; [|by eapply before_launch_no_daemonization].
    rewrite <- !app_assoc. simpl. by rewrite <- !app_assoc.
Qed.

End DetachAndService.

(** ** Every run of [main] *)

Section ExitsWell.

Context {A B : Type}.

Lemma exits_well_bind (m : M A) (f : A -> M B) :
  exits_well m -> (forall a, exits_well (f a)) -> exits_well (m ≫= f).
Proof.
  intros Hm Hf s o s' evs c. rewrite bind_run.
  destruct (m s) as [[[a|c1|e] s1] evs1] eqn:Hms.
  - destruct (f a s1) as [[o2 s2] evs2] eqn:Hfs. intros Heq Ho.
    simplify_eq.
    destruct (Hf a s1 _ _ _ c Hfs eq_refl) as [Hc|(Hc & l & msg & ->)];
      [by left|right].
    split; [done|]. exists (evs1 ++ l), msg. by rewrite app_assoc.
  - intros Heq Ho. simplify_eq. exact (Hm _ _ _ _ _ Hms eq_refl).
  - intros Heq Ho. simplify_eq.
Qed.

(** A computation that never ends the process exits well. *)
Lemma exits_well_never (m : M A) :
  (forall s o s' evs, m s = (o, s', evs) -> forall c, o ≠ Ret c) ->
  exits_well m.
Proof. intros Hm s o s' evs c Heq Ho. by destruct (Hm _ _ _ _ Heq c). Qed.

Lemma exits_well_ret (a : A) : exits_well (mret a).
Proof. apply exits_well_never. intros s o s' evs Heq c. by inversion Heq. Qed.

Lemma exits_well_throw (e : string) : exits_well (throw (A:=A) e).
Proof. apply exits_well_never. intros s o s' evs Heq c. by inversion Heq. Qed.

Lemma exits_well_lift (r : result A) : exits_well (lift r).
Proof. destruct r; [apply exits_well_ret | apply exits_well_throw]. Qed.

Lemma exits_well_return_0 : exits_well (return_ (A:=A) 0).
Proof. intros s o s' evs c Heq Ho. inversion Heq; simplify_eq. by left. Qed.

Lemma exits_well_cerr_return_1 msg :
  exits_well (cerr msg ≫= fun _ => return_ (A:=A) 1).
Proof.
  intros s o s' evs c Heq Ho. inversion Heq; simplify_eq.
  right. split; [done|]. by exists [], msg.
Qed.

End ExitsWell.

Lemma exits_well_emit e : exits_well (emit e).
Proof. apply exits_well_never. intros s o s' evs Heq c. by inversion Heq. Qed.

Lemma exits_well_get_set_level b level :
  exits_well (get_set_log_detalisation_level b level).
Proof.
  apply exits_well_never. intros s o s' evs Heq c.
  unfold get_set_log_detalisation_level in Heq. destruct b; by inversion Heq.
Qed.

Lemma exits_well_add_logger t file dir : exits_well (add_logger t file dir).
Proof. apply exits_well_never. intros s o s' evs Heq c. by inversion Heq. Qed.

Lemma exits_well_fs_exists w p : exits_well (fs_exists w p).
Proof. apply exits_well_never. intros s o s' evs Heq c. by inversion Heq. Qed.

Lemma exits_well_create_directories w dir :
  exits_well (create_directories_if_necessary w dir).
Proof.
  apply exits_well_never. intros s o s' evs Heq c.
  unfold create_directories_if_necessary in Heq.
  case_bool_decide; [|destruct (can_create_directories w)]; by inversion Heq.
Qed.

Lemma exits_well_install_service w name args :
  exits_well (install_service w name args).
Proof. apply exits_well_never. intros s o s' evs Heq c. by inversion Heq. Qed.

Lemma exits_well_start_service w name : exits_well (start_service w name).
Proof. apply exits_well_never. intros s o s' evs Heq c. by inversion Heq. Qed.

Lemma exits_well_uninstall_service name : exits_well (uninstall_service name).
Proof. apply exits_well_never. intros s o s' evs Heq c. by inversion Heq. Qed.

Lemma exits_well_posix_fork w : exits_well (posix_fork w).
Proof.
  intros s o s' evs c Heq Ho. unfold posix_fork in Heq.
  destruct (fork_outcome w); simplify_eq. by left.
Qed.

Ltac exits_step :=
  first
    [ apply exits_well_cerr_return_1
    | apply exits_well_bind; [|intros ?]
    | apply exits_well_ret
    | apply exits_well_return_0
    | apply exits_well_throw
    | apply exits_well_lift
    | apply exits_well_emit
    | apply exits_well_get_set_level
    | apply exits_well_add_logger
    | apply exits_well_fs_exists
    | apply exits_well_create_directories
    | apply exits_well_install_service
    | apply exits_well_start_service
    | apply exits_well_uninstall_service
    | apply exits_well_posix_fork
    | match goal with
      | |- exits_well (if ?b then _ else _) => destruct b
      | |- exits_well (match ?x with _ => _ end) => destruct x
      end ].

Lemma ends_in_zero_bind {A} (m : M A) (f : A -> M Z) :
  (forall a, ends_in_zero (f a)) -> ends_in_zero (m ≫= f).
Proof.
  intros Hf s a s' evs Heq.
  apply bind_Val_inv in Heq as (x & s1 & e1 & e2 & _ & Hfx & _).
  by eapply Hf.
Qed.

Lemma ends_in_zero_ret : ends_in_zero (mret 0).
Proof. intros s a s' evs Heq. by inversion Heq. Qed.

Section EveryRun.

Context {macros : Macros} {boost : bf.library}.

Lemma main_dispatch_exits_well w vm : exits_well (main_dispatch w vm).
Proof.
  unfold main_dispatch, main_daemon_command, main_start_log_level,
    main_set_log_level, main_sinks_and_launch, main_set_log_file, main_launch,
    when, LOG_PRINT_L0.
  cbv zeta. repeat exits_step.
Qed.

Lemma main_resolve_exits_well w : exits_well (main_resolve w).
Proof.
  intros s o s' evs c. unfold main_resolve. rewrite bind_run.
  unfold parse_options.
  destruct (opts ← parsed_argv w; po.store (all_options w) opts po.empty_map)
    as [vm|e]; simpl.
  - assert (Hrest : exits_well
      (help ← print_help (usage w) vm;
       if (help : bool) then return_ 0 else
       query ← query_system_info vm;
       if (query : bool) then return_ 0 else
       main_create_data_dir w vm;; main_parse_config_file w vm)).
    { unfold print_help, query_system_info, main_create_data_dir,
        main_parse_config_file. repeat exits_step. }
    specialize (Hrest s).
    destruct ((help ← print_help (usage w) vm; _) s) as [[o2 s2] e2].
    intros Heq Ho. simplify_eq. by eapply Hrest.
  - intros Heq Ho. simplify_eq.
    right. split; [done|]. by exists [], e.
Qed.

Lemma main_try_exits_well w : exits_well (main_try w).
Proof.
  unfold main_try. apply exits_well_bind;
    [apply main_resolve_exits_well|intros vm; apply main_dispatch_exits_well].
Qed.

Lemma main_try_ends_in_zero w : ends_in_zero (main_try w).
Proof.
  unfold main_try, main_dispatch, main_sinks_and_launch. cbv zeta.
  repeat (apply ends_in_zero_bind; intros ?). apply ends_in_zero_ret.
Qed.

Lemma main_try_no_log_error w :
  emits (fun e => is_log_error e = false) (main_try w).
Proof.
  unfold main_try, main_resolve, parse_options, print_help, query_system_info,
    main_create_data_dir, main_parse_config_file, main_dispatch,
    main_daemon_command, main_start_log_level, main_set_log_level,
    main_sinks_and_launch, main_set_log_file, main_launch, when, cerr,
    LOG_PRINT_L0.
  cbv zeta. emits_block.
Qed.

(** X14. [main] returns 0 or 1.  When it returns 1 the last thing it did
    was to report an error, on the error stream or through [LOG_ERROR];
    when it returns 0 it never went through its exception handler. *)
Theorem main_returns_0_or_1 w s :
  ((main w s).1.1 = 0 /\
   Forall (fun e => is_log_error e = false) (main w s).2) \/
  ((main w s).1.1 = 1 /\
   exists l e, (main w s).2 = l ++ [e] /\ is_error_report e = true).
Proof.
  unfold main.
  pose proof (main_try_exits_well w s) as Hexit.
  pose proof (main_try_ends_in_zero w s) as Hzero.
  pose proof (main_try_no_log_error w s) as Hlog.
  destruct (main_try w s) as [[[a|c|e] s'] evs]; simpl.
  - left. split; [by eapply Hzero|by eapply Hlog].
  - destruct (Hexit _ _ _ c eq_refl eq_refl) as [->|(-> & l & msg & ->)].
    + left. split; [done|by eapply Hlog].
    + right. split; [done|]. by exists l, (EvCerr msg).
  - right. split; [done|]. by eexists evs, _.
Qed.

Lemma main_try_posix_no_service w :
  WIN32 = false ->
  emits (fun e => is_service_manager e = false) (main_try w).
Proof.
  intros Hwin.
  unfold main_try, main_resolve, parse_options, print_help, query_system_info,
    main_create_data_dir, main_parse_config_file, main_dispatch,
    main_daemon_command, main_start_log_level, main_set_log_level,
    main_sinks_and_launch, main_set_log_file, main_launch, when, cerr,
    LOG_PRINT_L0.
  rewrite Hwin. cbv zeta. emits_block.
Qed.

Lemma main_try_windows_no_fork w :
  WIN32 = true ->
  emits (fun e => is_fork e = false) (main_try w).
Proof.
  intros Hwin.
  unfold main_try, main_resolve, parse_options, print_help, query_system_info,
    main_create_data_dir, main_parse_config_file, main_dispatch,
    main_daemon_command, main_start_log_level, main_set_log_level,
    main_sinks_and_launch, main_set_log_file, main_launch, when, cerr,
    LOG_PRINT_L0.
  rewrite Hwin. cbv zeta. emits_block.
Qed.

(** X15. The two ways of detaching never mix.  A build without [WIN32]
    never calls the service manager or the service runner, whatever the
    configuration holds; a build with [WIN32] never forks. *)
Theorem each_platform_detaches_its_own_way w s :
  (WIN32 = false ->
   Forall (fun e => is_service_manager e = false) (main w s).2) /\
  (WIN32 = true -> Forall (fun e => is_fork e = false) (main w s).2).
Proof.
  split; intros Hwin; unfold main.
  - by apply exit_of_emits; [apply main_try_posix_no_service|].
  - by apply exit_of_emits; [apply main_try_windows_no_fork|].
Qed.

End EveryRun.

(** ** When the daemon runs *)

Section DaemonRun.

Context {macros : Macros} {boost : bf.library}.

Lemma quiet_prepares e : quiet e -> prepares e.
Proof. intros (Hf & _ & Hd). by destruct e. Qed.

Lemma not_run_of_prepares evs : Forall prepares evs -> EvDaemonRun ∉ evs.
Proof.
  intros Hall Hin. rewrite Forall_forall in Hall.
  by destruct (Hall _ Hin) as [? _].
Qed.

Lemma main_set_log_level_prepares vm : emits prepares (main_set_log_level vm).
Proof. unfold main_set_log_level, LOG_PRINT_L0, prepares. emits_block. Qed.

Lemma main_set_log_file_prepares w vm : emits prepares (main_set_log_file w vm).
Proof. unfold main_set_log_file, prepares. emits_block. Qed.

Lemma not_run_of_emits {A} (m : M A) s o s' evs :
  emits (fun e => is_daemon_run e = false) m ->
  m s = (o, s', evs) -> EvDaemonRun ∉ evs.
Proof.
  intros Hem Heq Hin. specialize (Hem _ _ _ _ Heq).
  rewrite Forall_forall in Hem. by specialize (Hem _ Hin).
Qed.

(** The launch block runs the daemon last, right after the version line,
    and then falls through. *)
Lemma main_launch_daemon_run w detach win_service s o s' evs :
  main_launch w detach win_service s = (o, s', evs) ->
  EvDaemonRun ∈ evs ->
  o = Val tt /\
  exists pre,
    evs = pre ++ [EvLogPrintL0 version_line; EvDaemonRun] /\
    Forall prepares pre.
Proof.
  unfold main_launch. intros Heq Hin.
  destruct win_service; [|destruct detach; [destruct WIN32 eqn:Hwin|]].
  - exfalso. revert Hin. eapply not_run_of_emits; [|exact Heq].
    unfold LOG_PRINT_L0. emits_block.
  - exfalso. revert Hin. eapply not_run_of_emits; [|exact Heq].
    emits_block.
  - unfold posix_fork in Heq. rewrite bind_run in Heq.
    destruct (fork_outcome w); inversion Heq; subst.
    + exfalso. by repeat (apply elem_of_cons in Hin as [Hin|Hin]; [done|]);
        apply elem_of_nil in Hin.
    + split; [done|]. exists [EvFork]. split; [done|]. by repeat constructor.
    + exfalso. by repeat (apply elem_of_cons in Hin as [Hin|Hin]; [done|]);
        apply elem_of_nil in Hin.
  - inversion Heq; subst. split; [done|]. exists []. by split.
Qed.

(** So do the sinks and the launch together, and the file sink comes
    first. *)
Lemma main_sinks_and_launch_daemon_run w vm s o s' evs :
  main_sinks_and_launch w vm s = (o, s', evs) ->
  EvDaemonRun ∈ evs ->
  o = Val 0 /\
  exists q pre,
    evs = file_sink_event w q :: pre ++ [EvLogPrintL0 version_line; EvDaemonRun] /\
    Forall prepares pre.
Proof.
  unfold main_sinks_and_launch. cbv zeta. fold (attached vm).
  intros Heq Hin. rewrite bind_run in Heq.
  destruct (data_dir_of w vm) as [d|e] eqn:Hd; cycle 1.
  { exfalso. unfold main_set_log_file in Heq. rewrite bind_run, Hd in Heq.
    simpl in Heq. inversion Heq; subst. by apply elem_of_nil in Hin. }
  destruct (get_arg_string vm arg_log_file) as [f|e] eqn:Hf; cycle 1.
  { exfalso. unfold main_set_log_file in Heq. rewrite bind_run, Hd in Heq.
    simpl in Heq. rewrite bind_run, Hf in Heq.
    simpl in Heq. inversion Heq; subst. by apply elem_of_nil in Hin. }
  rewrite (main_set_log_file_run w vm s d f Hd Hf) in Heq.
  rewrite bind_run, console_run, bind_run in Heq.
  set (s3 := if attached vm then _ else _) in Heq.
  destruct (main_launch w (arg_present vm arg_detach)
              (arg_present vm arg_windows_service) s3)
    as [[o1 s4] e1] eqn:Hl.
  assert (Hin1 : EvDaemonRun ∈ e1).
  { destruct o1; inversion Heq; subst; clear Heq;
      destruct (attached vm); simpl in Hin;
      repeat (apply elem_of_cons in Hin as [Hin|Hin]; [done|]);
      by rewrite ?app_nil_r in Hin. }
  destruct (main_launch_daemon_run _ _ _ _ _ _ _ Hl Hin1)
    as (-> & pre & -> & Hpre).
  inversion Heq; subst. split; [done|].
  exists (chosen_log_path w s d f),
    ((if attached vm then [console_event] else []) ++ pre).
  split.
  - simpl. rewrite app_nil_r. by rewrite <- app_assoc.
  - apply Forall_app. split; [|done].
    destruct (attached vm); by repeat constructor.
Qed.

(** X16. Whenever [main] runs the daemon, it runs it once, as the last
    thing it does, right after logging the version line, and returns 0.
    By then it has set the log level to [LOG_LEVEL_0] and, after that,
    attached a file sink; it has forwarded no command and has not called
    the service manager. *)
Theorem daemon_runs_last_and_logging_is_ready w s :
  EvDaemonRun ∈ (main w s).2 ->
  (main w s).1.1 = 0 /\
  exists l1 l2 l3 file dir,
    (main w s).2 =
      l1 ++ EvSetLogLevel LOG_LEVEL_0 ::
      l2 ++ EvAddLogger LOGGER_FILE (Some file) (Some dir) ::
      l3 ++ [EvLogPrintL0 version_line; EvDaemonRun] /\
    Forall prepares (l1 ++ l2 ++ l3).
Proof.
  destruct (main_resolve w s) as [[[vm|c|e] s1] evs1] eqn:Hr.
  - destruct (arg_present vm arg_command) eqn:Hc.
    + intros Hin. exfalso.
      destruct (main_daemon_command_present w vm s1 Hc)
        as (o & evs & _ & _ & Hevs & Hd).
      pose proof (main_resolve_quiet w _ _ _ _ Hr) as Hq.
      unfold main, main_try in Hin. rewrite bind_run, Hr, Hd in Hin.
      assert (Hno : EvDaemonRun ∉ evs1 ++ evs).
      { rewrite Forall_forall in Hq, Hevs. intros [Hno|Hno]%elem_of_app.
        - by destruct (Hq _ Hno) as (_ & _ & ?).
        - by destruct (Hevs _ Hno) as [_ ?]. }
      destruct o as [[]|c|e]; simpl in Hin; try done.
      apply elem_of_app in Hin as [Hin|Hin]; [done|].
      apply list_elem_of_singleton in Hin. done.
    + destruct (main_launch_path_any w s vm s1 evs1 Hr Hc)
        as (n & s2 & e2 & _ & Hset & Hmain).
      rewrite Hmain.
      destruct (main_sinks_and_launch w vm s2) as [[o s3] e3] eqn:Hsl.
      pose proof (main_resolve_quiet w _ _ _ _ Hr) as Hq.
      pose proof (main_set_log_level_prepares vm _ _ _ _ Hset) as He2.
      assert (H1 : Forall prepares evs1).
      { eapply Forall_impl; [exact Hq|apply quiet_prepares]. }
      intros Hin.
      assert (Hin3 : EvDaemonRun ∈ e3).
      { destruct o as [c|c|e]; simpl in Hin;
          apply elem_of_app in Hin as [Hin|Hin];
          try (by apply not_run_of_prepares in H1);
          apply elem_of_cons in Hin as [Hin|Hin]; try done;
          apply elem_of_app in Hin as [Hin|Hin];
          try (by apply not_run_of_prepares in He2); try done.
        apply elem_of_app in Hin as [Hin|Hin]; [done|].
        by apply list_elem_of_singleton in Hin. }
      destruct (main_sinks_and_launch_daemon_run _ _ _ _ _ _ Hsl Hin3)
        as (-> & q & pre & -> & Hpre).
      simpl. split; [done|].
      exists evs1, e2, pre. eexists _, _. split; [reflexivity|].
      by rewrite !Forall_app.
  - intros Hin. exfalso.
    destruct (main_resolve_not_Val w s) as (code & s' & evs & Hm & Hq).
    { intros vm s2 evs2 Heq. rewrite Hr in Heq. discriminate. }
    rewrite Hm in Hin. simpl in Hin. revert Hin.
    apply not_run_of_prepares.
    eapply Forall_impl; [exact Hq|apply quiet_prepares].
  - intros Hin. exfalso.
    destruct (main_resolve_not_Val w s) as (code & s' & evs & Hm & Hq).
    { intros vm s2 evs2 Heq. rewrite Hr in Heq. discriminate. }
    rewrite Hm in Hin. simpl in Hin. revert Hin.
    apply not_run_of_prepares.
    eapply Forall_impl; [exact Hq|apply quiet_prepares].
Qed.

End DaemonRun.

(** ** The command line over the configuration file *)

Section Merge.

Context {macros : Macros} {boost : bf.library}.

(** C1. Whenever a configuration is resolved, every option the command line
    names holds the command line's value in it (for a single-valued option,
    the parse of its tokens), whatever the configuration file holds for it.
    The file is consulted only if [bf::exists] finds it; it can name core
    settings only, and a single-valued core setting that the command line
    leaves alone takes the value of the file's line: the file is stored
    underneath what [argv] stored. *)
Theorem command_line_wins_over_config_file w s vm s1 evs1 opts :
  main_resolve w s = (Val vm, s1, evs1) ->
  parsed_argv w = Ok opts ->
  exists vm0 p,
    po.store (all_options w) opts po.empty_map = Ok vm0 /\
    config_path_of w vm0 = Ok p /\
    (forall o, o ∈ opts -> po.string_key o ≠ "" ->
       exists v,
         po.vm_values vm0 !! po.string_key o = Some v /\
         po.vv_defaulted v = false /\
         po.vm_values vm !! po.string_key o = Some v /\
         forall d,
           po.find (all_options w) (po.string_key o) = Some d ->
           scalar (po.od_semantic d) ->
           po.parse (po.od_semantic d) None (po.value o) = Ok (po.vv_value v)) /\
    (path_exists w s1 p = false -> vm = vm0) /\
    (path_exists w s1 p = true ->
       exists lines,
         read_file w p = Ok lines /\
         forall k x, (k, x) ∈ lines ->
           exists d,
             po.find (core_settings w) k = Some d /\
             (k ∉ po.string_key <$> opts -> k ≠ "" ->
              scalar (po.od_semantic d) ->
              exists a,
                po.parse (po.od_semantic d) None [x] = Ok a /\
                po.vm_values vm !! k =
                  Some {| po.vv_value := a; po.vv_defaulted := false |})).
Proof.
  intros Hr Hargv.
  apply main_resolve_inv in Hr
    as (opts' & vm0 & s0 & Hargv' & Hst & _ & _ & _ & Hcf).
  rewrite Hargv in Hargv'. inversion Hargv'; subst opts'.
  destruct (store_makes_final _ _ _ _ empty_map_final_explicit Hst)
    as [Hinv Hfin].
  apply main_parse_config_file_inv in Hcf as (-> & _ & p & Hp & Hcf).
  exists vm0, p. split; [done|]. split; [done|].
  split; [|split].
  - intros o Ho Hne.
    assert (Hk : po.string_key o ∈ po.string_key <$> opts).
    { apply list_elem_of_fmap. by exists o. }
    specialize (Hfin _ Hk Hne). destruct (Hinv _ Hfin) as (v & Hv & Hd).
    exists v. split; [done|]. split; [done|]. split.
    + destruct (path_exists w s0 p); [|by subst vm].
      destruct Hcf as (lines & copts & _ & _ & Hst2).
      by rewrite (store_keeps_final _ _ _ _ _ Hinv Hst2 Hfin).
    + intros d Hfind Hsc.
      assert (Hnf : po.string_key o ∉ po.vm_final po.empty_map).
      { intros Hin. simpl in Hin. by apply not_elem_of_empty in Hin. }
      destruct (store_scalar (all_options w) opts po.empty_map vm0
                  (po.string_key o) d o Hfind Hsc Hnf
                  (empty_not_explicit _) Hne Ho eq_refl Hst)
        as (a & Ha & Hva).
      rewrite Hv in Hva. inversion Hva; subst v. done.
  - intros Hex. by rewrite Hex in Hcf.
  - intros Hex. rewrite Hex in Hcf.
    destruct Hcf as (lines & copts & Hrd & Hpc & Hst2).
    exists lines. split; [done|]. intros k x Hin.
    pose proof (parse_config_file_registered _ _ _ Hpc k x Hin) as Hreg.
    unfold po.registered in Hreg.
    destruct (po.find (core_settings w) k) as [d|] eqn:Hfind; [|discriminate].
    exists d. split; [done|]. intros Hk Hne Hsc.
    apply parse_config_file_keys in Hpc.
    destruct (argv_store_shape _ _ _ k Hst Hk) as [Hnf Hnex].
    eapply (store_scalar (core_settings w) copts vm0 vm k d
              {| po.string_key := k; po.value := [x] |}); try done.
    subst copts. apply list_elem_of_fmap. by exists (k, x).
Qed.

End Merge.


(** ** The theorems at work on the scenarios *)

#[local] Existing Instance scenario.paths.

Lemma command_line_wins_witness :
  exists vm s1 evs1,
    main_resolve (macros:=scenario.posix) scenario.argv_over_file scenario.boot
      = (Val vm, s1, evs1) /\
    get_arg_string vm arg_log_file = Ok "b.log" /\
    get_arg_int vm (arg_log_level (macros:=scenario.posix)) = Ok 3 /\
    exists vm0 p,
      po.store (all_options (macros:=scenario.posix) scenario.argv_over_file)
               [scenario.opt "log-file" ["b.log"]] po.empty_map = Ok vm0 /\
      config_path_of scenario.argv_over_file vm0 = Ok p /\
      (forall o, o ∈ [scenario.opt "log-file" ["b.log"]] ->
         po.string_key o ≠ "" ->
         exists v,
           po.vm_values vm0 !! po.string_key o = Some v /\
           po.vv_defaulted v = false /\
           po.vm_values vm !! po.string_key o = Some v /\
           forall d,
             po.find (all_options (macros:=scenario.posix) scenario.argv_over_file)
                     (po.string_key o) = Some d ->
             scalar (po.od_semantic d) ->
             po.parse (po.od_semantic d) None (po.value o) = Ok (po.vv_value v)) /\
      (path_exists scenario.argv_over_file s1 p = false -> vm = vm0) /\
      (path_exists scenario.argv_over_file s1 p = true ->
         exists lines,
           read_file scenario.argv_over_file p = Ok lines /\
           forall k x, (k, x) ∈ lines ->
             exists d,
               po.find (core_settings (macros:=scenario.posix) scenario.argv_over_file) k
                 = Some d /\
               (k ∉ po.string_key <$> [scenario.opt "log-file" ["b.log"]] ->
                k ≠ "" -> scalar (po.od_semantic d) ->
                exists a,
                  po.parse (po.od_semantic d) None [x] = Ok a /\
                  po.vm_values vm !! k =
                    Some {| po.vv_value := a; po.vv_defaulted := false |})).
Proof.
  eexists _, _, _. split; [vm_compute; reflexivity|].
  split; [vm_compute; reflexivity|].
  split; [vm_compute; reflexivity|].
  eapply (command_line_wins_over_config_file (macros:=scenario.posix)
            scenario.argv_over_file scenario.boot).
  - vm_compute. reflexivity.
  - reflexivity.
Defined.

(** C1 as the spec states it fails for an option outside the core
    settings: with [data-dir] on the command line and in the configuration
    file, no configuration is resolved at all, and [main] returns 1. *)
Lemma data_dir_conflict_counterexample :
  parsed_argv scenario.data_dir_twice =
    Ok [scenario.opt "data-dir" ["/home/user/.bitmonero"]] /\
  read_file scenario.data_dir_twice
            (bf.of_string "/home/user/.bitmonero/bitmonero.conf") =
    Ok [("data-dir", "/tmp")] /\
  main_resolve (macros:=scenario.posix) scenario.data_dir_twice scenario.boot =
    (Exc "unrecognised option", scenario.boot, []) /\
  main (macros:=scenario.posix) scenario.data_dir_twice scenario.boot =
    (1, scenario.boot, [EvLogError "Exception in main! unrecognised option"]).
Proof. repeat split; vm_compute; reflexivity. Qed.

Lemma out_of_range_log_level_witness :
  main_set_log_level (macros:=scenario.posix) (scenario.level_request 5) scenario.boot
    = (Val tt, scenario.boot, [wrong_level_warning 5]) /\
  (main_start_log_level (macros:=scenario.posix);;
   main_set_log_level (macros:=scenario.posix) (scenario.level_request 5))
    scenario.boot
    = (Val tt, set_level 0 scenario.boot,
       [EvSetLogLevel 0; wrong_level_warning 5]).
Proof.
  apply (out_of_range_log_level_is_rejected (macros:=scenario.posix)
           (scenario.level_request 5) scenario.boot 5).
  - vm_compute. reflexivity.
  - right. reflexivity.
Defined.

Lemma failed_start_uninstalls_witness :
  exists before,
    (main (macros:=scenario.windows) scenario.detach_start_fails scenario.boot).1.1 = 0 /\
    (main (macros:=scenario.windows) scenario.detach_start_fails scenario.boot).2 =
      before ++
      [EvInstallService WINDOWS_SERVICE_NAME
         (service_arguments scenario.detach_start_fails);
       EvStartService WINDOWS_SERVICE_NAME;
       EvUninstallService WINDOWS_SERVICE_NAME] /\
    Forall (fun e => is_daemonization e = false) before /\
    WINDOWS_SERVICE_NAME ∉
      services (main (macros:=scenario.windows) scenario.detach_start_fails
                     scenario.boot).1.2.
Proof.
  eapply (failed_start_uninstalls_and_exits_0 (macros:=scenario.windows)
            scenario.detach_start_fails scenario.boot).
  - reflexivity.
  - vm_compute. reflexivity.
  - vm_compute. reflexivity.
  - reflexivity.
  - vm_compute. reflexivity.
  - vm_compute. reflexivity.
  - reflexivity.
  - apply not_elem_of_empty.
  - reflexivity.
Defined.

(** C3 as the spec states it fails: the service is installed, the start
    fails, the service is uninstalled, and the exit code is 0, not 1. *)
Lemma failed_start_exit_code_counterexample :
  install_service_accepted scenario.detach_start_fails = true /\
  start_service_accepted scenario.detach_start_fails = false /\
  main (macros:=scenario.windows) scenario.detach_start_fails scenario.boot =
    (0,
     set_loggers [(LOGGER_FILE, Some "bitmonero.log", Some "/home/user/.bitmonero")]
       (set_level 0 scenario.boot),
     [EvSetLogLevel 0;
      EvAddLogger LOGGER_FILE (Some "bitmonero.log") (Some "/home/user/.bitmonero");
      EvInstallService "BitMonero Daemon" " --detach --run-as-service";
      EvStartService "BitMonero Daemon";
      EvUninstallService "BitMonero Daemon"]) /\
  (main (macros:=scenario.windows) scenario.detach_start_fails scenario.boot).1.1 ≠ 1.
Proof.
  split; [reflexivity|]. split; [reflexivity|]. split.
  - vm_compute. reflexivity.
  - vm_compute. discriminate.
Defined.

Lemma forwarding_excludes_launch_witness :
  Forall not_forwarding (main (macros:=scenario.posix) scenario.status scenario.boot).2 \/
  Forall no_launch (main (macros:=scenario.posix) scenario.status scenario.boot).2.
Proof.
  exact (proj1 (forwarding_excludes_launch (macros:=scenario.posix)
                  scenario.status scenario.boot)).
Defined.

Lemma forwarded_command_witness :
  exists vm s1 evs1,
    main_resolve (macros:=scenario.posix) scenario.status scenario.boot
      = (Val vm, s1, evs1) /\
    main (macros:=scenario.posix) scenario.status scenario.boot =
      if process_command_vec scenario.status 2130706433 18081 ["status"]
      then (0, s1, evs1 ++ [EvCommandServer 2130706433 18081;
                            EvProcessCommandVec ["status"]])
      else (1, s1, evs1 ++ [EvCommandServer 2130706433 18081;
                            EvProcessCommandVec ["status"];
                            EvCerr "Unknown command"]).
Proof.
  eexists _, _, _. split; [vm_compute; reflexivity|].
  eapply (forwarded_command_result_is_exit_code (macros:=scenario.posix)
            scenario.status scenario.boot _ _ _ ["status"]
            "127.0.0.1" "18081" 2130706433 18081).
  - vm_compute. reflexivity.
  - vm_compute. reflexivity.
  - discriminate.
  - vm_compute. reflexivity.
  - vm_compute. reflexivity.
  - vm_compute. reflexivity.
  - vm_compute. reflexivity.
Defined.

Lemma invalid_address_witness :
  exists vm s1 evs1,
    main_resolve (macros:=scenario.posix) scenario.bad_ip scenario.boot
      = (Val vm, s1, evs1) /\
    exists msg,
      main (macros:=scenario.posix) scenario.bad_ip scenario.boot
        = (1, s1, evs1 ++ [EvCerr msg]) /\
      Forall not_forwarding
        (main (macros:=scenario.posix) scenario.bad_ip scenario.boot).2 /\
      (get_ip_int32_from_string scenario.bad_ip "localhost" = None ->
       msg = "Invalid IP: " +:+ "localhost") /\
      (get_ip_int32_from_string scenario.bad_ip "localhost" ≠ None ->
       msg = "Invalid port: " +:+ "18081").
Proof.
  eexists _, _, _. split; [vm_compute; reflexivity|].
  eapply (invalid_address_exits_before_connecting (macros:=scenario.posix)
            scenario.bad_ip scenario.boot _ _ _ ["status"]
            "localhost" "18081").
  - vm_compute. reflexivity.
  - vm_compute. reflexivity.
  - discriminate.
  - vm_compute. reflexivity.
  - vm_compute. reflexivity.
  - left. vm_compute. reflexivity.
Defined.

Lemma log_file_falls_back_witness :
  exists vm s1 evs1,
    main_resolve (macros:=scenario.posix) scenario.dot_log_file scenario.boot
      = (Val vm, s1, evs1) /\
    main_set_log_file scenario.dot_log_file vm s1 =
      (Val tt,
       set_loggers [(LOGGER_FILE, Some "a.log", Some "/home/user/.bitmonero/.")] s1,
       [EvAddLogger LOGGER_FILE (Some "a.log") (Some "/home/user/.bitmonero/.")]) /\
    exists dd f,
      get_arg_string vm arg_data_dir = Ok dd /\
      get_arg_string vm arg_log_file = Ok f /\
      forall s2,
        let d := bf.absolute (current_path scenario.dot_log_file) (bf.of_string dd) in
        let p := candidate_log_path d f in
        let q := chosen_log_path scenario.dot_log_file s2 d f in
        (bf.is_relative (bf.of_string f) = true -> p = d // bf.of_string f) /\
        (bf.is_relative (bf.of_string f) = false -> p = bf.of_string f) /\
        (bf.has_parent_path p = false \/
         path_exists scenario.dot_log_file s2 (bf.parent_path p) = false ->
         q = bf.of_string (get_default_log_file scenario.dot_log_file)) /\
        (bf.has_parent_path p = true ->
         path_exists scenario.dot_log_file s2 (bf.parent_path p) = true ->
         q = p /\ sink_dir_exists scenario.dot_log_file s2 q = true) /\
        main_set_log_file scenario.dot_log_file vm s2 =
          (Val tt,
           set_loggers (loggers s2 ++ [file_sink scenario.dot_log_file q]) s2,
           [file_sink_event scenario.dot_log_file q]).
Proof.
  eexists _, _, _. split; [vm_compute; reflexivity|].
  split; [vm_compute; reflexivity|].
  eapply (log_file_falls_back_to_default (macros:=scenario.posix)
            scenario.dot_log_file scenario.boot).
  - vm_compute. reflexivity.
  - reflexivity.
Defined.

(** C7 as the spec states it fails where the default log folder does not
    exist: the configured folder is missing, the default takes its place
    without a check, and the file sink is attached with a folder that does
    not exist. *)
Lemma log_sink_folder_counterexample :
  path_exists scenario.stray_unchecked scenario.boot
              (bf.of_string "/nonexistent") = false /\
  main (macros:=scenario.posix) scenario.stray_unchecked scenario.boot =
    (0,
     set_loggers [(LOGGER_FILE, Some "bitmonerod.log", Some "/var/log/bitmonero");
                  (LOGGER_CONSOLE, None, None)]
       (set_level 0 scenario.boot),
     [EvSetLogLevel 0;
      EvAddLogger LOGGER_FILE (Some "bitmonerod.log") (Some "/var/log/bitmonero");
      EvAddLogger LOGGER_CONSOLE None None;
      EvLogPrintL0 "bitmonero v0.8.8.6";
      EvDaemonRun]) /\
  path_exists scenario.stray_unchecked
    (main (macros:=scenario.posix) scenario.stray_unchecked scenario.boot).1.2
    (bf.of_string "/var/log/bitmonero") = false.
Proof. repeat split; vm_compute; reflexivity. Qed.

Lemma file_and_console_sink_witness :
  exists vm s1 evs1,
    main_resolve (macros:=scenario.posix) scenario.detach scenario.boot
      = (Val vm, s1, evs1) /\
    attached vm = false /\
    exists q before after,
      loggers (main (macros:=scenario.posix) scenario.detach scenario.boot).1.2 =
        loggers scenario.boot ++ file_sink scenario.detach q ::
        (if attached vm then [console_sink] else []) /\
      (main (macros:=scenario.posix) scenario.detach scenario.boot).2 =
        before ++ file_sink_event scenario.detach q ::
        (if attached vm then [console_event] else []) ++ after /\
      Forall (fun e => is_add_logger e = false) before /\
      Forall (fun e => is_add_logger e = false) after /\
      (attached vm = true <->
       arg_present vm arg_detach = false /\
       arg_present vm arg_windows_service = false).
Proof.
  eexists _, _, _. split; [vm_compute; reflexivity|].
  split; [vm_compute; reflexivity|].
  eapply (file_sink_always_console_sink_iff_attached (macros:=scenario.posix)
            scenario.detach scenario.boot).
  - vm_compute. reflexivity.
  - vm_compute. reflexivity.
  - reflexivity.
Defined.

Lemma launch_starts_at_log_level_0_witness :
  exists vm s1 evs1,
    main_resolve (macros:=scenario.posix) scenario.level_5 scenario.boot
      = (Val vm, s1, evs1) /\
    exists n evs2,
      get_arg_int vm (arg_log_level (macros:=scenario.posix)) = Ok n /\
      (main (macros:=scenario.posix) scenario.level_5 scenario.boot).2
        = evs1 ++ EvSetLogLevel 0 :: evs2 /\
      (out_of_range (macros:=scenario.posix) n ->
         log_detalisation_level
           (main (macros:=scenario.posix) scenario.level_5 scenario.boot).1.2 = 0 /\
         exists evs3, evs2 = wrong_level_warning n :: evs3 /\
                      Forall (fun e => is_set_log_level e = false) evs3).
Proof.
  eexists _, _, _. split; [vm_compute; reflexivity|].
  eapply (launch_starts_at_log_level_0 (macros:=scenario.posix)
            scenario.level_5 scenario.boot).
  - vm_compute. reflexivity.
  - vm_compute. reflexivity.
Defined.

Lemma unregistered_config_key_witness :
  exists vm0 p,
    po.store (all_options (macros:=scenario.posix) scenario.data_dir_in_config) []
             po.empty_map = Ok vm0 /\
    config_path_of scenario.data_dir_in_config vm0 = Ok p /\
    (po.od_name <$> core_settings (macros:=scenario.posix) scenario.data_dir_in_config =
       "log-file" :: "log-level" ::
       (po.od_name <$> t_daemon_init_options scenario.data_dir_in_config) /\
     po.parse_config_file [("data-dir", "/tmp")]
       (core_settings (macros:=scenario.posix) scenario.data_dir_in_config)
       = Error "unrecognised option" /\
     exists s' evs,
       main (macros:=scenario.posix) scenario.data_dir_in_config scenario.boot =
         (1, s', evs ++ [EvLogError "Exception in main! unrecognised option"]) /\
       Forall quiet evs /\
       log_detalisation_level s' = log_detalisation_level scenario.boot /\
       loggers s' = loggers scenario.boot /\
       services s' = services scenario.boot).
Proof.
  eexists _, _. split; [vm_compute; reflexivity|].
  split; [vm_compute; reflexivity|].
  eapply (unregistered_config_key_exits_1 (macros:=scenario.posix)
            scenario.data_dir_in_config scenario.boot [] _ _
            [("data-dir", "/tmp")] "data-dir" "/tmp").
  - reflexivity.
  - vm_compute. reflexivity.
  - vm_compute. reflexivity.
  - vm_compute. reflexivity.
  - vm_compute. reflexivity.
  - vm_compute. reflexivity.
  - apply list_elem_of_singleton. reflexivity.
  - reflexivity.
Defined.

(** ** More of the scenarios *)

Lemma get_argument_string_app_witness :
  service_arguments scenario.detach =
    get_argument_string (argv scenario.detach ++ ["--run-as-service"]).
Proof.
  apply (proj2 (get_argument_string_app "/usr/bin/bitmonerod" ["--detach"] [])).
  reflexivity.
Defined.

Lemma help_ends_main_witness :
  main (macros:=scenario.posix) scenario.help_and_more scenario.boot =
    (0, scenario.boot, [EvPrintHelp (usage scenario.help_and_more)]).
Proof.
  eapply (help_ends_main_at_once (macros:=scenario.posix)
            scenario.help_and_more scenario.boot).
  - reflexivity.
  - vm_compute. reflexivity.
  - apply list_elem_of_here.
Defined.

Lemma non_integer_log_level_witness :
  exists e,
    main (macros:=scenario.posix) scenario.level_high scenario.boot =
      (1, scenario.boot, [EvCerr e]).
Proof.
  eapply (non_integer_log_level_is_refused (macros:=scenario.posix)
            scenario.level_high scenario.boot _ "high").
  - reflexivity.
  - apply list_elem_of_here.
  - vm_compute. reflexivity.
Defined.

Lemma option_given_twice_witness :
  exists e,
    main (macros:=scenario.posix) scenario.log_file_twice scenario.boot =
      (1, scenario.boot, [EvCerr e]).
Proof.
  eapply (option_given_twice_is_refused (macros:=scenario.posix)
            scenario.log_file_twice scenario.boot
            [] (scenario.opt "log-file" ["a.log"])
            [] (scenario.opt "log-file" ["b.log"]) [] "log-file").
  - reflexivity.
  - vm_compute. reflexivity.
  - discriminate.
  - discriminate.
  - reflexivity.
  - reflexivity.
Defined.

Lemma unset_option_has_default_witness :
  exists vm s1 evs1,
    main_resolve (macros:=scenario.posix) scenario.both_set scenario.boot
      = (Val vm, s1, evs1) /\
    po.vm_values vm !! "log-level" =
      Some {| po.vv_value := po.any_int 0; po.vv_defaulted := true |}.
Proof.
  eexists _, _, _. split; [vm_compute; reflexivity|].
  eapply (unset_option_has_default (macros:=scenario.posix)
            scenario.both_set scenario.boot).
  - vm_compute. reflexivity.
  - reflexivity.
  - vm_compute. reflexivity.
  - reflexivity.
  - apply (bool_decide_unpack _). vm_compute. exact I.
  - apply (bool_decide_unpack _). vm_compute. exact I.
Defined.

Lemma config_file_fills_witness :
  exists vm s1 evs1,
    main_resolve (macros:=scenario.posix) scenario.level_3_in_config scenario.boot
      = (Val vm, s1, evs1) /\
    exists a,
      po.parse po.sem_int None ["3"] = Ok a /\
      po.vm_values vm !! "log-level" =
        Some {| po.vv_value := a; po.vv_defaulted := false |}.
Proof.
  eexists _, _, _. split; [vm_compute; reflexivity|].
  eapply (config_file_fills_what_argv_leaves (macros:=scenario.posix)
            scenario.level_3_in_config scenario.boot _ _ _ [] _ _ _
            "log-level" "3"
            {| po.od_name := "log-level"; po.od_semantic := po.sem_int;
               po.od_default := Some (po.any_int 0) |}).
  - vm_compute. reflexivity.
  - reflexivity.
  - vm_compute. reflexivity.
  - vm_compute. reflexivity.
  - vm_compute. reflexivity.
  - apply list_elem_of_here.
  - apply not_elem_of_nil.
  - discriminate.
  - vm_compute. reflexivity.
  - discriminate.
Defined.

Lemma posix_knows_no_run_as_service_witness :
  exists e,
    main (macros:=scenario.posix) scenario.as_service scenario.boot =
      (1, scenario.boot, [EvCerr e]).
Proof.
  eapply (proj2 (posix_knows_no_run_as_service (macros:=scenario.posix)
                   scenario.as_service scenario.boot eq_refl eq_refl)).
  - reflexivity.
  - apply (bool_decide_unpack _). vm_compute. exact I.
Defined.

Lemma in_range_log_level_witness :
  exists evs1,
    log_detalisation_level
      (main (macros:=scenario.posix) scenario.level_3 scenario.boot).1.2 = 3 /\
    exists rest,
      (main (macros:=scenario.posix) scenario.level_3 scenario.boot).2 =
        evs1 ++ EvSetLogLevel 0 ::
        level_events (macros:=scenario.posix) 3 ++ rest /\
      Forall (fun e => is_set_log_level e = false) rest.
Proof.
  eexists.
  eapply (in_range_log_level_is_applied (macros:=scenario.posix)
            scenario.level_3 scenario.boot).
  - vm_compute. reflexivity.
  - vm_compute. reflexivity.
  - vm_compute. reflexivity.
  - split; discriminate.
Defined.

Lemma windows_detach_witness :
  (main (macros:=scenario.windows) scenario.detach scenario.boot).1.1 = 0 /\
  services (main (macros:=scenario.windows) scenario.detach scenario.boot).1.2 =
    {[WINDOWS_SERVICE_NAME]} ∪ ∅ /\
  exists before,
    (main (macros:=scenario.windows) scenario.detach scenario.boot).2 =
      before ++
      [EvInstallService WINDOWS_SERVICE_NAME (service_arguments scenario.detach);
       EvStartService WINDOWS_SERVICE_NAME] /\
    Forall (fun e => is_daemonization e = false) before.
Proof.
  eapply (windows_detach_registers_all_or_nothing (macros:=scenario.windows)
            scenario.detach scenario.boot).
  - reflexivity.
  - vm_compute. reflexivity.
  - vm_compute. reflexivity.
  - reflexivity.
  - vm_compute. reflexivity.
  - vm_compute. reflexivity.
Defined.

Lemma windows_service_relaunch_witness :
  (main (macros:=scenario.windows) scenario.as_service scenario.boot).1.1 = 0 /\
  services (main (macros:=scenario.windows) scenario.as_service scenario.boot).1.2 =
    ∅ /\
  exists before,
    (main (macros:=scenario.windows) scenario.as_service scenario.boot).2 =
      before ++
      [EvLogPrintL0 (version_line (macros:=scenario.windows));
       EvServiceRunner WINDOWS_SERVICE_NAME] /\
    Forall (fun e => is_daemonization e = false) before.
Proof.
  eapply (windows_service_relaunch_runs_under_the_runner
            (macros:=scenario.windows) scenario.as_service scenario.boot).
  - reflexivity.
  - vm_compute. reflexivity.
  - vm_compute. reflexivity.
  - reflexivity.
  - vm_compute. reflexivity.
Defined.

Lemma posix_detach_witness :
  (main (macros:=scenario.posix) scenario.detach_parent scenario.boot).1.1 = 0 /\
  exists before,
    (main (macros:=scenario.posix) scenario.detach_parent scenario.boot).2 =
      before ++ [EvFork] /\
    Forall (fun e => is_daemonization e = false) before.
Proof.
  eapply (posix_detach_forks_once (macros:=scenario.posix)
            scenario.detach_parent scenario.boot).
  - reflexivity.
  - vm_compute. reflexivity.
  - vm_compute. reflexivity.
  - reflexivity.
  - vm_compute. reflexivity.
  - vm_compute. reflexivity.
Defined.

Lemma each_platform_witness :
  Forall (fun e => is_service_manager e = false)
    (main (macros:=scenario.posix) scenario.as_service scenario.boot).2 /\
  Forall (fun e => is_fork e = false)
    (main (macros:=scenario.windows) scenario.detach scenario.boot).2.
Proof.
  split.
  - apply (proj1 (each_platform_detaches_its_own_way (macros:=scenario.posix)
                    scenario.as_service scenario.boot)).
    reflexivity.
  - apply (proj2 (each_platform_detaches_its_own_way (macros:=scenario.windows)
                    scenario.detach scenario.boot)).
    reflexivity.
Defined.

Lemma daemon_runs_last_witness :
  (main (macros:=scenario.posix) scenario.level_3 scenario.boot).1.1 = 0 /\
  exists l1 l2 l3 file dir,
    (main (macros:=scenario.posix) scenario.level_3 scenario.boot).2 =
      l1 ++ EvSetLogLevel 0 ::
      l2 ++ EvAddLogger LOGGER_FILE (Some file) (Some dir) ::
      l3 ++ [EvLogPrintL0 (version_line (macros:=scenario.posix)); EvDaemonRun] /\
    Forall prepares (l1 ++ l2 ++ l3).
Proof.
  apply (daemon_runs_last_and_logging_is_ready (macros:=scenario.posix)
           scenario.level_3 scenario.boot).
  apply (bool_decide_unpack _). vm_compute. exact I.
Defined.
